(** * A shallow embedding of rvcs (recursive version control system)

    The development follows the Go sources:
    - [snapshot/hash.go] (Hash, ParseHash, Hash.String, Hash.Equal),
    - [snapshot/file.go] (File, File.String, ParseFile),
    - [snapshot/tree.go] (Tree, Tree.String, ParseTree),
    - [snapshot/snapshot.go] (Current and its helpers),
    - [storage/storage.go] (the LocalFiles store),
    - [bundle/bundle.go] (Import),
    - [archive/log.go] and [merge/base.go] (ReadLog, Base).

    Go's nil pointers are [None]; Go's [error] results are the [Err]
    branch of [result]. Errors only keep what the code inspects:
    whether [os.IsNotExist] holds of them. *)

From Stdlib Require Import Ascii String Bool Arith Lia.
From stdpp Require Import base gmap sets list strings.

Open Scope string_scope.

(* stdpp makes [String.append] opaque to [simpl]; the proofs below compute with it. *)
#[local] Arguments String.append : simpl nomatch.

(* ------------------------------------------------------------------ *)
(** ** Errors *)

Inductive error :=
| ENotExist                 (* an error for which os.IsNotExist holds *)
| EOther (msg : string).    (* any other error, wrapped ones included *)

Inductive result (A : Type) :=
| Ok (a : A)
| Err (e : error).
Arguments Ok {A} a.
Arguments Err {A} e.

Definition rbind {A B} (r : result A) (k : A -> result B) : result B :=
  match r with Ok a => k a | Err e => Err e end.

Notation "'let?' x := r 'in' k" := (rbind r (fun x => k))
  (at level 200, x name, r at level 100, k at level 200).

(* ------------------------------------------------------------------ *)
(** ** Strings: [strings.Split], [strings.Join], [strings.SplitN] *)

Definition nl : ascii := Ascii.ascii_of_nat 10.
Definition colon : ascii := ":"%char.
Definition space : ascii := " "%char.

(** [strings.Split(s, sep)] for a one-character separator. *)
Fixpoint split_on (c : ascii) (s : string) : list string :=
  match s with
  | EmptyString => [EmptyString]
  | String a s' =>
      if Ascii.eqb a c then EmptyString :: split_on c s'
      else match split_on c s' with
           | [] => [String a EmptyString]
           | l :: ls => String a l :: ls
           end
  end.

(** [strings.Join(lines, sep)] for a one-character separator. *)
Fixpoint join_on (c : ascii) (ls : list string) : string :=
  match ls with
  | [] => EmptyString
  | [l] => l
  | l :: ls' => String.append l (String c (join_on c ls'))
  end.

(** [strings.SplitN(s, sep, 2)] for a one-character separator:
    [None] when [sep] does not occur. *)
Fixpoint split_first (c : ascii) (s : string) : option (string * string) :=
  match s with
  | EmptyString => None
  | String a s' =>
      if Ascii.eqb a c then Some (EmptyString, s')
      else match split_first c s' with
           | None => None
           | Some (l, r) => Some (String a l, r)
           end
  end.

Definition has_char (c : ascii) (s : string) : bool :=
  existsb (Ascii.eqb c) (list_ascii_of_string s).

(* ------------------------------------------------------------------ *)
(** ** Hashes *)

Record Hash := mkHash {
  function : string;      (* e.g. "sha256" *)
  hexContents : string    (* the digest as a hexadecimal string *)
}.

Definition defaultHashFunction : string := "sha256".

(** The keys of [supportedHashFunctions]. *)
Definition supportedHashFunction (f : string) : bool :=
  String.eqb f "sha256".

(** [encoding/hex.DecodeString] succeeds exactly on strings of even
    length made of hex digits of either case. *)
Definition is_hex_char (c : ascii) : bool :=
  let n := nat_of_ascii c in
  (((48 <=? n) && (n <=? 57)) || ((97 <=? n) && (n <=? 102))
  || ((65 <=? n) && (n <=? 70)))%nat.

Definition hex_DecodeString_ok (s : string) : bool :=
  Nat.even (String.length s) && forallb is_hex_char (list_ascii_of_string s).

(** [ParseHash] *)
Definition ParseHash (str : string) : result (option Hash) :=
  if String.eqb str "" then Ok None else
  match split_first colon str with
  | None => Err (EOther "malformed hash string")
  | Some (fn, hx) =>
      if negb (supportedHashFunction fn) then Err (EOther "unsupported hash function")
      else if negb (hex_DecodeString_ok hx) then Err (EOther "malformed hash contents")
      else Ok (Some (mkHash fn hx))
  end.

(** [Hash.String] *)
Definition Hash_String (h : option Hash) : string :=
  match h with
  | None => ""
  | Some h => String.append (function h) (String colon (hexContents h))
  end.

(** [Hash.Equal] *)
Definition Hash_Equal (h other : option Hash) : bool :=
  match h, other with
  | None, None => true
  | Some a, Some b => String.eqb (function a) (function b)
                      && String.eqb (hexContents a) (hexContents b)
  | _, _ => false
  end.

(* ------------------------------------------------------------------ *)
(** ** File records *)

Record File := mkFile {
  Mode : string;
  Contents : option Hash;
  Parents : list (option Hash)
}.

(** The loop of [File.String] over the parents, skipping nil ones. *)
Fixpoint parent_lines (ps : list (option Hash)) : list string :=
  match ps with
  | [] => []
  | Some h :: ps' => Hash_String (Some h) :: parent_lines ps'
  | None :: ps' => parent_lines ps'
  end.

(** [File.String] (for a non-nil receiver) *)
Definition File_String (f : File) : string :=
  join_on nl (Mode f :: Hash_String (Contents f) :: parent_lines (Parents f)).

(** The loop of [ParseFile] over [lines[1:]]; [first] is [i == 0]. *)
Fixpoint parse_hash_lines (first : bool) (ls : list string) : result (list Hash) :=
  match ls with
  | [] => Ok []
  | l :: ls' =>
      match ParseHash l with
      | Err _ => Err (EOther "failure parsing the hash")
      | Ok None =>
          if first then Err (EOther "missing contents for the encoded file")
          else parse_hash_lines false ls'
      | Ok (Some h) =>
          let? hs := parse_hash_lines false ls' in Ok (h :: hs)
      end
  end.

(** [ParseFile]; indexing [hashes[0]] on an empty slice would panic,
    which the [EOther "panic"] branch stands for. *)
Definition ParseFile (encoded : string) : result (option File) :=
  if String.eqb encoded "" then Ok None else
  match split_on nl encoded with
  | mode :: (_ :: _) as rest =>
      let? hashes := parse_hash_lines true rest in
      match hashes with
      | h0 :: hs => Ok (Some (mkFile mode (Some h0) (map Some hs)))
      | [] => Err (EOther "panic: index out of range")
      end
  | _ => Err (EOther "malformed file metadata")
  end.

(** [File.IsDir], [File.IsLink] *)
Definition File_IsDir (f : option File) : bool :=
  match f with
  | Some f => String.prefix "d" (Mode f)
  | None => false
  end.

(** Well-formed hashes: the only ones [NewHash] and [ParseHash] build. *)
Definition hash_wf (h : Hash) : Prop :=
  function h = "sha256" /\ hex_DecodeString_ok (hexContents h) = true.

(** Well-formed files: a newline-free mode, a contents hash and
    non-nil parents, all well-formed. *)
Definition file_wf (f : File) : Prop :=
  has_char nl (Mode f) = false /\
  (exists c, Contents f = Some c /\ hash_wf c) /\
  (exists ps, Parents f = map Some ps /\ Forall hash_wf ps).

(** [n] trailing blank lines. *)
Fixpoint blank_lines (n : nat) : string :=
  match n with
  | O => EmptyString
  | S n' => String nl (blank_lines n')
  end.

(* ------------------------------------------------------------------ *)
(** ** Identities *)

Record Identity := mkIdentity { algorithm : string; id_contents : string }.

(** [Identity.String] *)
Definition Identity_String (i : option Identity) : string :=
  match i with
  | None => ""
  | Some i => String.append (algorithm i) (String.append "::" (id_contents i))
  end.

(* ------------------------------------------------------------------ *)
(** ** The local archive ([storage.LocalFiles])

    The archive directory holds several sub-trees; each is a map here:
    - [objects]: [objects/] and [largeObjects/], by hash. Large objects
      are encrypted at rest but read back decrypted, so only the
      plaintext is kept;
    - [paths]: [paths/], the contents of each mapping file, by path;
    - [mapped]: the directories under [mappedPaths/];
    - [cache]: [cache/], the path-info tuple, by path;
    - [identities]: [identities/], the contents of each file, by
      identity string.
    The code places a path's mapping, cache entry and identity entry
    at the sha256 of the path (or identity) string; distinct paths get
    distinct files, so they are keyed by the path itself. *)

Definition Path := list string.

(** [filepath.Join(p, child)] for a single-segment child. *)
Definition Path_Join (p : Path) (child : string) : Path := (p ++ [child])%list.

#[global] Instance Hash_eq_dec : EqDecision Hash.
Proof. solve_decision. Defined.
#[global] Instance Hash_countable : Countable Hash.
Proof.
  apply (inj_countable' (fun h => (function h, hexContents h)) (fun x => mkHash x.1 x.2)).
  intros []; reflexivity.
Defined.

(** [cachedInfo] *)
Record CachedInfo := mkCachedInfo {
  ci_size : Z; ci_mode : string; ci_mtime : Z; ci_ino : N
}.

#[global] Instance CachedInfo_eq_dec : EqDecision CachedInfo.
Proof. solve_decision. Defined.

(** [os.FileInfo]: [fi_mode] is [info.Mode().String()], [fi_sys] is
    the inode of the [*syscall.Stat_t] behind [info.Sys()], if any. *)
Record FileInfo := mkFileInfo {
  fi_size : Z; fi_mode : string; fi_mtime : Z; fi_sys : option N
}.

Record Store := mkStore {
  objects : gmap Hash string;
  paths : gmap Path string;
  mapped : gset Path;
  cache : gmap Path CachedInfo;
  identities : gmap string string
}.

Definition set_objects (o : gmap Hash string) (st : Store) : Store :=
  mkStore o (paths st) (mapped st) (cache st) (identities st).
Definition set_paths (ps : gmap Path string) (st : Store) : Store :=
  mkStore (objects st) ps (mapped st) (cache st) (identities st).
Definition set_mapped (m : gset Path) (st : Store) : Store :=
  mkStore (objects st) (paths st) m (cache st) (identities st).
Definition set_cache (c : gmap Path CachedInfo) (st : Store) : Store :=
  mkStore (objects st) (paths st) (mapped st) c (identities st).
Definition set_identities (i : gmap string string) (st : Store) : Store :=
  mkStore (objects st) (paths st) (mapped st) (cache st) i.

(** The state and error monad of the store operations: errors are
    returned together with the state reached, as Go keeps the side
    effects made before an error. *)
Definition M (A : Type) := Store -> result A * Store.

Definition mret {A} (a : A) : M A := fun st => (Ok a, st).
Definition mfail {A} (e : error) : M A := fun st => (Err e, st).
Definition mbind {A B} (m : M A) (k : A -> M B) : M B :=
  fun st => match m st with
            | (Ok a, st') => k a st'
            | (Err e, st') => (Err e, st')
            end.
(** Run [m] and return its error as a value ([x, err := m()]). *)
Definition mtry {A} (m : M A) : M (result A) :=
  fun st => let (r, st') := m st in (Ok r, st').
Definition mmodify (f : Store -> Store) : M unit := fun st => (Ok tt, f st).
Definition mget {A} (f : Store -> A) : M A := fun st => (Ok (f st), st).
(** [fmt.Errorf("...: %w", err)]: [os.IsNotExist] does not see through it. *)
Definition mwrap {A} (msg : string) (m : M A) : M A :=
  fun st => match m st with
            | (Err _, st') => (Err (EOther msg), st')
            | r => r
            end.
Definition lift {A} (r : result A) : M A := fun st => (r, st).

Notation "'let*' x := m 'in' k" := (mbind m (fun x => k))
  (at level 200, x pattern, m at level 100, k at level 200).

(** The primitives the code takes from Go's libraries: the hex sha256
    digest ([crypto/sha256] with [%x]) and base64 without padding
    ([base64.RawStdEncoding]). *)
Record Prims := mkPrims {
  digest : string -> string;
  encodePath : string -> string;
  decodePath : string -> result string
}.

Definition rwrap {A} (msg : string) (r : result A) : result A :=
  match r with Err _ => Err (EOther msg) | Ok a => Ok a end.

(** Trees: [map[Path]*Hash] for the single-segment child names. *)
Definition Tree := gmap string (option Hash).

Fixpoint insert_sorted (x : string) (l : list string) : list string :=
  match l with
  | [] => [x]
  | y :: l' => if String.leb x y then x :: l else y :: insert_sorted x l'
  end.

(** [sort.Strings] *)
Definition sort_Strings (l : list string) : list string := fold_right insert_sorted [] l.

(** [strings.HasPrefix]-style path prefix test. *)
Fixpoint strip_prefix (p q : Path) : option Path :=
  match p, q with
  | [], _ => Some q
  | x :: p', y :: q' => if String.eqb x y then strip_prefix p' q' else None
  | _ :: _, [] => None
  end.

Definition is_prefix (p q : Path) : bool :=
  match strip_prefix p q with Some _ => true | None => false end.

(** All the directories [os.MkdirAll] creates for a path. *)
Fixpoint prefixes (p : Path) : list Path :=
  [] :: match p with
        | [] => []
        | x :: p' => map (cons x) (prefixes p')
        end.

(** [os.ReadDir(mappedPathsDir(p))]: the names of the mapped children. *)
Definition mapped_children (m : gset Path) (p : Path) : list string :=
  omap (fun q => match strip_prefix p q with Some [c] => Some c | _ => None end) (elements m).

(** A filesystem entry as [os.Lstat], [os.Readlink], [contents.Stat]
    and [ReadDir] see it: a regular file with its bytes, a symbolic link
    with its target, a directory with its named children. *)
#[warnings="-register-all"]
Inductive Entry :=
| ERegular (info : FileInfo) (data : string)
| ESymlink (info : FileInfo) (target : string)
| EDir (info : FileInfo) (children : list (string * Entry)).

Definition slash : ascii := "/"%char.

(** [strings.TrimPrefix] when [strings.HasPrefix] holds. *)
Fixpoint strip_string_prefix (pre s : string) : option string :=
  match pre, s with
  | EmptyString, _ => Some s
  | String a pre', String b s' => if Ascii.eqb a b then strip_string_prefix pre' s' else None
  | String _ _, EmptyString => None
  end.

(** [strings.Join(parts, "")] *)
Fixpoint concat_strings (ls : list string) : string :=
  match ls with
  | [] => EmptyString
  | l :: ls' => String.append l (concat_strings ls')
  end.

(** [bundlePathHash] *)
Definition bundlePathHash (path : string) : result (option Hash) :=
  match strip_string_prefix "objects" path with
  | None => Err (EOther "not an object path")
  | Some p =>
      match split_on slash p with
      | f :: c1 :: cs => ParseHash (String.append f (String colon (concat_strings (c1 :: cs))))
      | _ => Err (EOther "does not correspond to a valid hash")
      end
  end.

(** [bundleEntryPath] for a non-empty digest ([path.Join] of non-empty,
    slash-free elements). *)
Definition bundleEntryPath (h : Hash) : string :=
  let hx := hexContents h in
  let n := String.length hx in
  if (4 <? n)%nat then
    join_on slash ["objects"; function h; substring 0 2 hx; substring 2 2 hx; substring 4 (n - 4) hx]
  else if (2 <? n)%nat then
    join_on slash ["objects"; function h; substring 0 2 hx; substring 2 (n - 2) hx]
  else join_on slash ["objects"; function h; hx].

Section LocalFiles.
Variable P : Prims.
(** [LocalFiles.ArchiveDir] *)
Variable ArchiveDir : Path.

(** [snapshot.NewHash] *)
Definition NewHash (bs : string) : Hash := mkHash defaultHashFunction (digest P bs).

(** [Tree.String] *)
Definition Tree_String (t : Tree) : string :=
  join_on nl (sort_Strings
    (omap (fun ph => match ph.2 with
                     | Some _ => Some (String.append (encodePath P ph.1) (String space (Hash_String ph.2)))
                     | None => None
                     end) (map_to_list t))).

(** The loop of [ParseTree]. *)
Fixpoint parse_tree_lines (ls : list string) (t : Tree) : result Tree :=
  match ls with
  | [] => Ok t
  | l :: ls' =>
      if String.eqb l "" then parse_tree_lines ls' t else
      match split_first space l with
      | None => Err (EOther "malformed entry in encoded tree")
      | Some (enc, hs) =>
          let? p := rwrap "failure parsing encoded path" (decodePath P enc) in
          let? h := rwrap "failure parsing encoded hash" (ParseHash hs) in
          parse_tree_lines ls' (<[p := h]> t)
      end
  end.

(** [ParseTree] *)
Definition ParseTree (encoded : string) : result Tree :=
  parse_tree_lines (split_on nl encoded) ∅.

(** [LocalFiles.Exclude] *)
Definition Exclude (p : Path) : bool := bool_decide (p = ArchiveDir).

(** [LocalFiles.StoreObject]: the object lands under its hash. *)
Definition StoreObject (bs : string) : M (option Hash) :=
  let h := NewHash bs in
  let* _ := mmodify (fun st => set_objects (<[h := bs]> (objects st)) st) in
  mret (Some h).

(** [LocalFiles.ReadObject] followed by [io.ReadAll]; a missing object
    surfaces the raw [os.Open] error of the large-object lookup. *)
Definition ReadObject (h : option Hash) : M string :=
  match h with
  | None => mfail (EOther "there is no object associated with the nil hash")
  | Some h => fun st => match objects st !! h with
                        | Some bs => (Ok bs, st)
                        | None => (Err ENotExist, st)
                        end
  end.

(** [LocalFiles.ReadSnapshot] *)
Definition ReadSnapshot (h : option Hash) : M (option File) :=
  let* bs := mwrap "failure looking up the file snapshot" (ReadObject h) in
  lift (rwrap "failure parsing the file snapshot" (ParseFile bs)).

(** [LocalFiles.FindSnapshot]: a missing mapping file is the raw
    [os.ReadFile] error. *)
Definition FindSnapshot (p : Path) : M (option Hash * option File) :=
  fun st => match paths st !! p with
  | None => (Err ENotExist, st)
  | Some s => (let* h := lift (rwrap "failure parsing the hash" (ParseHash s)) in
               let* f := mwrap "failure reading the file snapshot" (ReadSnapshot h) in
               mret (h, f)) st
  end.

(** [LocalFiles.ListDirectorySnapshotContents] *)
Definition ListDirectorySnapshotContents (h : option Hash) (f : option File) : M Tree :=
  match f with
  | Some fl =>
      if negb (File_IsDir f) then mfail (EOther "not the snapshot of a directory") else
      let* contents := mwrap "failure opening the contents" (ReadObject (Contents fl)) in
      lift (rwrap "failure parsing the directory contents" (ParseTree contents))
  | None => mfail (EOther "not the snapshot of a directory")
  end.

(** [os.Remove] of a path's mapping file. *)
Definition remove_mapping_file (p : Path) : M unit :=
  fun st => match paths st !! p with
            | Some _ => (Ok tt, set_paths (delete p (paths st)) st)
            | None => (Err (EOther "failure removing the mapping"), st)
            end.

(** [LocalFiles.RemoveMappingForPath]. The recursion follows the stored
    trees; each nested call that recurses has removed one mapping file
    first, so [fuel] above the number of mapping files is never used up. *)
Fixpoint RemoveMappingForPath (fuel : nat) (p : Path) : M unit :=
  match fuel with
  | O => mret tt
  | S fuel' =>
    let* _ := mmodify (fun st => set_mapped (filter (fun q => is_prefix p q = false) (mapped st)) st) in
    let* r := mtry (FindSnapshot p) in
    match r with
    | Err ENotExist => mret tt
    | _ =>
      let hf := match r with Ok hf => hf | Err _ => (None, None) end in
      let* _ := remove_mapping_file p in
      if negb (File_IsDir hf.2) then mret tt else
      let* tree := mwrap "failure listing the contents" (ListDirectorySnapshotContents hf.1 hf.2) in
      (fix loop (cs : list string) : M unit :=
         match cs with
         | [] => mret tt
         | c :: cs' =>
             let* _ := mwrap "failure removing mapping for the child path"
                         (RemoveMappingForPath fuel' (Path_Join p c)) in
             loop cs'
         end) (map fst (map_to_list tree))
    end
  end.

(** The loop of [StoreSnapshot] over the mapped children of [p]. *)
Fixpoint remove_unlisted (p : Path) (currTree : option Tree) (cs : list string) : M unit :=
  match cs with
  | [] => mret tt
  | c :: cs' =>
      let listed := match currTree with Some t => bool_decide (is_Some (t !! c)) | None => false end in
      let* _ := (if listed then mret tt else
                 mwrap "failure removing path mapping for removed child"
                   (fun st => RemoveMappingForPath (S (size (paths st))) (Path_Join p c) st)) in
      remove_unlisted p currTree cs'
  end.

(** [LocalFiles.StoreSnapshot] *)
Definition StoreSnapshot (p : Path) (f : File) : M (option Hash) :=
  let* _ := mmodify (fun st => set_mapped (mapped st ∪ list_to_set (prefixes p)) st) in
  let* h := mwrap "failure saving file metadata" (StoreObject (File_String f)) in
  let* _ := mmodify (fun st => set_paths (<[p := Hash_String h]> (paths st)) st) in
  let* currTree := (if File_IsDir (Some f)
                    then let* t := mwrap "failure listing the contents of the new snapshot"
                                     (ListDirectorySnapshotContents h (Some f)) in
                         mret (Some t)
                    else mret None) in
  let* children := mget (fun st => mapped_children (mapped st) p) in
  let* _ := remove_unlisted p currTree children in
  mret h.

Definition cachedInfo_of (info : FileInfo) (ino : N) : CachedInfo :=
  mkCachedInfo (fi_size info) (fi_mode info) (fi_mtime info) ino.

(** [LocalFiles.CachePathInfo]. [os.Remove] of an existing entry
    returns a nil error, for which [!os.IsNotExist(err)] holds. *)
Definition CachePathInfo (p : Path) (info : FileInfo) : M unit :=
  match fi_sys info with
  | None => mret tt
  | Some ino =>
      fun st => match cache st !! p with
                | Some _ => (Err (EOther "failure removing the old cache entry"),
                             set_cache (delete p (cache st)) st)
                | None => (Ok tt, set_cache (<[p := cachedInfo_of info ino]> (cache st)) st)
                end
  end.

(** [LocalFiles.PathInfoMatchesCache] *)
Definition PathInfoMatchesCache (p : Path) (info : FileInfo) (st : Store) : bool :=
  match fi_sys info with
  | None => false
  | Some ino => match cache st !! p with
                | Some ci => bool_decide (ci = cachedInfo_of info ino)
                | None => false
                end
  end.

(** [LocalFiles.LatestSignatureForIdentity] *)
Definition LatestSignatureForIdentity (id : option Identity) : M (option Hash) :=
  fun st => match identities st !! Identity_String id with
            | None => (Ok None, st)
            | Some s => (rwrap "failure parsing the hash for identity" (ParseHash s), st)
            end.

(** [LocalFiles.UpdateSignatureForIdentity] *)
Definition UpdateSignatureForIdentity (id : option Identity) (h : option Hash) : M unit :=
  let key := Identity_String id in
  let* _ := (match h with
             | None => fun st => match identities st !! key with
                                 | Some _ => (Err (EOther "failure removing the identity entry"),
                                              set_identities (delete key (identities st)) st)
                                 | None => (Ok tt, st)
                                 end
             | Some _ => mret tt
             end) in
  mmodify (fun st => set_identities (<[key := Hash_String h]> (identities st)) st).

(* ------------------------------------------------------------------ *)
(** ** Snapshots of the filesystem ([snapshot.Current]) *)

(** [snapshotFileMetadata] *)
Definition snapshotFileMetadata (p : Path) (info : FileInfo) (contentsHash : option Hash)
    : M (option Hash * option File) :=
  let modeLine := fi_mode info in
  let* r := mtry (FindSnapshot p) in
  let* prevpair := (match r with
                    | Ok x => mret x
                    | Err ENotExist => mret (None, None)
                    | Err _ => mfail (EOther "failure looking up the previous file snapshot")
                    end) in
  let prevFileHash := prevpair.1 in
  let prev := prevpair.2 in
  if (match prev with
      | Some pf => String.eqb (Mode pf) modeLine && Hash_Equal (Contents pf) contentsHash
      | None => false
      end)
  then mret (prevFileHash, prev)
  else
    let f := mkFile modeLine contentsHash
               (match prev with Some _ => [prevFileHash] | None => [] end) in
    let* h := mwrap "failure saving the latest file metadata" (StoreSnapshot p f) in
    mret (h, Some f).

(** [readCached]: [None] is the [false] result. *)
Definition readCached (p : Path) (info : FileInfo) : M (option (option Hash * option File)) :=
  fun st => if PathInfoMatchesCache p info st then
              match FindSnapshot p st with
              | (Ok r, st') => (Ok (Some r), st')
              | (Err _, st') => (Ok None, st')
              end
            else (Ok None, st).

(** [Current] below a path that exists: [snapshotLink],
    [snapshotRegularFile] (its deferred [CachePathInfo], whose error is
    dropped, runs when the returned error is nil and the hash is not)
    and [snapshotDirectory] (the error of its [StoreObject] is
    dropped). A directory child goes through [Current], hence through
    [Exclude]. *)
Fixpoint current_entry (p : Path) (e : Entry) {struct e} : M (option Hash * option File) :=
  match e with
  | ESymlink info target =>
      let* h := mwrap "failure storing an object" (StoreObject target) in
      snapshotFileMetadata p info h
  | ERegular info data =>
      let* cached := readCached p info in
      match cached with
      | Some r => mret r
      | None =>
          let* h := mwrap "failure storing an object" (StoreObject data) in
          let* r := mtry (snapshotFileMetadata p info h) in
          let* _ := (match r with
                     | Ok (Some _, _) => let* _ := mtry (CachePathInfo p info) in mret tt
                     | _ => mret tt
                     end) in
          lift r
      end
  | EDir info children =>
      let* t := (fix loop (cs : list (string * Entry)) (t : Tree) : M Tree :=
                   match cs with
                   | [] => mret t
                   | (name, ce) :: cs' =>
                       let cp := Path_Join p name in
                       let* r := mwrap "failure hashing the child dir"
                                   (if Exclude cp then mret (None, None) else current_entry cp ce) in
                       loop cs' (match r.1 with Some ch => <[name := Some ch]> t | None => t end)
                   end) children ∅ in
      let* contentsHash := StoreObject (Tree_String t) in
      snapshotFileMetadata p info contentsHash
  end.

(** [Current]; [None] is a path that does not exist. *)
Definition Current (p : Path) (e : option Entry) : M (option Hash * option File) :=
  if Exclude p then mret (None, None) else
  match e with
  | None => mret (None, None)
  | Some e => current_entry p e
  end.

(* ------------------------------------------------------------------ *)
(** ** Bundles ([bundle.Import]) *)

(** [validateZipEntry]; an entry is its name and its bytes. *)
Definition validateZipEntry (ent : string * string) : result unit :=
  match bundlePathHash ent.1 with
  | Err _ => Ok tt
  | Ok h => if Hash_Equal (Some (NewHash ent.2)) h then Ok tt
            else Err (EOther "mismatched hash for entry")
  end.

(** The first loop of [Import]. *)
Fixpoint validate_entries (es : list (string * string)) : result unit :=
  match es with
  | [] => Ok tt
  | e :: es' =>
      let? _ := rwrap "failure validating the zip entry" (validateZipEntry e) in
      validate_entries es'
  end.

(** The second loop of [Import]. *)
Fixpoint import_entries (es : list (string * string)) (included : list (option Hash))
    : M (list (option Hash)) :=
  match es with
  | [] => mret included
  | (name, bs) :: es' =>
      match bundlePathHash name with
      | Err _ => import_entries es' included
      | Ok h =>
          let* r := mtry (ReadObject h) in
          match r with
          | Ok _ => import_entries es' included
          | Err _ =>
              let* h' := mwrap "failure importing the zip entry" (StoreObject bs) in
              import_entries es' (included ++ [h'])%list
          end
      end
  end.

(** [Import] of the bundle whose entries are [entries]. *)
Definition Import (entries : list (string * string)) (exclude : list (option Hash))
    : M (list (option Hash)) :=
  let* _ := lift (validate_entries entries) in
  import_entries entries [].

(* ------------------------------------------------------------------ *)
(** ** Logs *)

(** The inner loop of [archive.ReadLog] over [f.Parents]. *)
Fixpoint enqueue_unvisited (visited : gset Hash) (ps : list (option Hash))
    : result (list (option Hash)) :=
  match ps with
  | [] => Ok []
  | None :: _ => Err (EOther "panic: nil pointer dereference")
  | Some q :: ps' =>
      let? rest := enqueue_unvisited visited ps' in
      Ok (if decide (q ∈ visited) then rest else Some q :: rest)
  end.

(** The loop of [archive.ReadLog], [archive.Store.ReadSnapshot] reading
    the same objects as [ReadSnapshot]. [fuel] bounds the number of
    iterations; running out of it is an error. *)
Fixpoint archive_ReadLog_loop (fuel : nat) (visited : gset Hash) (queue : list (option Hash))
    (acc : list (option Hash * option File)) : M (list (option Hash * option File)) :=
  match queue with
  | [] => mret acc
  | h :: queue' =>
      match fuel with
      | O => mfail (EOther "out of fuel")
      | S fuel' =>
          let* f := mwrap "failure reading the snapshot" (ReadSnapshot h) in
          match h, f with
          | Some hh, Some fl =>
              let visited' := {[hh]} ∪ visited in
              let* more := lift (enqueue_unvisited visited' (Parents fl)) in
              archive_ReadLog_loop fuel' visited' (queue' ++ more)%list (acc ++ [(h, f)])%list
          | _, _ => mfail (EOther "panic: nil pointer dereference")
          end
      end
  end.

(** [archive.ReadLog] *)
Definition archive_ReadLog (fuel : nat) (h : option Hash) : M (list (option Hash * option File)) :=
  archive_ReadLog_loop fuel ∅ [h] [].

(** Modelled from the spec: [log.ReadLog(ctx, s, h, -1)], whose package
    is not in the sources. A breadth-first traversal from [h] through the
    parents, deduplicated by hash: the root first, then its parents in
    order, then their unseen parents; a snapshot that cannot be read is
    an error. Every hash the loop dequeues is read from a distinct
    object, so [S (size objects)] rounds always suffice. *)
Fixpoint log_ReadLog_loop (fuel : nat) (seen : gset Hash) (queue : list Hash) (acc : list Hash)
    : M (list Hash) :=
  match queue with
  | [] => mret acc
  | h :: queue' =>
      match fuel with
      | O => mfail (EOther "out of fuel")
      | S fuel' =>
          let* f := mwrap "failure reading the snapshot" (ReadSnapshot (Some h)) in
          let ps := match f with Some fl => omap id (Parents fl) | None => [] end in
          let fresh := remove_dups (filter (fun q => q ∉ seen) ps) in
          log_ReadLog_loop fuel' (list_to_set fresh ∪ seen) (queue' ++ fresh)%list (acc ++ [h])%list
      end
  end.

Definition log_ReadLog (h : Hash) : M (list Hash) :=
  fun st => log_ReadLog_loop (S (size (objects st))) {[h]} [h] [] st.

(** The lockstep walk of [merge.Base] over the two logs. *)
Fixpoint base_walk (lhsAncestors rhsAncestors : gset Hash) (lhsLog rhsLog : list Hash) : option Hash :=
  match lhsLog, rhsLog with
  | l :: lhsLog', r :: rhsLog' =>
      if decide (l ∈ rhsAncestors) then Some l
      else if decide (r ∈ lhsAncestors) then Some r
      else base_walk lhsAncestors rhsAncestors lhsLog' rhsLog'
  | _, _ => None
  end.

(** [merge.Base] *)
Definition Base (lhs rhs : option Hash) : M (option Hash) :=
  if Hash_Equal lhs rhs then mret lhs else
  match lhs, rhs with
  | Some l, Some r =>
      let* lhsLog := mwrap "failure reading the log" (log_ReadLog l) in
      let* rhsLog := mwrap "failure reading the log" (log_ReadLog r) in
      mret (base_walk (list_to_set lhsLog) (list_to_set rhsLog) lhsLog rhsLog)
  | _, _ => mret None
  end.

End LocalFiles.

(* ------------------------------------------------------------------ *)
(** ** An executable instance of the primitives

    For running the model on concrete inputs the digest is replaced by
    the hex encoding of the bytes, which like sha256 yields a
    lowercase hex string and, unlike it, is collision-free; base64 is
    replaced by the same hex encoding, whose output likewise holds no
    space and no newline. *)

Definition hex_digit (n : nat) : ascii :=
  ascii_of_nat (if (n <? 10)%nat then 48 + n else 87 + n)%nat.

Definition hex_byte (a : ascii) : string :=
  let n := nat_of_ascii a in
  String (hex_digit (n / 16)) (String (hex_digit (n mod 16)) EmptyString).

Fixpoint hex_encode (s : string) : string :=
  match s with
  | EmptyString => EmptyString
  | String a s' => String.append (hex_byte a) (hex_encode s')
  end.

Definition hex_val (c : ascii) : option nat :=
  let n := nat_of_ascii c in
  if ((48 <=? n) && (n <=? 57))%nat then Some (n - 48)%nat
  else if ((97 <=? n) && (n <=? 102))%nat then Some (n - 87)%nat
  else None.

Fixpoint hex_decode (s : string) : result string :=
  match s with
  | EmptyString => Ok EmptyString
  | String a (String b s') =>
      match hex_val a, hex_val b with
      | Some x, Some y => let? r := hex_decode s' in Ok (String (ascii_of_nat (16 * x + y)) r)
      | _, _ => Err (EOther "invalid byte")
      end
  | String _ EmptyString => Err (EOther "odd length hex string")
  end.

Definition hexPrims : Prims := mkPrims hex_encode hex_encode hex_decode.

(** The per-byte properties of the hex encoding, checked on each of
    the 256 bytes. *)
Definition hex_byte_check (a : ascii) : bool :=
  match hex_byte a with
  | String x (String y EmptyString) =>
      match hex_val x, hex_val y with
      | Some xv, Some yv =>
          Ascii.eqb (ascii_of_nat (16 * xv + yv)) a && is_hex_char x && is_hex_char y
          && negb (Ascii.eqb space x) && negb (Ascii.eqb space y)
          && negb (Ascii.eqb nl x) && negb (Ascii.eqb nl y)
      | _, _ => false
      end
  | _ => false
  end.

(** A diamond-shaped history: [r] has parents [a] and [b], which both
    have the parent [c]; every snapshot is stored under its hash. *)
Definition diamond_c : File := mkFile "-rw-r--r--" (Some (NewHash hexPrims "c")) [].
Definition diamond_hc : Hash := NewHash hexPrims (File_String diamond_c).
Definition diamond_a : File := mkFile "-rw-r--r--" (Some (NewHash hexPrims "a")) [Some diamond_hc].
Definition diamond_ha : Hash := NewHash hexPrims (File_String diamond_a).
Definition diamond_b : File := mkFile "-rw-r--r--" (Some (NewHash hexPrims "b")) [Some diamond_hc].
Definition diamond_hb : Hash := NewHash hexPrims (File_String diamond_b).
Definition diamond_r : File :=
  mkFile "-rw-r--r--" (Some (NewHash hexPrims "r")) [Some diamond_ha; Some diamond_hb].
Definition diamond_hr : Hash := NewHash hexPrims (File_String diamond_r).

Definition diamond_store : Store :=
  mkStore (list_to_map [(diamond_hc, File_String diamond_c); (diamond_ha, File_String diamond_a);
                        (diamond_hb, File_String diamond_b); (diamond_hr, File_String diamond_r)])
          ∅ ∅ ∅ ∅.

(** A directory [/tmp] holding a regular file, a symbolic link and the
    archive directory, snapshotted into an empty store. *)
Definition sample_dir : Entry :=
  EDir (mkFileInfo 4096 "drwxr-xr-x" 1700000000 (Some 2%N))
    [("f", ERegular (mkFileInfo 5 "-rw-r--r--" 1700000000 (Some 7%N)) "hello");
     ("l", ESymlink (mkFileInfo 1 "Lrwxrwxrwx" 1700000000 (Some 8%N)) "f");
     ("archive", EDir (mkFileInfo 4096 "drwxr-xr-x" 1700000000 (Some 9%N)) [])].

Definition empty_store : Store := mkStore ∅ ∅ ∅ ∅ ∅.

(** The hashes of a log. *)
Definition log_hashes (r : result (list (option Hash * option File))) : result (list (option Hash)) :=
  match r with Ok l => Ok (map fst l) | Err e => Err e end.

(** The parents of the snapshot stored under [c]; none when [c] is
    missing or does not parse to a File. *)
Definition stored_parents (st : Store) (c : Hash) : list Hash :=
  match objects st !! c with
  | Some bs => match ParseFile bs with Ok (Some f) => omap id (Parents f) | _ => [] end
  | None => []
  end.

(** [p] is a parent of [c] in the store; [rtc (parent_of st) x y] says
    that [y] lies on the parent chain of [x]. *)
Definition parent_of (st : Store) (c p : Hash) : Prop := p ∈ stored_parents st c.

(** A rank that drops along every parent link of a stored snapshot:
    the history is acyclic. *)
Definition ranked (st : Store) (rank : Hash -> nat) : Prop :=
  map_Forall (fun c _ => Forall (fun p => rank p < rank c)%nat (stored_parents st c)) (objects st).

(** A rank for the diamond history: the merge [r] above [a] and [b],
    which both sit above the root [c]. *)
Definition diamond_rank (h : Hash) : nat :=
  if decide (h = diamond_hr) then 2 else
  if decide (h = diamond_ha) then 1 else
  if decide (h = diamond_hb) then 1 else 0.

(** The log read from the store, or the empty list when reading fails. *)
Definition log_or_nil (h : Hash) (st : Store) : list Hash :=
  match fst (log_ReadLog h st) with Ok l => l | Err _ => [] end.

(* ------------------------------------------------------------------ *)
(** ** Snapshotting a path twice (C3) *)

(** The loop of [snapshotDirectory] over the children, with the
    recursive [Current] as a parameter; [current_entry] unfolds to it. *)
Section ChildrenLoop.
Variable current : Path -> Entry -> M (option Hash * option File).
Variables (AD p : Path).

Fixpoint children_loop (cs : list (string * Entry)) (t : Tree) : M Tree :=
  match cs with
  | [] => mret t
  | (name, ce) :: cs' =>
      let cp := Path_Join p name in
      let* r := mwrap "failure hashing the child dir"
                  (if Exclude AD cp then mret (None, None) else current cp ce) in
      children_loop cs' (match r.1 with Some ch => <[name := Some ch]> t | None => t end)
  end.
End ChildrenLoop.

(** [x] lies in the subtree rooted at [q]. *)
Definition under (q x : Path) : Prop := exists rest, x = (q ++ rest)%list.

(** The mapping file and the path-info cache entry of [x] are the same
    in both stores. *)
Definition agree_at (st st' : Store) (x : Path) : Prop :=
  paths st' !! x = paths st !! x /\ cache st' !! x = cache st !! x.

(** Every stored object lies under its own hash. *)
Definition consistent (P : Prims) (st : Store) : Prop :=
  map_Forall (fun k v => k = NewHash P v) (objects st).

(** What the code needs of the digest and of the path encoding: an
    injective digest written in hex digits, and a path encoding that
    decodes back and writes neither spaces nor newlines. *)
Definition prims_ok (P : Prims) : Prop :=
  (forall a b, digest P a = digest P b -> a = b) /\
  (forall a, hex_DecodeString_ok (digest P a) = true) /\
  (forall s, decodePath P (encodePath P s) = Ok s) /\
  (forall s, has_char space (encodePath P s) = false /\ has_char nl (encodePath P s) = false).

(** The trees [snapshotDirectory] builds: every child has a
    well-formed hash. *)
Definition tree_wf (t : Tree) : Prop :=
  map_Forall (fun _ v => exists h, v = Some h /\ hash_wf h) t.

(** Filesystem entries as [os.Lstat] reports them: newline-free mode
    strings, a mode starting with [d] exactly for directories, and
    distinct names in a directory listing. *)
Fixpoint entry_wf (e : Entry) : bool :=
  match e with
  | ERegular info _ | ESymlink info _ =>
      negb (has_char nl (fi_mode info)) && negb (String.prefix "d" (fi_mode info))
  | EDir info cs =>
      negb (has_char nl (fi_mode info)) && String.prefix "d" (fi_mode info) &&
      bool_decide (NoDup (map fst cs)) &&
      (fix loop (cs : list (string * Entry)) : bool :=
         match cs with [] => true | (_, ce) :: cs' => entry_wf ce && loop cs' end) cs
  end.

(** The test of [snapshotFileMetadata] for an unchanged file, on the
    previous snapshot [r]. *)
Definition meta_ok (r : option Hash * option File) (modeLine : string) (c : option Hash) : bool :=
  match r.2 with
  | Some pf => String.eqb (Mode pf) modeLine && Hash_Equal (Contents pf) c
  | None => false
  end.

(** The step of the children loop on the tree. *)
Definition tree_add (t : Tree) (name : string) (r : option Hash * option File) : Tree :=
  match r.1 with Some ch => <[name := Some ch]> t | None => t end.

(** The children of a directory, each settled ([S]) on its result,
    build the tree [t] from [t0]. *)
Fixpoint kids_settled (S : Path -> Entry -> option Hash * option File -> Prop) (AD p : Path)
    (cs : list (string * Entry)) (t0 t : Tree) : Prop :=
  match cs with
  | [] => t = t0
  | (name, ce) :: cs' =>
      if Exclude AD (Path_Join p name) then kids_settled S AD p cs' t0 t
      else exists rc, S (Path_Join p name) ce rc /\ kids_settled S AD p cs' (tree_add t0 name rc) t
  end.

(** A store in which [current p e] gives [r] back without storing a
    snapshot: the mapping of [p] reads [r], and either the path-info
    cache matches (regular files) or [r] passes the unchanged-file test
    for the contents hash [e] has now. *)
Fixpoint Settled (P : Prims) (AD : Path) (st : Store) (p : Path) (e : Entry)
    (r : option Hash * option File) {struct e} : Prop :=
  match e with
  | ERegular info data =>
      fst (FindSnapshot p st) = Ok r /\
      (PathInfoMatchesCache p info st = true \/
       meta_ok r (fi_mode info) (Some (NewHash P data)) = true)
  | ESymlink info target =>
      fst (FindSnapshot p st) = Ok r /\ meta_ok r (fi_mode info) (Some (NewHash P target)) = true
  | EDir info cs =>
      exists t, kids_settled (Settled P AD st) AD p cs ∅ t /\
      fst (FindSnapshot p st) = Ok r /\
      meta_ok r (fi_mode info) (Some (NewHash P (Tree_String P t))) = true
  end.

(** The mapping file of [x] and the whole cache are left alone. *)
Definition keeps_path (x : Path) (st st' : Store) : Prop :=
  paths st' !! x = paths st !! x /\ cache st' = cache st.

(** Mappings and mapped paths only go away; objects, the cache and the
    identities are left alone. *)
Definition shrinks (st st' : Store) : Prop :=
  paths st' ⊆ paths st /\ mapped st' ⊆ mapped st /\ objects st' = objects st /\
  cache st' = cache st /\ identities st' = identities st.

(* ------------------------------------------------------------------ *)
(** ** More of the snapshot package: permissions and identities *)

(** [File.IsLink] *)
Definition File_IsLink (f : option File) : bool :=
  match f with
  | Some f => String.prefix "L" (Mode f)
  | None => false
  end.

(** The loop of [File.Permissions] over [permStr]. Go's [range] decodes
    UTF-8, but a ['-'] byte is never part of a multi-byte sequence and
    an invalid byte decodes to one rune of width one, so [c == '-']
    holds at exactly the byte offsets [i] that hold ['-']. *)
Fixpoint perm_loop (i : nat) (s : string) (perm : N) : N :=
  match s with
  | EmptyString => perm
  | String c s' =>
      perm_loop (S i) s'
        (if Ascii.eqb c "-"%char then N.lxor perm (N.shiftl 1 (N.of_nat (8 - i))) else perm)
  end.

(** [File.Permissions]: [0700] for a nil file or a mode shorter than 9
    bytes, otherwise [fs.ModePerm] with a bit cleared for every ['-']
    among the last 9 bytes. *)
Definition File_Permissions (f : option File) : N :=
  match f with
  | None => 448
  | Some f =>
      let m := Mode f in
      if (String.length m <? 9)%nat then 448
      else perm_loop 0 (substring (String.length m - 9) 9 m) 511
  end.

(** [strings.SplitN(s, "::", 2)]: [None] when ["::"] does not occur. *)
Fixpoint split_first_dcolon (s : string) : option (string * string) :=
  match s with
  | EmptyString => None
  | String a s' =>
      match s' with
      | String b rest =>
          if Ascii.eqb a colon && Ascii.eqb b colon then Some (EmptyString, rest)
          else match split_first_dcolon s' with
               | Some (l, r) => Some (String a l, r)
               | None => None
               end
      | EmptyString => None
      end
  end.

(** [ParseIdentity] *)
Definition ParseIdentity (str : string) : result (option Identity) :=
  if String.eqb str "" then Ok None else
  match split_first_dcolon str with
  | None => Err (EOther "malformed identity string")
  | Some (alg, c) => Ok (Some (mkIdentity alg c))
  end.

(** [Identity.Equal] *)
Definition Identity_Equal (h other : option Identity) : bool :=
  match h, other with
  | None, None => true
  | Some a, Some b => String.eqb (algorithm a) (algorithm b)
                      && String.eqb (id_contents a) (id_contents b)
  | _, _ => false
  end.

(* ------------------------------------------------------------------ *)
(** ** Summaries of changes ([archive.describeChanged]) *)

Definition esc : ascii := Ascii.ascii_of_nat 27.

(** [deleteLine] and [insertLine]; [isTerminal] is the value of
    [term.IsTerminal(syscall.Stdout)]. A nil [*Hash] prints through its
    [String] method as the empty string. *)
Definition deleteLine (isTerminal : bool) (deletedPath : string) (deletedHash : option Hash) : string :=
  let coreText := ("  -" ++ deletedPath ++ "(" ++ Hash_String deletedHash ++ ")")%string in
  if isTerminal then (String esc "[31m" ++ coreText ++ String esc "[0m")%string else coreText.

Definition insertLine (isTerminal : bool) (insertedPath : string) (insertedHash : option Hash) : string :=
  let coreText := ("  +" ++ insertedPath ++ "(" ++ Hash_String insertedHash ++ ")")%string in
  if isTerminal then (String esc "[32m" ++ coreText ++ String esc "[0m")%string else coreText.

(** A Go map from names to [*Hash]: a missing key reads as nil. *)
Definition map_get (m : gmap string (option Hash)) (k : string) : option Hash :=
  match m !! k with Some v => v | None => None end.

Section DescribeChanged.
Variable isTerminal : bool.
Variables contents previousContents : gmap string (option Hash).

(** The inner [for] loop: drop the previous paths below [p]. *)
Fixpoint drop_before (p : string) (previousPaths changes : list string) : list string * list string :=
  match previousPaths with
  | d :: rest =>
      if String.ltb d p
      then drop_before p rest (changes ++ [deleteLine isTerminal d (map_get previousContents d)])%list
      else (previousPaths, changes)
  | [] => (previousPaths, changes)
  end.

(** The outer loop over [paths], then the trailing deletions. *)
Fixpoint describe_loop (paths previousPaths changes : list string) : list string :=
  match paths with
  | p :: paths' =>
      let h := map_get contents p in
      let (previousPaths, changes) := drop_before p previousPaths changes in
      let (previousHash, previousPaths) :=
        match previousPaths with
        | d :: rest => if String.eqb d p then (map_get previousContents p, rest)
                       else (None, previousPaths)
        | [] => (None, previousPaths)
        end in
      if Hash_Equal previousHash h then describe_loop paths' previousPaths changes
      else
        let changes := match previousHash with
                       | Some _ => (changes ++ [deleteLine isTerminal p previousHash])%list
                       | None => changes
                       end in
        describe_loop paths' previousPaths (changes ++ [insertLine isTerminal p h])%list
  | [] => (changes ++ map (fun d => deleteLine isTerminal d (map_get previousContents d)) previousPaths)%list
  end.

(** [describeChanged] *)
Definition describeChanged (paths previousPaths : list string) : list string :=
  describe_loop paths previousPaths [].
End DescribeChanged.

(* ------------------------------------------------------------------ *)
(** ** Bundles ([bundle.ZipWriter] and [bundle.Export]) *)

(** The state of a [ZipWriter]: its [visited], [exclude] and
    [recurseParents] fields, its [included] list, and the entries
    written so far to the nested [zip.Writer] (name and bytes, in
    order). The destination writer is taken to accept every write. *)
Record ZipWriter := mkZipWriter {
  zw_visited : gset Hash;
  zw_exclude : gset Hash;
  zw_recurseParents : bool;
  zw_included : list (option Hash);
  zw_entries : list (string * string)
}.

Definition zw_visit (hh : Hash) (w : ZipWriter) : ZipWriter :=
  mkZipWriter ({[hh]} ∪ zw_visited w) (zw_exclude w) (zw_recurseParents w) (zw_included w) (zw_entries w).

Definition zw_write (name bs : string) (h : option Hash) (w : ZipWriter) : ZipWriter :=
  mkZipWriter (zw_visited w) (zw_exclude w) (zw_recurseParents w)
    (zw_included w ++ [h])%list (zw_entries w ++ [(name, bs)])%list.

(** Computations on the writer; the store is only read. *)
Definition ZM (A : Type) := ZipWriter -> result A * ZipWriter.
Definition zret {A} (a : A) : ZM A := fun w => (Ok a, w).
Definition zfail {A} (e : error) : ZM A := fun w => (Err e, w).
Definition zbind {A B} (m : ZM A) (k : A -> ZM B) : ZM B :=
  fun w => match m w with
           | (Ok a, w') => k a w'
           | (Err e, w') => (Err e, w')
           end.
Definition zwrap {A} (msg : string) (m : ZM A) : ZM A :=
  fun w => match m w with
           | (Err _, w') => (Err (EOther msg), w')
           | r => r
           end.

Notation "'let+' x := m 'in' k" := (zbind m (fun x => k))
  (at level 200, x pattern, m at level 100, k at level 200).

(** Dereferencing a nil [*snapshot.Hash] or [*snapshot.File] panics;
    the panic is an error here. *)
Definition nil_dereference : error := EOther "nil pointer dereference".

(** [ZipWriter.AddObject] *)
Definition AddObject (st : Store) (h : option Hash) : ZM unit :=
  fun w => match h with
  | None => (Err nil_dereference, w)
  | Some hh =>
      if bool_decide (hh ∈ zw_exclude w) then (Ok tt, w) else
      if bool_decide (hh ∈ zw_visited w) then (Ok tt, w) else
      let w := zw_visit hh w in
      match fst (ReadObject (Some hh) st) with
      | Err _ => (Err (EOther "failure opening the contents of the object"), w)
      | Ok bs => (Ok tt, zw_write (bundleEntryPath hh) bs (Some hh) w)
      end
  end.

Section Bundle.
Variable P : Prims.
(** The values of a tree in the order [for _, childHash := range tree]
    visits them; Go leaves that order unspecified, and the properties
    below hold for every order. *)
Variable listing : Tree -> list (option Hash).

(** [ZipWriter.AddFile]. Its recursion follows the stored snapshots;
    [fuel] bounds its depth, and a run that uses it up fails. *)
Fixpoint AddFile (fuel : nat) (st : Store) (h : option Hash) (f : option File) : ZM unit :=
  match fuel with
  | O => zfail (EOther "recursion depth exhausted")
  | S fuel' =>
    let+ _ := zwrap "failure adding the snapshot to the bundle" (AddObject st h) in
    match f with
    | None => zfail nil_dereference
    | Some fl =>
      match Contents fl with
      | None => zret tt
      | Some _ =>
        let+ _ := zwrap "failure adding the contents of the snapshot to the bundle" (AddObject st (Contents fl)) in
        if negb (File_IsDir f) then zret tt else
        match fst (ListDirectorySnapshotContents P h f st) with
        | Err _ => zfail (EOther "failure reading the contents of the directory snapshot")
        | Ok tree =>
          let+ _ := (fix children (cs : list (option Hash)) : ZM unit :=
                       match cs with
                       | [] => zret tt
                       | None :: _ => zfail nil_dereference
                       | Some ch :: cs' =>
                           fun w =>
                             if bool_decide (ch ∈ zw_exclude w) then children cs' w else
                             if bool_decide (ch ∈ zw_visited w) then children cs' w else
                             match fst (ReadSnapshot (Some ch) st) with
                             | Err _ => (Err (EOther "failure reading the snapshot"), w)
                             | Ok child =>
                                 (let+ _ := zwrap "failure adding the child to the bundle"
                                              (AddFile fuel' st (Some ch) child) in
                                  children cs') w
                             end
                       end) (listing tree) in
          fun w =>
            if negb (zw_recurseParents w) then (Ok tt, w) else
            (fix parents (ps : list (option Hash)) : ZM unit :=
               match ps with
               | [] => zret tt
               | ph :: ps' =>
                   match fst (ReadSnapshot ph st) with
                   | Err _ => parents ps'
                   | Ok parent =>
                       let+ _ := zwrap "failure adding the parent to the bundle"
                                   (AddFile fuel' st ph parent) in
                       parents ps'
                   end
               end) (Parents fl) w
        end
      end
    end
  end.

(** The loop of [NewZipWriter] over [exclude]. *)
Fixpoint exclude_set (exclude : list (option Hash)) : result (gset Hash) :=
  match exclude with
  | [] => Ok ∅
  | None :: _ => Err nil_dereference
  | Some h :: ex' => let? s := exclude_set ex' in Ok ({[h]} ∪ s)
  end.

(** [NewZipWriter]. [metadata] lists the metadata entries in the order
    the map iteration takes, each with its entry name ([path.Join] of
    "metadata" and the key) and its bytes. *)
Definition NewZipWriter (exclude : list (option Hash)) (metadata : list (string * string))
    (recurseParents : bool) : result ZipWriter :=
  let? ex := exclude_set exclude in
  Ok (mkZipWriter ∅ ex recurseParents [] metadata).

(** The loop of [Export] over the snapshots. *)
Fixpoint export_loop (fuel : nat) (st : Store) (snapshots : list (option Hash)) (w : ZipWriter)
    : result ZipWriter :=
  match snapshots with
  | [] => Ok w
  | h :: hs =>
      match fst (ReadSnapshot h st) with
      | Err _ => Err (EOther "failure reading the snapshot")
      | Ok f =>
          match AddFile fuel st h f w with
          | (Err _, _) => Err (EOther "failure adding to the zip file")
          | (Ok _, w') => export_loop fuel st hs w'
          end
      end
  end.

(** [Export]: the included hashes, with the entries of the written
    bundle. *)
Definition Export (fuel : nat) (st : Store) (snapshots exclude : list (option Hash))
    (metadata : list (string * string)) (recurseParents : bool)
    : result (list (option Hash) * list (string * string)) :=
  let? w := NewZipWriter exclude metadata recurseParents in
  let? w := export_loop fuel st snapshots w in
  Ok (zw_included w, zw_entries w).
End Bundle.

(** A bundle entry for an included hash: the object under
    [bundleEntryPath], with its bytes from the store. *)
Definition entry_rel (st : Store) (h : option Hash) (e : string * string) : Prop :=
  exists hh bs, h = Some hh /\ objects st !! hh = Some bs /\ e = (bundleEntryPath hh, bs).

(** What a [ZipWriter] keeps along successful runs, over the entries
    [pre] written by [NewZipWriter]: no hash included twice, none
    excluded, the visited hashes exactly the included ones, and one
    object entry per included hash. *)
Definition zw_ok (st : Store) (pre : list (string * string)) (w : ZipWriter) : Prop :=
  NoDup (zw_included w) /\
  (forall h, h ∈ zw_included w -> exists hh, h = Some hh /\ hh ∉ zw_exclude w) /\
  (forall hh, hh ∈ zw_visited w <-> Some hh ∈ zw_included w) /\
  exists objs, zw_entries w = (pre ++ objs)%list /\ Forall2 (entry_rel st) (zw_included w) objs.

(** A successful step of a writer: the invariant holds afterwards, the
    configuration is unchanged and the included hashes only grow. *)
Definition zw_step (st : Store) (pre : list (string * string)) (w w' : ZipWriter) : Prop :=
  zw_ok st pre w' /\ zw_exclude w' = zw_exclude w /\
  zw_recurseParents w' = zw_recurseParents w /\
  (forall h, h ∈ zw_included w -> h ∈ zw_included w').

(* ================================================================== *)
(** * Lemmas on the string functions *)

Lemma append_empty_r s : String.append s EmptyString = s.
Proof. induction s as [|a s IH]; simpl; [reflexivity|]. rewrite IH. reflexivity. Qed.

Lemma split_on_nonempty c s : exists l ls, split_on c s = l :: ls.
Proof.
  induction s as [|a s IH]; simpl; [eauto|].
  destruct (Ascii.eqb a c); [eauto|].
  destruct IH as (l & ls & ->). eauto.
Qed.

Lemma split_on_app c s t :
  split_on c (String.append s (String c t)) = (split_on c s ++ split_on c t)%list.
Proof.
  induction s as [|a s IH]; simpl.
  - rewrite Ascii.eqb_refl. reflexivity.
  - rewrite IH. destruct (Ascii.eqb a c); [reflexivity|].
    destruct (split_on_nonempty c s) as (l & ls & ->). reflexivity.
Qed.

Lemma split_on_no_sep c s : has_char c s = false -> split_on c s = [s].
Proof.
  unfold has_char. induction s as [|a s IH]; simpl; [reflexivity|].
  intros H. apply orb_false_iff in H as [H1 H2].
  rewrite Ascii.eqb_sym, H1, IH by exact H2. reflexivity.
Qed.

Lemma split_on_join c x xs :
  has_char c x = false -> Forall (fun y => has_char c y = false) xs ->
  split_on c (join_on c (x :: xs)) = x :: xs.
Proof.
  revert x. induction xs as [|y ys IH]; intros x Hx Hxs.
  - simpl. apply split_on_no_sep, Hx.
  - inversion Hxs; subst.
    change (join_on c (x :: y :: ys)) with (String.append x (String c (join_on c (y :: ys)))).
    rewrite split_on_app, split_on_no_sep by exact Hx.
    rewrite IH by assumption. reflexivity.
Qed.

Lemma split_on_blank_lines n : split_on nl (blank_lines n) = repeat EmptyString (S n).
Proof.
  induction n as [|n IH]; [reflexivity|].
  change (blank_lines (S n)) with (String.append EmptyString (String nl (blank_lines n))).
  rewrite split_on_app, IH. reflexivity.
Qed.

Lemma split_on_app_blank_lines s n :
  split_on nl (String.append s (blank_lines n)) = (split_on nl s ++ repeat EmptyString n)%list.
Proof.
  destruct n as [|n].
  - rewrite append_empty_r, app_nil_r. reflexivity.
  - simpl. rewrite split_on_app, split_on_blank_lines. reflexivity.
Qed.

Lemma split_first_app c s t :
  has_char c s = false -> split_first c (String.append s (String c t)) = Some (s, t).
Proof.
  unfold has_char. induction s as [|a s IH]; simpl; intros H.
  - rewrite Ascii.eqb_refl. reflexivity.
  - apply orb_false_iff in H as [H1 H2].
    rewrite Ascii.eqb_sym, H1, IH by exact H2. reflexivity.
Qed.

Lemma hex_no_char c s :
  is_hex_char c = false -> hex_DecodeString_ok s = true -> has_char c s = false.
Proof.
  unfold hex_DecodeString_ok, has_char. intros Hc H.
  apply andb_true_iff in H as [_ H]. induction (list_ascii_of_string s) as [|a l IH]; simpl in *; [reflexivity|].
  apply andb_true_iff in H as [Ha Hl]. rewrite IH by exact Hl.
  destruct (Ascii.eqb_spec c a); [subst; congruence|reflexivity].
Qed.

(* ================================================================== *)
(** * Lemmas on hashes *)

Lemma ParseHash_String h : hash_wf h -> ParseHash (Hash_String (Some h)) = Ok (Some h).
Proof.
  destruct h as [fn hx]; unfold hash_wf; simpl; intros [-> Hhx].
  unfold ParseHash, Hash_String. cbn [function hexContents].
  rewrite (split_first_app colon "sha256" hx) by reflexivity.
  simpl. rewrite Hhx. reflexivity.
Qed.

Lemma Hash_String_no_nl h : hash_wf h -> has_char nl (Hash_String (Some h)) = false.
Proof.
  destruct h as [fn hx]; unfold hash_wf; simpl; intros [-> Hhx].
  unfold has_char in *. simpl.
  change (existsb (Ascii.eqb nl) (list_ascii_of_string hx) = false).
  apply (hex_no_char nl hx); [reflexivity|exact Hhx].
Qed.

Lemma ParseHash_empty : ParseHash "" = Ok None.
Proof. reflexivity. Qed.

Lemma parse_hash_lines_wf first ps n :
  Forall hash_wf ps ->
  parse_hash_lines first (map (fun h => Hash_String (Some h)) ps ++ repeat EmptyString n)%list
  = (if first && match ps with [] => true | _ => false end && (0 <? n)%nat
     then Err (EOther "missing contents for the encoded file") else Ok ps).
Proof.
  intros Hps. revert first. induction Hps as [|h ps Hh Hps IH]; intros first.
  - simpl. destruct n as [|n]; [destruct first; reflexivity|].
    destruct first; [reflexivity|]. simpl.
    induction n as [|n IHn]; [reflexivity|]. exact IHn.
  - cbn [map List.app parse_hash_lines].
    rewrite ParseHash_String by exact Hh. rewrite IH. simpl.
    rewrite andb_false_r. reflexivity.
Qed.

Lemma parent_lines_map_Some (ps : list Hash) :
  parent_lines (map Some ps) = map (fun h => Hash_String (Some h)) ps.
Proof. induction ps as [|p ps IH]; simpl; [reflexivity|]. rewrite IH. reflexivity. Qed.

Lemma join_on_cons_eq c m l ls :
  join_on c (m :: l :: ls) = String.append m (String c (join_on c (l :: ls))).
Proof. reflexivity. Qed.

Lemma join_on_nonempty c m r t :
  String.eqb (String.append (String.append m (String c r)) t) "" = false.
Proof. destruct m; reflexivity. Qed.

(* ================================================================== *)
(** * File encoding (claim C1) *)

(** C1, counterexample. A broken-link File (nil contents, no parents)
    serializes to ["Lrwxrwxrwx\n"], which [ParseFile] rejects with
    "missing contents": parsing the serialization does not give the
    File back. *)
Lemma C1_broken_link_not_roundtrip :
  ParseFile (File_String (mkFile "Lrwxrwxrwx" None []))
    = Err (EOther "missing contents for the encoded file") /\
  ParseFile (File_String (mkFile "Lrwxrwxrwx" None []))
    <> Ok (Some (mkFile "Lrwxrwxrwx" None [])).
Proof. split; [reflexivity | discriminate]. Qed.

Lemma File_String_parse_roundtrip (f : File) (n : nat) :
  file_wf f ->
  ParseFile (String.append (File_String f) (blank_lines n)) = Ok (Some f).
Proof.
  destruct f as [m c ps0]; intros (Hm & (c0 & Hc0 & Hc) & (ps & Hps0 & Hps)).
  simpl in Hm, Hc0, Hps0. subst c ps0.
  unfold File_String. cbn [Mode Contents Parents].
  rewrite parent_lines_map_Some.
  set (lines := Hash_String (Some c0) :: map (fun h => Hash_String (Some h)) ps).
  assert (Hlines : Forall (fun y => has_char nl y = false) lines).
  { subst lines. constructor; [apply Hash_String_no_nl, Hc|].
    apply Forall_map. eapply Forall_impl; [exact Hps|]. intros h Hh. apply Hash_String_no_nl, Hh. }
  unfold ParseFile.
  replace (join_on nl (m :: lines)) with (String.append m (String nl (join_on nl lines)))
    by (subst lines; reflexivity).
  rewrite join_on_nonempty.
  subst lines. rewrite <- join_on_cons_eq.
  rewrite split_on_app_blank_lines, split_on_join by assumption.
  cbn [List.app].
  pose proof (parse_hash_lines_wf true (c0 :: ps) n) as E.
  cbn [map List.app] in E. rewrite E by (constructor; assumption).
  reflexivity.
Qed.

Lemma split_on_join_empty_head c ls :
  exists rest, split_on c (join_on c (EmptyString :: ls)) = EmptyString :: rest.
Proof.
  destruct ls as [|l ls]; [eexists; reflexivity|].
  cbn [join_on String.append split_on]. rewrite Ascii.eqb_refl. eexists; reflexivity.
Qed.

(** A File with a newline-free mode and a nil contents hash (a broken
    link's) is written with an empty second line, which [ParseFile]
    rejects as missing contents, whatever the parents and the trailing
    blank lines. *)
Lemma File_String_nil_contents (f : File) (n : nat) :
  has_char nl (Mode f) = false -> Contents f = None ->
  ParseFile (String.append (File_String f) (blank_lines n))
    = Err (EOther "missing contents for the encoded file").
Proof.
  destruct f as [m c ps]; cbn [Mode Contents]; intros Hm ->.
  unfold ParseFile, File_String. cbn [Mode Contents Parents Hash_String].
  rewrite join_on_cons_eq, join_on_nonempty.
  rewrite split_on_app_blank_lines, split_on_app, (split_on_no_sep nl m Hm).
  destruct (split_on_join_empty_head nl (parent_lines ps)) as [rest ->].
  reflexivity.
Qed.

(** C1, amended. For every File with a newline-free mode, a non-nil
    well-formed contents hash and non-nil well-formed parents,
    parsing [File.String] followed by any number of trailing blank
    lines gives the same File back, so re-serializing it drops the
    blank lines. Every File with a newline-free mode and a nil contents
    hash, such as a broken link's, is instead written to a form
    [ParseFile] rejects with the missing-contents error, with or without
    trailing blank lines and whatever its parents. *)
Theorem ParseFile_File_String :
  (forall (f : File) (n : nat), file_wf f ->
     ParseFile (String.append (File_String f) (blank_lines n)) = Ok (Some f)) /\
  (forall (f : File) (n : nat), has_char nl (Mode f) = false -> Contents f = None ->
     ParseFile (String.append (File_String f) (blank_lines n))
       = Err (EOther "missing contents for the encoded file")).
Proof. split; [apply File_String_parse_roundtrip | apply File_String_nil_contents]. Qed.

(** C1, witness: a File with one parent survives the roundtrip with two
    trailing blank lines; a broken link with one parent is rejected,
    followed by one blank line. *)
Lemma C1_roundtrip_witness :
  file_wf (mkFile "-rw-r--r--" (Some (mkHash "sha256" "00ff")) [Some (mkHash "sha256" "abcd")]) /\
  ParseFile (String.append
    (File_String (mkFile "-rw-r--r--" (Some (mkHash "sha256" "00ff")) [Some (mkHash "sha256" "abcd")]))
    (blank_lines 2))
  = Ok (Some (mkFile "-rw-r--r--" (Some (mkHash "sha256" "00ff")) [Some (mkHash "sha256" "abcd")])) /\
  ParseFile (String.append
    (File_String (mkFile "Lrwxrwxrwx" None [Some (mkHash "sha256" "abcd")])) (blank_lines 1))
  = Err (EOther "missing contents for the encoded file").
Proof.
  assert (H : file_wf (mkFile "-rw-r--r--" (Some (mkHash "sha256" "00ff")) [Some (mkHash "sha256" "abcd")])).
  { split; [reflexivity|]. split.
    - exists (mkHash "sha256" "00ff"). split; [reflexivity|]. split; reflexivity.
    - exists [mkHash "sha256" "abcd"]. split; [reflexivity|].
      constructor; [split; reflexivity | constructor]. }
  split; [exact H|]. split.
  - apply (proj1 ParseFile_File_String _ 2 H).
  - apply (proj2 ParseFile_File_String _ 1); reflexivity.
Defined.

(* ------------------------------------------------------------------ *)
(** * Identities (C8) *)

(** C8. [UpdateSignatureForIdentity(id, nil)] removes an existing entry
    but then reports an error, as [os.Remove] returned nil and
    [!os.IsNotExist(nil)] holds; with no entry it writes an empty file
    and succeeds. Either way [LatestSignatureForIdentity] then returns
    nil without error. *)
Theorem UpdateSignatureForIdentity_nil (id : option Identity) (st : Store) :
  (forall v, identities st !! Identity_String id = Some v ->
     UpdateSignatureForIdentity id None st =
       (Err (EOther "failure removing the identity entry"),
        set_identities (delete (Identity_String id) (identities st)) st) /\
     LatestSignatureForIdentity id
       (set_identities (delete (Identity_String id) (identities st)) st)
       = (Ok None, set_identities (delete (Identity_String id) (identities st)) st)) /\
  (identities st !! Identity_String id = None ->
     UpdateSignatureForIdentity id None st =
       (Ok tt, set_identities (<[Identity_String id := ""]> (identities st)) st) /\
     LatestSignatureForIdentity id
       (set_identities (<[Identity_String id := ""]> (identities st)) st)
       = (Ok None, set_identities (<[Identity_String id := ""]> (identities st)) st)).
Proof.
  split.
  - intros v Hv. split.
    + unfold UpdateSignatureForIdentity, mbind. rewrite Hv. reflexivity.
    + unfold LatestSignatureForIdentity. cbn [set_identities identities].
      rewrite lookup_delete_eq. reflexivity.
  - intros Hn. split.
    + unfold UpdateSignatureForIdentity, mbind, mmodify. rewrite Hn. reflexivity.
    + unfold LatestSignatureForIdentity. cbn [set_identities identities].
      rewrite lookup_insert_eq. reflexivity.
Qed.

(** C8, witness: the nil identity, once with an entry and once without. *)
Lemma UpdateSignatureForIdentity_nil_witness :
  let st := mkStore ∅ ∅ ∅ ∅ {[ Identity_String None := "sha256:00" ]} in
  UpdateSignatureForIdentity None None st =
    (Err (EOther "failure removing the identity entry"),
     set_identities (delete (Identity_String None) (identities st)) st) /\
  UpdateSignatureForIdentity None None (set_identities ∅ st) =
    (Ok tt, set_identities (<[Identity_String None := ""]> ∅) (set_identities ∅ st)).
Proof.
  intros st. split.
  - apply (proj1 (UpdateSignatureForIdentity_nil None st) "sha256:00"). reflexivity.
  - apply (proj2 (UpdateSignatureForIdentity_nil None (set_identities ∅ st))). reflexivity.
Defined.

(* ------------------------------------------------------------------ *)
(** * The path-info cache (C9) *)

(** When [info] carries an inode and [p] already has a cache entry,
    [CachePathInfo] deletes the entry and returns an error without
    writing the new tuple ([os.Remove] returned nil, for which
    [!os.IsNotExist] holds), so [PathInfoMatchesCache] is then false. *)
Lemma CachePathInfo_existing_entry (p : Path) (info : FileInfo) (ino : N) (ci : CachedInfo)
    (st : Store) :
  fi_sys info = Some ino -> cache st !! p = Some ci ->
  CachePathInfo p info st =
    (Err (EOther "failure removing the old cache entry"), set_cache (delete p (cache st)) st) /\
  PathInfoMatchesCache p info (set_cache (delete p (cache st)) st) = false.
Proof.
  intros Hs Hc. unfold CachePathInfo, PathInfoMatchesCache. rewrite Hs, Hc.
  split; [reflexivity|]. cbn [set_cache cache]. rewrite lookup_delete_eq. reflexivity.
Qed.

(** C9, counterexample. A file-info value without a [*syscall.Stat_t]
    is not cached at all, so [cache_match] stays false; and re-caching
    unchanged info over an existing entry fails and leaves no entry. *)
Lemma C9_cache_put_counterexample :
  CachePathInfo ["tmp"; "f"] (mkFileInfo 5 "-rw-r--r--" 1700000000 None) (mkStore ∅ ∅ ∅ ∅ ∅)
    = (Ok tt, mkStore ∅ ∅ ∅ ∅ ∅) /\
  PathInfoMatchesCache ["tmp"; "f"] (mkFileInfo 5 "-rw-r--r--" 1700000000 None) (mkStore ∅ ∅ ∅ ∅ ∅)
    = false /\
  fst (CachePathInfo ["tmp"; "f"] (mkFileInfo 5 "-rw-r--r--" 1700000000 (Some 42%N))
        (mkStore ∅ ∅ ∅ {[ ["tmp"; "f"] := mkCachedInfo 5 "-rw-r--r--" 1700000000 42 ]} ∅))
    = Err (EOther "failure removing the old cache entry") /\
  PathInfoMatchesCache ["tmp"; "f"] (mkFileInfo 5 "-rw-r--r--" 1700000000 (Some 42%N))
    (snd (CachePathInfo ["tmp"; "f"] (mkFileInfo 5 "-rw-r--r--" 1700000000 (Some 42%N))
           (mkStore ∅ ∅ ∅ {[ ["tmp"; "f"] := mkCachedInfo 5 "-rw-r--r--" 1700000000 42 ]} ∅)))
    = false.
Proof.
  destruct (CachePathInfo_existing_entry ["tmp"; "f"] (mkFileInfo 5 "-rw-r--r--" 1700000000 (Some 42%N))
              42 (mkCachedInfo 5 "-rw-r--r--" 1700000000 42)
              (mkStore ∅ ∅ ∅ {[ ["tmp"; "f"] := mkCachedInfo 5 "-rw-r--r--" 1700000000 42 ]} ∅))
    as [E M]; [reflexivity | apply lookup_singleton_eq |].
  rewrite E. split; [reflexivity|]. split; [reflexivity|]. split; [reflexivity | exact M].
Qed.

(** C9, amended. For a file-info value carrying an inode and a path
    with no cache entry, [CachePathInfo] succeeds and writes the tuple
    (size, mode, mtime, inode), after which [PathInfoMatchesCache] with
    the same info is true; for a file-info value without an inode it
    succeeds and changes nothing. *)
Theorem CachePathInfo_writes_tuple (p : Path) (info : FileInfo) (st : Store) :
  (forall ino, fi_sys info = Some ino -> cache st !! p = None ->
     CachePathInfo p info st = (Ok tt, set_cache (<[p := cachedInfo_of info ino]> (cache st)) st) /\
     PathInfoMatchesCache p info (set_cache (<[p := cachedInfo_of info ino]> (cache st)) st) = true) /\
  (fi_sys info = None -> CachePathInfo p info st = (Ok tt, st)).
Proof.
  split.
  - intros ino Hs Hc. unfold CachePathInfo, PathInfoMatchesCache. rewrite Hs, Hc.
    split; [reflexivity|]. cbn [set_cache cache]. rewrite lookup_insert_eq.
    apply bool_decide_eq_true. reflexivity.
  - intros Hs. unfold CachePathInfo. rewrite Hs. reflexivity.
Qed.

(** C9, witness: caching a fresh path, and info without an inode. *)
Lemma CachePathInfo_writes_tuple_witness :
  let info := mkFileInfo 5 "-rw-r--r--" 1700000000 (Some 42%N) in
  let st := mkStore ∅ ∅ ∅ ∅ ∅ in
  PathInfoMatchesCache ["tmp"; "f"] info (set_cache (<[["tmp"; "f"] := cachedInfo_of info 42]> (cache st)) st)
    = true /\
  CachePathInfo ["tmp"; "f"] (mkFileInfo 5 "-rw-r--r--" 1700000000 None) st = (Ok tt, st).
Proof.
  intros info st. split.
  - apply (proj1 (CachePathInfo_writes_tuple ["tmp"; "f"] info st) 42%N); reflexivity.
  - apply (proj2 (CachePathInfo_writes_tuple ["tmp"; "f"] (mkFileInfo 5 "-rw-r--r--" 1700000000 None) st)).
    reflexivity.
Defined.

(* ------------------------------------------------------------------ *)
(** * Letter case of hashes (C10) *)

(** C10. [ParseHash] accepts upper-case hex digits and keeps them:
    [String] gives back each spelling, and [Equal] tells the upper-case
    and the lower-case spelling of the same digest apart. *)
Theorem ParseHash_keeps_case :
  ParseHash "sha256:E3B0C44298FC1C149AFBF4C8996FB92427AE41E4649B934CA495991B7852B855"
    = Ok (Some (mkHash "sha256" "E3B0C44298FC1C149AFBF4C8996FB92427AE41E4649B934CA495991B7852B855")) /\
  ParseHash "sha256:e3b0c44298fc1c149afbf4c8996fb92427ae41e4649b934ca495991b7852b855"
    = Ok (Some (mkHash "sha256" "e3b0c44298fc1c149afbf4c8996fb92427ae41e4649b934ca495991b7852b855")) /\
  Hash_String (Some (mkHash "sha256" "E3B0C44298FC1C149AFBF4C8996FB92427AE41E4649B934CA495991B7852B855"))
    = "sha256:E3B0C44298FC1C149AFBF4C8996FB92427AE41E4649B934CA495991B7852B855" /\
  Hash_String (Some (mkHash "sha256" "e3b0c44298fc1c149afbf4c8996fb92427ae41e4649b934ca495991b7852b855"))
    = "sha256:e3b0c44298fc1c149afbf4c8996fb92427ae41e4649b934ca495991b7852b855" /\
  Hash_Equal (Some (mkHash "sha256" "E3B0C44298FC1C149AFBF4C8996FB92427AE41E4649B934CA495991B7852B855"))
             (Some (mkHash "sha256" "e3b0c44298fc1c149afbf4c8996fb92427ae41e4649b934ca495991b7852b855"))
    = false.
Proof. vm_compute. repeat split. Qed.

(* ------------------------------------------------------------------ *)
(** * Bundles (C2, C6) *)

Lemma concat_strings_single s : concat_strings [s] = s.
Proof. apply append_empty_r. Qed.

Lemma strip_string_prefix_app pre s : strip_string_prefix pre (String.append pre s) = Some s.
Proof. induction pre as [|a pre IH]; simpl; [reflexivity|]. rewrite Ascii.eqb_refl. exact IH. Qed.

(** An entry named as [bundleEntryPath] names them ("objects/...") is
    not an object entry for [bundlePathHash]: the hash function it reads
    is the empty string before the first slash. *)
Lemma bundlePathHash_objects_slash rest :
  bundlePathHash (String.append "objects/" rest) = Err (EOther "unsupported hash function").
Proof.
  unfold bundlePathHash.
  change (String.append "objects/" rest) with (String.append "objects" (String slash rest)).
  rewrite strip_string_prefix_app.
  change (String slash rest) with (String.append EmptyString (String slash rest)).
  rewrite split_on_app.
  destruct (split_on_nonempty slash rest) as (l & ls & ->). reflexivity.
Qed.

Lemma bundlePathHash_objectssha256 hx :
  hex_DecodeString_ok hx = true ->
  bundlePathHash (String.append "objectssha256/" hx) = Ok (Some (mkHash "sha256" hx)).
Proof.
  intros Hhx. unfold bundlePathHash.
  change (String.append "objectssha256/" hx) with (String.append "objects" (String.append "sha256" (String slash hx))).
  rewrite strip_string_prefix_app, split_on_app, (split_on_no_sep slash hx) by (apply hex_no_char; [reflexivity | exact Hhx]).
  change (split_on slash "sha256") with ["sha256"]. cbn [List.app concat_strings]. rewrite append_empty_r.
  unfold ParseHash.
  rewrite (split_first_app colon "sha256" hx) by reflexivity.
  cbn. rewrite Hhx. reflexivity.
Qed.

Lemma validate_entries_objects_slash P (entries : list (string * string)) :
  Forall (fun e => exists rest, e.1 = String.append "objects/" rest) entries ->
  validate_entries P entries = Ok tt.
Proof.
  induction 1 as [|[n bs] es [rest Hn] _ IH]; [reflexivity|].
  cbn [fst] in Hn. subst n. cbn [validate_entries]. unfold validateZipEntry. cbn [fst].
  rewrite bundlePathHash_objects_slash. exact IH.
Qed.

Lemma import_entries_objects_slash P (entries : list (string * string)) included st :
  Forall (fun e => exists rest, e.1 = String.append "objects/" rest) entries ->
  import_entries P entries included st = (Ok included, st).
Proof.
  induction 1 as [|[n bs] es [rest Hn] _ IH]; [reflexivity|].
  cbn [fst] in Hn. subst n. cbn [import_entries]. rewrite bundlePathHash_objects_slash. exact IH.
Qed.

(** C2. Every entry named "objects/..." (the names [bundleEntryPath]
    gives to the objects of an exported bundle) is taken for a
    non-object entry: it is neither validated nor imported, so [Import]
    succeeds without storing anything, whatever the bytes of the
    entries, altered ones included. *)
Theorem Import_skips_objects_slash_entries (P : Prims) (entries : list (string * string))
    (exclude : list (option Hash)) (st : Store) :
  Forall (fun e => exists rest, e.1 = String.append "objects/" rest) entries ->
  Import P entries exclude st = (Ok [], st).
Proof.
  intros H. unfold Import, mbind, lift.
  rewrite validate_entries_objects_slash by exact H.
  apply import_entries_objects_slash, H.
Qed.

(** C2, witness: the exported entry of the object "hello" with its bytes
    altered to "tampered". *)
Lemma Import_skips_objects_slash_entries_witness :
  bundleEntryPath (NewHash hexPrims "hello") = "objects/sha256/68/65/6c6c6f" /\
  NewHash hexPrims "tampered" <> NewHash hexPrims "hello" /\
  Import hexPrims [(bundleEntryPath (NewHash hexPrims "hello"), "tampered")] [] diamond_store
    = (Ok [], diamond_store).
Proof.
  split; [vm_compute; reflexivity|]. split; [vm_compute; discriminate|].
  apply Import_skips_objects_slash_entries.
  constructor; [|constructor]. exists "sha256/68/65/6c6c6f". vm_compute. reflexivity.
Defined.

(** C6. [Import] never consults [exclude]: an object entry that
    [bundlePathHash] does parse (a name without the slash after
    "objects"), whose bytes match its name and which is absent from the
    store, is stored and reported even when its hash is excluded. *)
Theorem Import_stores_excluded_hash (P : Prims) (bs : string) (st : Store) :
  hex_DecodeString_ok (digest P bs) = true ->
  objects st !! NewHash P bs = None ->
  Import P [(String.append "objectssha256/" (digest P bs), bs)] [Some (NewHash P bs)] st =
    (Ok [Some (NewHash P bs)], set_objects (<[NewHash P bs := bs]> (objects st)) st).
Proof.
  intros Hhx Hnone. unfold Import, mbind, lift.
  cbn [validate_entries]. unfold validateZipEntry. cbn [fst snd].
  rewrite (bundlePathHash_objectssha256 _ Hhx).
  unfold NewHash at 1, Hash_Equal. cbn [function hexContents defaultHashFunction].
  rewrite !String.eqb_refl. cbn [andb rwrap rbind validate_entries].
  cbn [import_entries]. rewrite (bundlePathHash_objectssha256 _ Hhx).
  unfold mtry, ReadObject. change (mkHash "sha256" (digest P bs)) with (NewHash P bs).
  unfold mbind. cbv beta. rewrite Hnone. reflexivity.
Qed.

(** C6, witness: the object "a" on an empty store, with its hash excluded. *)
Lemma Import_stores_excluded_hash_witness :
  Import hexPrims [(String.append "objectssha256/" (digest hexPrims "a"), "a")]
         [Some (NewHash hexPrims "a")] (mkStore ∅ ∅ ∅ ∅ ∅) =
    (Ok [Some (NewHash hexPrims "a")],
     set_objects (<[NewHash hexPrims "a" := "a"]> ∅) (mkStore ∅ ∅ ∅ ∅ ∅)).
Proof. apply Import_stores_excluded_hash; vm_compute; reflexivity. Defined.

(* ------------------------------------------------------------------ *)
(** * The log of the archive package (C7) *)

(** One iteration of [archive.ReadLog] on a hash whose snapshot
    reads back. *)
Lemma archive_ReadLog_loop_step fuel visited h q acc st fl more :
  ReadSnapshot (Some h) st = (Ok (Some fl), st) ->
  enqueue_unvisited ({[h]} ∪ visited) (Parents fl) = Ok more ->
  archive_ReadLog_loop (S fuel) visited (Some h :: q) acc st =
    archive_ReadLog_loop fuel ({[h]} ∪ visited) (q ++ more) (acc ++ [(Some h, Some fl)]) st.
Proof.
  intros H1 H2. cbn [archive_ReadLog_loop]. unfold mbind, mwrap, lift. rewrite H1, H2. reflexivity.
Qed.

(** C7. On every diamond history (four distinct snapshots [r], [a],
    [b], [c]; [r] has the parents [a; b], [a] and [b] each have the
    parent [c], [c] has none), [archive.ReadLog] from [r] lists the
    common ancestor [c] twice: [visited] is only updated when a hash is
    dequeued, so both [a] and [b] enqueue [c]. *)
Theorem archive_ReadLog_diamond (st : Store) (hr ha hb hc : Hash) (fr fa fb fc : File) (fuel : nat) :
  NoDup [hr; ha; hb; hc] -> 5 <= fuel ->
  ReadSnapshot (Some hr) st = (Ok (Some fr), st) -> Parents fr = [Some ha; Some hb] ->
  ReadSnapshot (Some ha) st = (Ok (Some fa), st) -> Parents fa = [Some hc] ->
  ReadSnapshot (Some hb) st = (Ok (Some fb), st) -> Parents fb = [Some hc] ->
  ReadSnapshot (Some hc) st = (Ok (Some fc), st) -> Parents fc = [] ->
  log_hashes (fst (archive_ReadLog fuel (Some hr) st)) =
    Ok [Some hr; Some ha; Some hb; Some hc; Some hc] /\
  ~ NoDup [Some hr; Some ha; Some hb; Some hc; Some hc].
Proof.
  intros Hnd Hf Hr Pr Ha Pa Hb Pb Hc Pc.
  rewrite !NoDup_cons, !elem_of_cons, ?elem_of_nil in Hnd.
  destruct Hnd as (Nr & Na & Nb & _).
  split.
  - destruct fuel as [|[|[|[|[|n]]]]]; try lia. unfold archive_ReadLog.
    rewrite (archive_ReadLog_loop_step _ _ _ _ _ _ _ [Some ha; Some hb] Hr)
      by (rewrite Pr; cbn [enqueue_unvisited rbind];
          rewrite !decide_False by set_solver; reflexivity).
    cbn [List.app].
    rewrite (archive_ReadLog_loop_step _ _ _ _ _ _ _ [Some hc] Ha)
      by (rewrite Pa; cbn [enqueue_unvisited rbind];
          rewrite !decide_False by set_solver; reflexivity).
    cbn [List.app].
    rewrite (archive_ReadLog_loop_step _ _ _ _ _ _ _ [Some hc] Hb)
      by (rewrite Pb; cbn [enqueue_unvisited rbind];
          rewrite !decide_False by set_solver; reflexivity).
    cbn [List.app].
    rewrite (archive_ReadLog_loop_step _ _ _ _ _ _ _ [] Hc) by (rewrite Pc; reflexivity).
    cbn [List.app].
    rewrite (archive_ReadLog_loop_step _ _ _ _ _ _ _ [] Hc) by (rewrite Pc; reflexivity).
    destruct n; reflexivity.
  - intros Hd. rewrite !NoDup_cons, !elem_of_cons in Hd. tauto.
Qed.

(** C7, witness: the diamond of [diamond_store], read with ten
    iterations of fuel. *)
Lemma archive_ReadLog_diamond_witness :
  log_hashes (fst (archive_ReadLog 10 (Some diamond_hr) diamond_store)) =
    Ok [Some diamond_hr; Some diamond_ha; Some diamond_hb; Some diamond_hc; Some diamond_hc] /\
  ~ NoDup [Some diamond_hr; Some diamond_ha; Some diamond_hb; Some diamond_hc; Some diamond_hc].
Proof.
  apply (archive_ReadLog_diamond diamond_store diamond_hr diamond_ha diamond_hb diamond_hc
           diamond_r diamond_a diamond_b diamond_c 10);
    try reflexivity; try lia; try (vm_compute; reflexivity).
  repeat constructor; vm_compute; intros H; repeat (inversion H; subst; clear H; try rename H2 into H).
Defined.

(* ------------------------------------------------------------------ *)
(** * What the store operations leave unchanged *)

Section Preserves.
Context (R : relation Store) `{!PreOrder R}.

(** [m] only moves the store along [R]. *)
Definition preserves {A} (m : M A) : Prop := forall st, R st (snd (m st)).

Lemma preserves_ret {A} (a : A) : preserves (mret a).
Proof. intros st. simpl. reflexivity. Qed.

Lemma preserves_fail {A} e : preserves (A:=A) (mfail e).
Proof. intros st. simpl. reflexivity. Qed.

Lemma preserves_lift {A} (r : result A) : preserves (lift r).
Proof. intros st. simpl. reflexivity. Qed.

Lemma preserves_get {A} (f : Store -> A) : preserves (mget f).
Proof. intros st. simpl. reflexivity. Qed.

Lemma preserves_modify f : (forall st, R st (f st)) -> preserves (mmodify f).
Proof. intros Hf st. apply Hf. Qed.

Lemma preserves_bind {A B} (m : M A) (k : A -> M B) :
  preserves m -> (forall a, preserves (k a)) -> preserves (mbind m k).
Proof.
  intros Hm Hk st. unfold mbind. specialize (Hm st).
  destruct (m st) as [[a|e] st'] eqn:E; simpl in *; [|exact Hm].
  etrans; [exact Hm | apply Hk].
Qed.

Lemma preserves_try {A} (m : M A) : preserves m -> preserves (mtry m).
Proof. intros Hm st. unfold mtry. specialize (Hm st). destruct (m st). exact Hm. Qed.

Lemma preserves_wrap {A} msg (m : M A) : preserves m -> preserves (mwrap msg m).
Proof. intros Hm st. unfold mwrap. specialize (Hm st). destruct (m st) as [[]]; exact Hm. Qed.

End Preserves.

Create HintDb preserves.
#[global] Hint Resolve preserves_ret preserves_fail preserves_lift preserves_get
  preserves_bind preserves_try preserves_wrap : preserves.

Lemma preserves_eq {A} R `{!PreOrder R} (m : M A) : preserves eq m -> preserves R m.
Proof. intros H st. rewrite <- (H st). reflexivity. Qed.

Lemma ReadObject_pure h : preserves eq (ReadObject h).
Proof. intros st. destruct h as [h|]; simpl; [destruct (objects st !! h)|]; reflexivity. Qed.

Lemma ReadSnapshot_pure h : preserves eq (ReadSnapshot h).
Proof. unfold ReadSnapshot. eauto using ReadObject_pure with preserves typeclass_instances. Qed.

Lemma FindSnapshot_pure p : preserves eq (FindSnapshot p).
Proof.
  intros st. unfold FindSnapshot. destruct (paths st !! p); [|reflexivity].
  eapply preserves_bind; eauto using ReadSnapshot_pure with preserves typeclass_instances.
Qed.

Lemma ListDirectorySnapshotContents_pure P h f : preserves eq (ListDirectorySnapshotContents P h f).
Proof.
  unfold ListDirectorySnapshotContents. destruct f as [fl|]; [|auto with preserves typeclass_instances].
  destruct (negb (File_IsDir (Some fl))); eauto using ReadObject_pure with preserves typeclass_instances.
Qed.

Lemma FindSnapshot_state p st : snd (FindSnapshot p st) = st.
Proof. symmetry. apply FindSnapshot_pure. Qed.

(** The objects are left alone by everything but [StoreObject]. *)
Definition same_objects (s s' : Store) : Prop := objects s' = objects s.

#[global] Instance same_objects_preorder : PreOrder same_objects.
Proof. split; [intros s; reflexivity | intros s1 s2 s3 H1 H2; unfold same_objects in *; congruence]. Qed.

Lemma remove_mapping_file_objects p : preserves same_objects (remove_mapping_file p).
Proof. intros st. unfold remove_mapping_file. destruct (paths st !! p); reflexivity. Qed.

Lemma RemoveMappingForPath_objects P fuel p : preserves same_objects (RemoveMappingForPath P fuel p).
Proof.
  revert p. induction fuel as [|fuel IH]; intros p; simpl; [auto with preserves typeclass_instances|].
  apply (preserves_bind same_objects); [apply preserves_modify; intros st; reflexivity|]. intros _.
  apply (preserves_bind same_objects); [apply preserves_try, preserves_eq, FindSnapshot_pure; typeclasses eauto|].
  intros r.
  assert (Hrest : preserves same_objects
    (let hf := match r with Ok hf => hf | Err _ => (None, None) end in
     let* _ := remove_mapping_file p in
     if negb (File_IsDir hf.2) then mret tt else
     let* tree := mwrap "failure listing the contents" (ListDirectorySnapshotContents P hf.1 hf.2) in
     (fix loop (cs : list string) : M unit :=
        match cs with
        | [] => mret tt
        | c :: cs' =>
            let* _ := mwrap "failure removing mapping for the child path"
                        (RemoveMappingForPath P fuel (Path_Join p c)) in
            loop cs'
        end) (map fst (map_to_list tree)))).
  { apply (preserves_bind same_objects); [apply remove_mapping_file_objects|]. intros _.
    destruct (negb _); [auto with preserves typeclass_instances|].
    apply (preserves_bind same_objects);
      [apply preserves_wrap, preserves_eq, ListDirectorySnapshotContents_pure; typeclasses eauto|].
    intros tree. induction (map fst (map_to_list tree)) as [|c cs IHcs];
      [auto with preserves typeclass_instances|].
    apply (preserves_bind same_objects); [apply preserves_wrap, IH|]. intros _. exact IHcs. }
  destruct r as [hf|[|msg]]; [exact Hrest | auto with preserves typeclass_instances | exact Hrest].
Qed.

#[global] Instance shrinks_preorder : PreOrder shrinks.
Proof.
  split; [intros s; repeat split; reflexivity|].
  intros s1 s2 s3 (P1 & M1 & O1 & C1 & I1) (P2 & M2 & O2 & C2 & I2).
  repeat split; [etrans; eassumption | etrans; eassumption | congruence | congruence | congruence].
Qed.

Lemma remove_mapping_file_shrinks p : preserves shrinks (remove_mapping_file p).
Proof.
  intros st. unfold remove_mapping_file. destruct (paths st !! p); [|reflexivity].
  repeat split; try reflexivity. cbn [snd set_paths paths]. apply delete_subseteq.
Qed.

Lemma RemoveMappingForPath_shrinks P fuel p : preserves shrinks (RemoveMappingForPath P fuel p).
Proof.
  revert p. induction fuel as [|fuel IH]; intros p; simpl; [auto with preserves typeclass_instances|].
  apply (preserves_bind shrinks).
  { apply preserves_modify. intros st. repeat split; try reflexivity. cbn [set_mapped mapped].
    intros q. rewrite elem_of_filter. tauto. }
  intros _.
  apply (preserves_bind shrinks); [apply preserves_try, preserves_eq, FindSnapshot_pure; typeclasses eauto|].
  intros r. destruct r as [hf|[|msg]]; [| auto with preserves typeclass_instances |];
  (apply (preserves_bind shrinks); [apply remove_mapping_file_shrinks|]; intros _;
   destruct (negb _); [auto with preserves typeclass_instances|];
   apply (preserves_bind shrinks);
     [apply preserves_wrap, preserves_eq, ListDirectorySnapshotContents_pure; typeclasses eauto|];
   intros tree; induction (map fst (map_to_list tree)) as [|c cs IHcs];
     [auto with preserves typeclass_instances|];
   apply (preserves_bind shrinks); [apply preserves_wrap, IH|]; intros _; exact IHcs).
Qed.

Lemma remove_unlisted_objects P p currTree cs : preserves same_objects (remove_unlisted P p currTree cs).
Proof.
  induction cs as [|c cs IH]; simpl; [auto with preserves typeclass_instances|].
  apply (preserves_bind same_objects); [|intros _; exact IH].
  repeat case_match; try (apply preserves_ret; typeclasses eauto);
    apply preserves_wrap; intros st;
    exact (RemoveMappingForPath_objects P (S (size (paths st))) (Path_Join p c) st).
Qed.

Lemma preserves_run R {A} (m : M A) st r st' : preserves R m -> m st = (r, st') -> R st st'.
Proof. intros H E. specialize (H st). rewrite E in H. exact H. Qed.

Lemma mbind_Ok {A B} (m : M A) (k : A -> M B) st b st' :
  mbind m k st = (Ok b, st') -> exists a st1, m st = (Ok a, st1) /\ k a st1 = (Ok b, st').
Proof. unfold mbind. destruct (m st) as [[a|e] st1]; [eauto | discriminate]. Qed.

Ltac inv_bind H := apply mbind_Ok in H as (? & ? & ? & H).

Lemma mwrap_Ok {A} msg (m : M A) st a st' : mwrap msg m st = (Ok a, st') -> m st = (Ok a, st').
Proof. unfold mwrap. destruct (m st) as [[]]; congruence. Qed.

Lemma StoreObject_run P bs st r st' :
  StoreObject P bs st = (r, st') ->
  r = Ok (Some (NewHash P bs)) /\ st' = set_objects (<[NewHash P bs := bs]> (objects st)) st.
Proof. unfold StoreObject, mbind, mmodify, mret. intros [= <- <-]. auto. Qed.

Lemma StoreSnapshot_ok P p f st h st' :
  StoreSnapshot P p f st = (Ok h, st') ->
  h = Some (NewHash P (File_String f)) /\
  objects st' !! NewHash P (File_String f) = Some (File_String f).
Proof.
  unfold StoreSnapshot. intros H.
  apply mbind_Ok in H as (u1 & s1 & H1 & H). injection H1 as _ E1.
  apply mbind_Ok in H as (h0 & s2 & H2 & H).
  apply mwrap_Ok, StoreObject_run in H2 as [[= <-] E2].
  apply mbind_Ok in H as (u3 & s3 & H3 & H). injection H3 as _ E3.
  apply mbind_Ok in H as (ct & s4 & H4 & H).
  assert (O4 : same_objects s3 s4).
  { eapply preserves_run; [|exact H4].
    destruct (File_IsDir (Some f)); [|apply preserves_ret; typeclasses eauto].
    apply (preserves_bind same_objects);
      [apply preserves_wrap, preserves_eq, ListDirectorySnapshotContents_pure; typeclasses eauto|].
    intros t. apply preserves_ret; typeclasses eauto. }
  apply mbind_Ok in H as (cs & s5 & H5 & H). injection H5 as _ E5.
  apply mbind_Ok in H as (u6 & s6 & H6 & H).
  apply (preserves_run _ _ _ _ _ (remove_unlisted_objects P p ct cs)) in H6.
  injection H as <- <-. split; [reflexivity|].
  unfold same_objects in O4, H6. rewrite H6, <- E5, O4, <- E3, E2. cbn [set_paths set_objects objects].
  apply lookup_insert_eq.
Qed.

(** The previous snapshot a successful [FindSnapshot] reads has a
    hash. *)
Lemma FindSnapshot_Ok_hash p st h f :
  fst (FindSnapshot p st) = Ok (h, f) -> exists hh, h = Some hh /\ hash_wf hh.
Proof.
  unfold FindSnapshot. destruct (paths st !! p) as [s|]; [|discriminate].
  unfold mbind, lift, rwrap at 1.
  destruct (ParseHash s) as [[hh|]|e] eqn:Ep; [|simpl; discriminate..].
  intros Hr. destruct (mwrap _ (ReadSnapshot (Some hh)) st) as [[fl|] st1]; [|discriminate].
  simpl in Hr. injection Hr as <- _. exists hh. split; [reflexivity|].
  unfold ParseHash in Ep. destruct (String.eqb s ""); [discriminate|].
  destruct (split_first colon s) as [[fn hx]|]; [|discriminate].
  destruct (supportedHashFunction fn) eqn:Ef; [|discriminate].
  destruct (hex_DecodeString_ok hx) eqn:Eh; [|discriminate].
  injection Ep as <-. split; [apply String.eqb_eq, Ef | exact Eh].
Qed.

(** C4, counterexample. A regular file is snapshotted, then its bytes
    change while its size, mode, modification time and inode stay
    those of the cache entry: [current] takes the cache fast path and
    returns the previous snapshot, whose contents are the old bytes,
    instead of a new File with the previous hash as parent. *)
Lemma C4_cache_hides_change :
  let info := mkFileInfo 5 "-rw-r--r--" 1700000000 (Some 7%N) in
  let st1 := snd (Current hexPrims ["archive"] ["tmp"; "F"] (Some (ERegular info "Hello"))
                    (mkStore ∅ ∅ ∅ ∅ ∅)) in
  fst (Current hexPrims ["archive"] ["tmp"; "F"] (Some (ERegular info "Hello")) (mkStore ∅ ∅ ∅ ∅ ∅))
    = Ok (Some (NewHash hexPrims (File_String (mkFile "-rw-r--r--" (Some (NewHash hexPrims "Hello")) []))),
          Some (mkFile "-rw-r--r--" (Some (NewHash hexPrims "Hello")) [])) /\
  fst (Current hexPrims ["archive"] ["tmp"; "F"] (Some (ERegular info "Jello")) st1)
    = Ok (Some (NewHash hexPrims (File_String (mkFile "-rw-r--r--" (Some (NewHash hexPrims "Hello")) []))),
          Some (mkFile "-rw-r--r--" (Some (NewHash hexPrims "Hello")) [])) /\
  NewHash hexPrims "Jello" <> NewHash hexPrims "Hello".
Proof. vm_compute. split; [reflexivity|]. split; [reflexivity | discriminate]. Qed.

(** The metadata step of [current]: parents [[h_prev]] after a previous
    snapshot that differs, none without a mapping. *)
Lemma snapshotFileMetadata_prev_parents (P : Prims) (p : Path) (info : FileInfo) (ch : option Hash)
    (st : Store) (r : option Hash * option File) (st' : Store) :
  snapshotFileMetadata P p info ch st = (Ok r, st') ->
  (forall hprev prev, fst (FindSnapshot p st) = Ok (hprev, Some prev) ->
     (Mode prev <> fi_mode info \/ Hash_Equal (Contents prev) ch = false) ->
     r = (Some (NewHash P (File_String (mkFile (fi_mode info) ch [hprev]))),
          Some (mkFile (fi_mode info) ch [hprev])) /\
     objects st' !! NewHash P (File_String (mkFile (fi_mode info) ch [hprev]))
       = Some (File_String (mkFile (fi_mode info) ch [hprev]))) /\
  (paths st !! p = None ->
     r = (Some (NewHash P (File_String (mkFile (fi_mode info) ch []))),
          Some (mkFile (fi_mode info) ch [])) /\
     objects st' !! NewHash P (File_String (mkFile (fi_mode info) ch []))
       = Some (File_String (mkFile (fi_mode info) ch []))).
Proof.
  unfold snapshotFileMetadata. intros H.
  inv_bind H. unfold mtry in H0.
  pose proof (FindSnapshot_state p st) as Hst.
  destruct (FindSnapshot p st) as [rf st1] eqn:Ef. simpl in Hst. subst st1.
  injection H0 as <- <-. split.
  - intros hprev prev Hf Hd. simpl in Hf. subst rf.
    inv_bind H. injection H0 as <- <-. cbn [fst snd] in H.
    assert (Hc : (String.eqb (Mode prev) (fi_mode info) && Hash_Equal (Contents prev) ch) = false).
    { destruct Hd as [Hd|Hd]; [|rewrite Hd; apply andb_false_r].
      apply String.eqb_neq in Hd. rewrite Hd. reflexivity. }
    rewrite Hc in H. inv_bind H. apply mwrap_Ok, StoreSnapshot_ok in H0 as [-> Ho].
    injection H as <- <-. auto.
  - intros Hn. unfold FindSnapshot in Ef. rewrite Hn in Ef. injection Ef as <-.
    inv_bind H. injection H0 as <- <-. cbn [fst snd] in H.
    inv_bind H. apply mwrap_Ok, StoreSnapshot_ok in H0 as [-> Ho].
    injection H as <- <-. auto.
Qed.

(** The fast path of [snapshotRegularFile]: when the path-info matches
    the cache entry and the mapped snapshot reads back, [Current]
    returns that snapshot and leaves the store as it is, whatever the
    bytes of the file. *)
Lemma Current_cache_hit P AD p info data st r :
  Exclude AD p = false -> PathInfoMatchesCache p info st = true -> fst (FindSnapshot p st) = Ok r ->
  Current P AD p (Some (ERegular info data)) st = (Ok r, st).
Proof.
  intros He Hm Hf. unfold Current. rewrite He. cbn [current_entry].
  unfold mbind at 1, readCached. rewrite Hm.
  pose proof (FindSnapshot_state p st) as Hs.
  destruct (FindSnapshot p st) as [rf st1]. simpl in Hf, Hs. subst. reflexivity.
Qed.

(** C4, amended. When [current] reaches the metadata step (a symbolic
    link, a directory, or a regular file that misses the path-info
    cache) and the step succeeds: if [p] maps to a previous snapshot
    [h_prev] whose mode or contents differ, the File stored and returned
    has the parents [[h_prev]]; if [p] has no mapping, it has no
    parents. A regular file that is not excluded, whose size, mode,
    modification time and inode match its cache entry, and whose
    previous snapshot reads back, is served from the cache: [current]
    returns the previous snapshot and changes nothing, whatever the
    bytes of the file, so a change of its bytes is not recorded. *)
Theorem snapshotFileMetadata_parents :
  (forall (P : Prims) (p : Path) (info : FileInfo) (ch : option Hash)
          (st : Store) (r : option Hash * option File) (st' : Store),
    snapshotFileMetadata P p info ch st = (Ok r, st') ->
    (forall hprev prev, fst (FindSnapshot p st) = Ok (hprev, Some prev) ->
       (Mode prev <> fi_mode info \/ Hash_Equal (Contents prev) ch = false) ->
       r = (Some (NewHash P (File_String (mkFile (fi_mode info) ch [hprev]))),
            Some (mkFile (fi_mode info) ch [hprev])) /\
       objects st' !! NewHash P (File_String (mkFile (fi_mode info) ch [hprev]))
         = Some (File_String (mkFile (fi_mode info) ch [hprev]))) /\
    (paths st !! p = None ->
       r = (Some (NewHash P (File_String (mkFile (fi_mode info) ch []))),
            Some (mkFile (fi_mode info) ch [])) /\
       objects st' !! NewHash P (File_String (mkFile (fi_mode info) ch []))
         = Some (File_String (mkFile (fi_mode info) ch [])))) /\
  (forall (P : Prims) (AD p : Path) (info : FileInfo) (data : string) (st : Store)
          (r : option Hash * option File),
    Exclude AD p = false -> PathInfoMatchesCache p info st = true ->
    fst (FindSnapshot p st) = Ok r ->
    Current P AD p (Some (ERegular info data)) st = (Ok r, st)).
Proof. split; [exact snapshotFileMetadata_prev_parents | exact Current_cache_hit]. Qed.

(** C4, witness: a first snapshot of ["tmp/F"] with no mapping; a change
    of mode over it, whose File has the first snapshot as parent; and,
    after a first [current] of the file, a change of its bytes from
    "Hello" to "Jello" that the cache hides. *)
Lemma snapshotFileMetadata_parents_witness :
  let info := mkFileInfo 5 "-rw-r--r--" 1700000000 (Some 7%N) in
  let info' := mkFileInfo 5 "-rwxr-xr-x" 1700000100 (Some 7%N) in
  let ch := Some (NewHash hexPrims "Hello") in
  let f0 := mkFile "-rw-r--r--" ch [] in
  let h0 := Some (NewHash hexPrims (File_String f0)) in
  let r1 := snapshotFileMetadata hexPrims ["tmp"; "F"] info ch empty_store in
  let r2 := snapshotFileMetadata hexPrims ["tmp"; "F"] info' ch (snd r1) in
  let st3 := snd (Current hexPrims ["archive"] ["tmp"; "F"] (Some (ERegular info "Hello")) empty_store) in
  (fst r1 = Ok (h0, Some f0) /\ objects (snd r1) !! NewHash hexPrims (File_String f0) = Some (File_String f0)) /\
  fst r2 = Ok (Some (NewHash hexPrims (File_String (mkFile "-rwxr-xr-x" ch [h0]))),
               Some (mkFile "-rwxr-xr-x" ch [h0])) /\
  Current hexPrims ["archive"] ["tmp"; "F"] (Some (ERegular info "Jello")) st3 = (Ok (h0, Some f0), st3).
Proof.
  intros info info' ch f0 h0 r1 r2 st3.
  destruct snapshotFileMetadata_parents as [HA HB].
  split; [|split].
  - assert (E : fst r1 = Ok (h0, Some f0)) by (vm_compute; reflexivity).
    subst r1. destruct (snapshotFileMetadata hexPrims ["tmp"; "F"] info ch empty_store) as [x st1] eqn:Er.
    simpl in E |- *. subst x.
    destruct (HA hexPrims ["tmp"; "F"] info ch empty_store (h0, Some f0) st1 Er) as [_ H2].
    destruct (H2 eq_refl) as [_ Ho]. split; [reflexivity | exact Ho].
  - assert (E1 : fst (FindSnapshot ["tmp"; "F"] (snd r1)) = Ok (h0, Some f0)) by (vm_compute; reflexivity).
    assert (E : fst r2 = Ok (Some (NewHash hexPrims (File_String (mkFile "-rwxr-xr-x" ch [h0]))),
                             Some (mkFile "-rwxr-xr-x" ch [h0]))) by (vm_compute; reflexivity).
    subst r2. destruct (snapshotFileMetadata hexPrims ["tmp"; "F"] info' ch (snd r1)) as [x st2] eqn:Er.
    simpl in E |- *. subst x.
    destruct (HA hexPrims ["tmp"; "F"] info' ch (snd r1) _ st2 Er) as [H1 _].
    destruct (H1 h0 f0 E1) as [-> _]; [left; discriminate | reflexivity].
  - apply HB; vm_compute; reflexivity.
Defined.

(* ------------------------------------------------------------------ *)
(** * Logs and merge bases (C5) *)

Lemma ReadSnapshot_parents msg h st f st' :
  mwrap msg (ReadSnapshot (Some h)) st = (Ok f, st') ->
  st' = st /\ (match f with Some fl => omap id (Parents fl) | None => [] end) = stored_parents st h.
Proof.
  intros H. apply mwrap_Ok in H. unfold ReadSnapshot in H.
  apply mbind_Ok in H as (bs & s1 & H1 & H). apply mwrap_Ok in H1.
  unfold ReadObject in H1. destruct (objects st !! h) as [bs'|] eqn:E; [|discriminate].
  injection H1 as Eb <-. subst bs'. unfold lift, rwrap in H.
  destruct (ParseFile bs) as [fo|] eqn:Ep; [|discriminate]. injection H as <- <-.
  split; [reflexivity|]. unfold stored_parents. rewrite E, Ep. destruct fo; reflexivity.
Qed.

(** The loop does not touch the store, extends [acc], and lists only
    hashes reachable from the queue. *)
Lemma log_loop_sound fuel seen queue acc st l st' :
  log_ReadLog_loop fuel seen queue acc st = (Ok l, st') ->
  st' = st /\ (exists rest, l = acc ++ rest)%list /\
  (forall z, z ∈ l -> z ∈ acc \/ exists q, q ∈ queue /\ rtc (parent_of st) q z).
Proof.
  revert seen queue acc. induction fuel as [|fuel IH]; intros seen queue acc H.
  - destruct queue; [injection H as <- <-|discriminate].
    split; [reflexivity|]. split; [exists []; symmetry; apply app_nil_r|]. auto.
  - destruct queue as [|h queue'].
    + injection H as <- <-. split; [reflexivity|]. split; [exists []; symmetry; apply app_nil_r|]. auto.
    + cbn [log_ReadLog_loop] in H. apply mbind_Ok in H as (f & s1 & H1 & H).
      apply ReadSnapshot_parents in H1 as [-> Hps].
      apply IH in H as (-> & [rest Hl] & Hz). split; [reflexivity|]. split.
      { exists ([h] ++ rest)%list. rewrite Hl, app_assoc. reflexivity. }
      intros z Hzl. destruct (Hz z Hzl) as [Hin|(q & Hq & Hr)].
      * apply elem_of_app in Hin as [Hin|Hin]; [auto|].
        right. exists h. split; [left|]. apply list_elem_of_singleton in Hin. subst. reflexivity.
      * right. apply elem_of_app in Hq as [Hq|Hq].
        -- exists q. split; [right; exact Hq | exact Hr].
        -- exists h. split; [left|]. eapply rtc_l; [|exact Hr].
           unfold parent_of. rewrite <- Hps.
           apply elem_of_remove_dups, list_elem_of_filter in Hq as [_ Hq]. exact Hq.
Qed.

(** When the loop ends, the listed hashes are closed under parents. *)
Lemma log_loop_complete fuel seen queue acc st l st' :
  log_ReadLog_loop fuel seen queue acc st = (Ok l, st') ->
  (forall a, a ∈ acc -> forall p, parent_of st a p -> p ∈ seen) ->
  (forall z, z ∈ seen -> z ∈ acc \/ z ∈ queue) ->
  forall a, a ∈ l -> forall p, parent_of st a p -> p ∈ l.
Proof.
  revert seen queue acc. induction fuel as [|fuel IH]; intros seen queue acc H Hacc Hseen.
  - destruct queue; [injection H as <- <-|discriminate].
    intros a Ha p Hp. destruct (Hseen p (Hacc a Ha p Hp)) as [?|Hin]; [assumption|].
    apply elem_of_nil in Hin as [].
  - destruct queue as [|h queue'].
    + injection H as <- <-.
      intros a Ha p Hp. destruct (Hseen p (Hacc a Ha p Hp)) as [?|Hin]; [assumption|].
      apply elem_of_nil in Hin as [].
    + cbn [log_ReadLog_loop] in H. apply mbind_Ok in H as (f & s1 & H1 & H).
      apply ReadSnapshot_parents in H1 as [-> Hps].
      eapply IH; [exact H | |].
      * intros a Ha p Hp. apply elem_of_union.
        apply elem_of_app in Ha as [Ha|Ha]; [right; exact (Hacc a Ha p Hp)|].
        apply list_elem_of_singleton in Ha. subst a.
        destruct (decide (p ∈ seen)) as [Hs|Hs]; [right; exact Hs|left].
        apply elem_of_list_to_set, elem_of_remove_dups, list_elem_of_filter.
        split; [exact Hs|]. unfold parent_of in Hp. rewrite Hps. exact Hp.
      * intros z Hz. apply elem_of_union in Hz as [Hz|Hz].
        -- right. apply elem_of_app. right. apply elem_of_list_to_set in Hz. exact Hz.
        -- destruct (Hseen z Hz) as [Ha|Hq].
           ++ left. apply elem_of_app. left. exact Ha.
           ++ apply elem_of_cons in Hq as [->|Hq].
              ** left. apply elem_of_app. right. left.
              ** right. apply elem_of_app. left. exact Hq.
Qed.

Lemma log_ReadLog_spec x st l st' :
  log_ReadLog x st = (Ok l, st') ->
  st' = st /\ (exists rest, l = x :: rest) /\
  (forall z, z ∈ l <-> rtc (parent_of st) x z).
Proof.
  unfold log_ReadLog. intros H.
  pose proof (log_loop_complete _ _ _ _ _ _ _ H) as Hc.
  assert (Hhd : exists rest, l = x :: rest).
  { pose proof H as H0. cbn [log_ReadLog_loop] in H0.
    apply mbind_Ok in H0 as (f & s1 & H1 & H0).
    apply ReadSnapshot_parents in H1 as [-> _].
    apply log_loop_sound in H0 as (_ & [rest Hl] & _). exists rest. exact Hl. }
  apply log_loop_sound in H as (-> & _ & Hz).
  split; [reflexivity|]. destruct Hhd as [rest Hl]. split; [exists rest; exact Hl|].
  intros z. split.
  - intros Hzl. destruct (Hz z Hzl) as [Hin|(q & Hq & Hr)]; [apply elem_of_nil in Hin as []|].
    apply list_elem_of_singleton in Hq. subst q. exact Hr.
  - intros Hr. assert (Hx : x ∈ l) by (rewrite Hl; left).
    assert (Hcl : forall a, a ∈ l -> forall p, parent_of st a p -> p ∈ l).
    { apply Hc.
      - intros a1 Ha1. apply elem_of_nil in Ha1 as [].
      - intros z1 Hz1. right. apply elem_of_singleton in Hz1. subst. left. }
    clear Hc Hz Hl. revert Hx.
    induction Hr as [z|a b z Hab Hbz IHr]; intros Ha; [exact Ha|].
    apply IHr. exact (Hcl a Ha b Hab).
Qed.

Lemma ranked_step st rank c p : ranked st rank -> parent_of st c p -> (rank p < rank c)%nat.
Proof.
  intros Hr Hp. unfold parent_of, stored_parents in Hp.
  destruct (objects st !! c) as [bs|] eqn:E; [|apply elem_of_nil in Hp as []].
  pose proof (Hr c bs E) as Hf. cbn beta in Hf. unfold stored_parents in Hf. rewrite E in Hf.
  rewrite Forall_forall in Hf. apply Hf. exact Hp.
Qed.

Lemma ranked_rtc st rank a b : ranked st rank -> rtc (parent_of st) a b -> (rank b <= rank a)%nat.
Proof.
  intros Hr Hab. induction Hab as [|a c b Hac _ IH]; [lia|].
  pose proof (ranked_step _ _ _ _ Hr Hac). lia.
Qed.

Lemma ranked_rtc_neq st rank a b :
  ranked st rank -> rtc (parent_of st) a b -> a <> b -> (rank b < rank a)%nat.
Proof.
  intros Hr Hab Hne. destruct Hab as [|a c b Hac Hcb]; [congruence|].
  pose proof (ranked_step _ _ _ _ Hr Hac). pose proof (ranked_rtc _ _ _ _ Hr Hcb). lia.
Qed.

Lemma Hash_Equal_refl h : Hash_Equal h h = true.
Proof. destruct h as [[fn hx]|]; simpl; [rewrite !String.eqb_refl|]; reflexivity. Qed.

Lemma Hash_Equal_true a b : Hash_Equal (Some a) (Some b) = true -> a = b.
Proof.
  destruct a as [fa ha], b as [fb hb]; simpl. intros H.
  apply andb_true_iff in H as [H1 H2]. apply String.eqb_eq in H1, H2. subst. reflexivity.
Qed.

(** C5: [merge.Base] returns [x] on [(x, x)] and nil when either side is
    nil. When [y] lies on the parent chain of [x] (reflexively), both full
    logs read from the store, and the stored history is acyclic (a rank
    drops along every parent link, as content addressing gives), it
    returns [y]. *)
Theorem Base_laws :
  (forall x st, Base x x st = (Ok x, st)) /\
  (forall x st, Base None x st = (Ok None, st)) /\
  (forall x st, Base x None st = (Ok None, st)) /\
  (forall st x y rank lx ly,
      ranked st rank -> rtc (parent_of st) x y ->
      fst (log_ReadLog x st) = Ok lx -> fst (log_ReadLog y st) = Ok ly ->
      Base (Some x) (Some y) st = (Ok (Some y), st)).
Proof.
  split; [|split; [|split]].
  - intros x st. unfold Base. rewrite Hash_Equal_refl. reflexivity.
  - intros [x|] st; reflexivity.
  - intros [x|] st; reflexivity.
  - intros st x y rank lx ly Hr Hxy Hlx Hly.
    destruct (log_ReadLog x st) as [rx sx] eqn:Ex. cbn [fst] in Hlx. subst rx.
    destruct (log_ReadLog y st) as [ry sy] eqn:Ey. cbn [fst] in Hly. subst ry.
    pose proof (log_ReadLog_spec _ _ _ _ Ex) as (-> & [restx Hx] & Hmx).
    pose proof (log_ReadLog_spec _ _ _ _ Ey) as (-> & [resty Hy] & Hmy).
    unfold Base. destruct (Hash_Equal (Some x) (Some y)) eqn:Heq.
    { apply Hash_Equal_true in Heq. subst. reflexivity. }
    assert (Hne : x <> y) by (intros ->; rewrite Hash_Equal_refl in Heq; discriminate).
    unfold mbind, mwrap. rewrite Ex, Ey.
    unfold mret. f_equal. f_equal. rewrite Hx, Hy. cbn [base_walk].
    destruct (decide (x ∈ list_to_set (y :: resty))) as [Hin|Hnin].
    + exfalso. apply elem_of_list_to_set in Hin. rewrite <- Hy in Hin.
      apply Hmy in Hin.
      pose proof (ranked_rtc_neq _ _ _ _ Hr Hxy Hne). pose proof (ranked_rtc _ _ _ _ Hr Hin). lia.
    + rewrite decide_True; [reflexivity|]. apply elem_of_list_to_set. rewrite <- Hx.
      apply Hmx. exact Hxy.
Qed.

Lemma Base_laws_witness :
  Base (Some diamond_hr) (Some diamond_hc) diamond_store = (Ok (Some diamond_hc), diamond_store).
Proof.
  apply (proj2 (proj2 (proj2 Base_laws)) diamond_store diamond_hr diamond_hc diamond_rank
           (log_or_nil diamond_hr diamond_store) (log_or_nil diamond_hc diamond_store)).
  - apply (bool_decide_unpack _). vm_compute. reflexivity.
  - apply (rtc_l _ _ diamond_ha); [|apply (rtc_l _ _ diamond_hc); [|apply rtc_refl]];
      unfold parent_of; apply (bool_decide_unpack _); vm_compute; reflexivity.
  - vm_compute. reflexivity.
  - vm_compute. reflexivity.
Defined.

(* ------------------------------------------------------------------ *)
(** * Snapshotting a path twice (C3) *)

Lemma current_entry_dir P AD p info cs :
  current_entry P AD p (EDir info cs) =
    (let* t := children_loop (current_entry P AD) AD p cs ∅ in
     let* contentsHash := StoreObject P (Tree_String P t) in
     snapshotFileMetadata P p info contentsHash).
Proof. reflexivity. Qed.

Lemma under_refl (p : Path) : under p p.
Proof. exists []. symmetry. apply app_nil_r. Qed.

Lemma under_child (p : Path) c rest : under (p ++ [c])%list (p ++ c :: rest)%list.
Proof. exists rest. rewrite <- app_assoc. reflexivity. Qed.

Lemma under_child_parent (p : Path) c x : under (p ++ [c])%list x -> under p x.
Proof. intros [rest ->]. exists (c :: rest). rewrite <- app_assoc. reflexivity. Qed.

Lemma not_under_sibling (p : Path) c c' rest : c <> c' -> ~ under (p ++ [c])%list (p ++ c' :: rest)%list.
Proof.
  intros Hne [r Hr]. rewrite <- app_assoc in Hr. apply app_inv_head in Hr.
  injection Hr as ->. congruence.
Qed.

Lemma not_under_child_self (p : Path) c : ~ under (p ++ [c])%list p.
Proof.
  intros [r Hr]. apply (f_equal (@length _)) in Hr. rewrite !length_app in Hr. simpl in Hr. lia.
Qed.

Lemma NewHash_wf P bs : prims_ok P -> hash_wf (NewHash P bs).
Proof. intros (_ & Hd & _). split; [reflexivity | apply Hd]. Qed.

(** [StoreObject] keeps the store consistent and only adds objects. *)
Lemma insert_object_consistent P st bs :
  prims_ok P -> consistent P st ->
  consistent P (set_objects (<[NewHash P bs := bs]> (objects st)) st) /\
  objects st ⊆ objects (set_objects (<[NewHash P bs := bs]> (objects st)) st).
Proof.
  intros (Hinj & _) Hc. cbn [set_objects objects]. split.
  - apply map_Forall_insert_2; [reflexivity | exact Hc].
  - destruct (objects st !! NewHash P bs) as [v|] eqn:E.
    + pose proof (Hc _ _ E) as Hv. unfold NewHash in Hv. injection Hv as Hv.
      apply Hinj in Hv. subst v. rewrite insert_id by exact E. reflexivity.
    + apply insert_subseteq, E.
Qed.

Lemma ReadSnapshot_mono h st st' r :
  fst (ReadSnapshot h st) = Ok r -> objects st ⊆ objects st' -> fst (ReadSnapshot h st') = Ok r.
Proof.
  intros H Hsub. destruct h as [h|]; [|discriminate].
  unfold ReadSnapshot, mbind, mwrap, ReadObject in *.
  destruct (objects st !! h) as [bs|] eqn:E; [|discriminate].
  rewrite (lookup_weaken _ _ _ _ E Hsub). exact H.
Qed.

Lemma FindSnapshot_mono p st st' r :
  fst (FindSnapshot p st) = Ok r -> paths st' !! p = paths st !! p ->
  objects st ⊆ objects st' -> fst (FindSnapshot p st') = Ok r.
Proof.
  intros H Hp Hsub. unfold FindSnapshot in *. rewrite Hp.
  destruct (paths st !! p) as [s|]; [|discriminate].
  unfold mbind, lift in *. destruct (rwrap _ (ParseHash s)) as [h|e]; [|discriminate].
  pose proof (ReadSnapshot_pure h st) as Hs. pose proof (ReadSnapshot_pure h st') as Hs'.
  unfold mwrap in *.
  destruct (ReadSnapshot h st) as [[f|e] s1] eqn:E; [|discriminate].
  cbn [snd] in Hs. subst s1.
  assert (E' : fst (ReadSnapshot h st') = Ok f) by (apply (ReadSnapshot_mono _ st); [rewrite E|]; auto).
  destruct (ReadSnapshot h st') as [[f'|e] s1'] eqn:E2; cbn [fst] in E'; [|discriminate].
  injection E' as ->. exact H.
Qed.

Lemma FindSnapshot_run p st r : fst (FindSnapshot p st) = Ok r -> FindSnapshot p st = (Ok r, st).
Proof.
  intros H. pose proof (FindSnapshot_state p st) as Hs.
  destruct (FindSnapshot p st) as [r' s']. cbn in H, Hs. subst. reflexivity.
Qed.

Lemma has_char_app c a b : has_char c (String.append a b) = has_char c a || has_char c b.
Proof.
  unfold has_char. induction a as [|x a IH]; simpl; [reflexivity|].
  rewrite IH. apply orb_assoc.
Qed.

Lemma has_char_cons c a s : has_char c (String a s) = Ascii.eqb c a || has_char c s.
Proof. reflexivity. Qed.

Lemma insert_sorted_elem x y l : y ∈ insert_sorted x l <-> y = x \/ y ∈ l.
Proof.
  induction l as [|z l IH]; simpl.
  - rewrite list_elem_of_singleton, elem_of_nil. tauto.
  - destruct (String.leb x z).
    + rewrite elem_of_cons. tauto.
    + rewrite !elem_of_cons, IH. tauto.
Qed.

Lemma sort_Strings_elem y l : y ∈ sort_Strings l <-> y ∈ l.
Proof.
  induction l as [|x l IH]; simpl; [reflexivity|].
  rewrite insert_sorted_elem, IH, elem_of_cons. reflexivity.
Qed.

Lemma parse_tree_lines_mono P ls t0 t k :
  parse_tree_lines P ls t0 = Ok t -> is_Some (t0 !! k) -> is_Some (t !! k).
Proof.
  revert t0. induction ls as [|l ls IH]; intros t0 H Hk; simpl in H.
  - injection H as <-. exact Hk.
  - destruct (String.eqb l ""); [eapply IH; eauto|].
    destruct (split_first space l) as [[enc hs]|]; [|discriminate].
    unfold rbind, rwrap in H.
    destruct (decodePath P enc) as [c|]; [|discriminate].
    destruct (ParseHash hs) as [h|]; [|discriminate].
    eapply IH; [exact H|]. unfold Tree in *. destruct (decide (k = c)) as [->|Hne].
    + rewrite lookup_insert_eq. eauto.
    + rewrite lookup_insert_ne by congruence. exact Hk.
Qed.

Lemma parse_tree_lines_line P ls t0 t l enc hs c :
  parse_tree_lines P ls t0 = Ok t -> l ∈ ls -> String.eqb l "" = false ->
  split_first space l = Some (enc, hs) -> decodePath P enc = Ok c -> is_Some (t !! c).
Proof.
  revert t0. induction ls as [|l' ls IH]; intros t0 H Hin Hl Hs Hd; [apply elem_of_nil in Hin as []|].
  apply elem_of_cons in Hin as [<-|Hin].
  - simpl in H. rewrite Hl, Hs in H. unfold rbind, rwrap in H. rewrite Hd in H.
    destruct (ParseHash hs) as [h|]; [|discriminate].
    eapply parse_tree_lines_mono; [exact H|]. unfold Tree. rewrite lookup_insert_eq. eauto.
  - simpl in H. destruct (String.eqb l' ""); [eapply IH; eauto|].
    destruct (split_first space l') as [[enc' hs']|]; [|discriminate].
    unfold rbind, rwrap in H.
    destruct (decodePath P enc') as [c'|]; [|discriminate].
    destruct (ParseHash hs') as [h'|]; [|discriminate].
    eapply IH; eauto.
Qed.

(** Parsing [Tree.String t] back finds every child of [t]. *)
Lemma ParseTree_keys P t t' c :
  prims_ok P -> tree_wf t -> ParseTree P (Tree_String P t) = Ok t' ->
  is_Some (t !! c) -> is_Some (t' !! c).
Proof.
  intros HP Ht Hp [v Hv].
  destruct (Ht c v Hv) as (h & -> & Hh).
  destruct HP as (_ & _ & Hdec & Henc).
  set (line := fun ph : string * option Hash => match ph.2 with
                 | Some _ => Some (String.append (encodePath P ph.1) (String space (Hash_String ph.2)))
                 | None => None end).
  set (l := String.append (encodePath P c) (String space (Hash_String (Some h)))).
  assert (Hl : l ∈ omap line (map_to_list t)).
  { apply list_elem_of_omap. exists (c, Some h). split; [|reflexivity].
    apply elem_of_map_to_list. exact Hv. }
  assert (Hnl : forall y, y ∈ sort_Strings (omap line (map_to_list t)) -> has_char nl y = false).
  { intros y Hy. apply sort_Strings_elem, list_elem_of_omap in Hy as ([c' v'] & Hin & Hy).
    apply elem_of_map_to_list in Hin. destruct (Ht c' v' Hin) as (h' & -> & Hh').
    unfold line in Hy. cbn [fst snd] in Hy. injection Hy as <-.
    pose proof (Hash_String_no_nl h' Hh') as E. cbn [Hash_String] in E.
    rewrite has_char_app, has_char_cons, (proj2 (Henc c')), E. reflexivity. }
  unfold ParseTree, Tree_String in Hp. fold line in Hp.
  assert (Hls : l ∈ sort_Strings (omap line (map_to_list t))) by (apply sort_Strings_elem, Hl).
  destruct (sort_Strings (omap line (map_to_list t))) as [|y ys] eqn:Es;
    [apply elem_of_nil in Hls as []|].
  rewrite split_on_join in Hp.
  2: { apply Hnl. left. }
  2: { apply Forall_forall. intros z Hz. apply Hnl. right. exact Hz. }
  eapply (parse_tree_lines_line P _ _ _ l); [exact Hp | exact Hls | | |].
  - unfold l. destruct (encodePath P c); reflexivity.
  - unfold l. apply split_first_app, Henc.
  - apply Hdec.
Qed.

#[global] Instance keeps_path_preorder x : PreOrder (keeps_path x).
Proof.
  split; [intros s; split; reflexivity|].
  intros s1 s2 s3 [H1 C1] [H2 C2]. split; congruence.
Qed.

Lemma RemoveMappingForPath_keeps P x fuel q :
  ~ under q x -> preserves (keeps_path x) (RemoveMappingForPath P fuel q).
Proof.
  revert q. induction fuel as [|fuel IH]; intros q Hx; simpl; [auto with preserves typeclass_instances|].
  apply (preserves_bind (keeps_path x)); [apply preserves_modify; intros st; split; reflexivity|].
  intros _.
  apply (preserves_bind (keeps_path x));
    [apply preserves_try, preserves_eq, FindSnapshot_pure; typeclasses eauto|].
  intros r.
  assert (Hrest : preserves (keeps_path x)
    (let hf := match r with Ok hf => hf | Err _ => (None, None) end in
     let* _ := remove_mapping_file q in
     if negb (File_IsDir hf.2) then mret tt else
     let* tree := mwrap "failure listing the contents" (ListDirectorySnapshotContents P hf.1 hf.2) in
     (fix loop (cs : list string) : M unit :=
        match cs with
        | [] => mret tt
        | c :: cs' =>
            let* _ := mwrap "failure removing mapping for the child path"
                        (RemoveMappingForPath P fuel (Path_Join q c)) in
            loop cs'
        end) (map fst (map_to_list tree)))).
  { apply (preserves_bind (keeps_path x)).
    { intros st. unfold remove_mapping_file. destruct (paths st !! q); [|split; reflexivity].
      split; [|reflexivity]. cbn [snd set_paths paths].
      apply lookup_delete_ne. intros ->. apply Hx, under_refl. }
    intros _. destruct (negb _); [auto with preserves typeclass_instances|].
    apply (preserves_bind (keeps_path x));
      [apply preserves_wrap, preserves_eq, ListDirectorySnapshotContents_pure; typeclasses eauto|].
    intros tree. induction (map fst (map_to_list tree)) as [|c cs IHcs];
      [auto with preserves typeclass_instances|].
    apply (preserves_bind (keeps_path x)); [|intros _; exact IHcs].
    apply preserves_wrap, IH. intros Hu. apply Hx. exact (under_child_parent _ _ _ Hu). }
  destruct r as [hf|[|msg]]; [exact Hrest | auto with preserves typeclass_instances | exact Hrest].
Qed.

Lemma remove_unlisted_keeps P x p currTree cs :
  (forall c rest, x = (p ++ c :: rest)%list ->
     match currTree with Some t => bool_decide (is_Some (t !! c)) | None => false end = true) ->
  preserves (keeps_path x) (remove_unlisted P p currTree cs).
Proof.
  intros Hx. induction cs as [|c cs IH]; simpl; [auto with preserves typeclass_instances|].
  apply (preserves_bind (keeps_path x)); [|intros _; exact IH].
  destruct (match currTree with Some t => bool_decide (is_Some (t !! c)) | None => false end) eqn:El;
    [auto with preserves typeclass_instances|].
  assert (Hnu : ~ under (Path_Join p c) x).
  { intros [rest Hr]. unfold Path_Join in Hr. rewrite <- app_assoc in Hr. cbn in Hr.
    rewrite (Hx c rest Hr) in El. discriminate. }
  apply preserves_wrap. intros st.
  exact (RemoveMappingForPath_keeps P x (S (size (paths st))) (Path_Join p c) Hnu st).
Qed.

Lemma app_cons_neq (p : Path) c rest : p <> (p ++ c :: rest)%list.
Proof. intros H. apply (f_equal (@length _)) in H. rewrite length_app in H. simpl in H. lia. Qed.

(** What [StoreSnapshot p f] changes: the object of [f], the mapping of
    [p], and the mappings below [p] outside the children listed in the
    tree [t] that [f] points to when it is a directory. *)
Lemma StoreSnapshot_frame P p f t st h st1 :
  prims_ok P -> consistent P st ->
  (File_IsDir (Some f) = true ->
     exists ch, Contents f = Some ch /\ objects st !! ch = Some (Tree_String P t) /\ tree_wf t) ->
  (File_IsDir (Some f) = false -> t = ∅) ->
  StoreSnapshot P p f st = (Ok h, st1) ->
  h = Some (NewHash P (File_String f)) /\
  objects st1 = <[NewHash P (File_String f) := File_String f]> (objects st) /\
  cache st1 = cache st /\
  paths st1 !! p = Some (Hash_String h) /\
  (forall x, x <> p -> (~ under p x \/ exists c rest, x = (p ++ c :: rest)%list /\ is_Some (t !! c)) ->
     paths st1 !! x = paths st !! x).
Proof.
  intros HP Hc Hdir Hndir H. unfold StoreSnapshot in H.
  apply mbind_Ok in H as (u1 & s1 & H1 & H). injection H1 as _ E1.
  apply mbind_Ok in H as (h0 & s2 & H2 & H).
  apply mwrap_Ok, StoreObject_run in H2 as [[= <-] E2].
  apply mbind_Ok in H as (u3 & s3 & H3 & H). injection H3 as _ E3.
  apply mbind_Ok in H as (ct & s4 & H4 & H).
  assert (Hs1 : objects s1 = objects st /\ paths s1 = paths st /\ cache s1 = cache st)
    by (subst s1; auto).
  assert (Hsub : objects st ⊆ objects s2).
  { rewrite E2. cbn [set_objects objects]. rewrite (proj1 Hs1).
    apply (insert_object_consistent P st (File_String f) HP Hc). }
  assert (Hct : s4 = s3 /\
    (forall c, is_Some (t !! c) -> exists t', ct = Some t' /\ is_Some (t' !! c))).
  { destruct (File_IsDir (Some f)) eqn:Ed.
    - apply mbind_Ok in H4 as (t' & s' & H4a & H4b). injection H4b as <- <-.
      apply mwrap_Ok in H4a.
      destruct (Hdir eq_refl) as (ch & Ech & Eo & Ht).
      unfold ListDirectorySnapshotContents in H4a. rewrite Ed in H4a. cbn [negb] in H4a.
      apply mbind_Ok in H4a as (bs & s'' & Hr & Hl). apply mwrap_Ok in Hr.
      rewrite Ech in Hr. unfold ReadObject in Hr.
      assert (Eo3 : objects s3 !! ch = Some (Tree_String P t)).
      { rewrite <- E3. cbn [set_paths objects]. exact (lookup_weaken _ _ _ _ Eo Hsub). }
      rewrite Eo3 in Hr. injection Hr as <- <-.
      unfold lift, rwrap in Hl. destruct (ParseTree P (Tree_String P t)) as [t''|] eqn:Ep; [|discriminate].
      injection Hl as <- <-. split; [reflexivity|].
      intros c Hin. exists t''. split; [reflexivity|]. exact (ParseTree_keys P t t'' c HP Ht Ep Hin).
    - injection H4 as <- <-. split; [reflexivity|].
      rewrite (Hndir eq_refl). intros c [v Hv]. unfold Tree in Hv. rewrite lookup_empty in Hv. discriminate. }
  destruct Hct as [-> Hct].
  apply mbind_Ok in H as (cs & s5 & H5 & H). injection H5 as _ E5.
  apply mbind_Ok in H as (u6 & s6 & H6 & H). injection H as <- <-.
  pose proof (preserves_run _ _ _ _ _ (remove_unlisted_objects P p ct cs) H6) as O6.
  assert (K6 : forall x, (forall c rest, x = (p ++ c :: rest)%list ->
     match ct with Some t => bool_decide (is_Some (t !! c)) | None => false end = true) ->
     keeps_path x s5 s6).
  { intros x Hx. exact (preserves_run _ _ _ _ _ (remove_unlisted_keeps P x p ct cs Hx) H6). }
  assert (Kp : keeps_path p s5 s6).
  { apply K6. intros c rest Hr. exfalso. exact (app_cons_neq p c rest Hr). }
  unfold same_objects in O6. subst s5 s3 s2 s1. cbn [set_mapped set_objects set_paths paths objects cache] in *.
  split; [reflexivity|]. split; [exact O6|]. split; [exact (proj2 Kp)|]. split.
  { rewrite (proj1 Kp). cbn [paths]. apply lookup_insert_eq. }
  intros x Hne Hx. enough (Kx : keeps_path x (set_paths (<[p:=Hash_String h0]> (paths st)) (set_objects
    (<[NewHash P (File_String f):=File_String f]> (objects (set_mapped (mapped st ∪ list_to_set (prefixes p)) st)))
    (set_mapped (mapped st ∪ list_to_set (prefixes p)) st))) s6).
  { rewrite (proj1 Kx). cbn [paths set_paths]. apply lookup_insert_ne. congruence. }
  apply K6. intros c rest Hr. destruct Hx as [Hnu|(c0 & rest0 & Hr0 & Hin)].
    + exfalso. apply Hnu. exists (c :: rest). exact Hr.
    + rewrite Hr in Hr0. apply app_inv_head in Hr0. injection Hr0 as <- _.
      destruct (Hct c Hin) as (t' & -> & Hin'). apply bool_decide_eq_true. exact Hin'.
Qed.

Lemma ParseFile_File_String_wf f : file_wf f -> ParseFile (File_String f) = Ok (Some f).
Proof. intros H. pose proof (File_String_parse_roundtrip f 0 H) as E. simpl in E. rewrite append_empty_r in E. exact E. Qed.

Lemma Hash_Equal_Some_refl h : Hash_Equal (Some h) (Some h) = true.
Proof. destruct h; simpl. rewrite !String.eqb_refl. reflexivity. Qed.

Lemma FindSnapshot_at p st hs h bs f :
  paths st !! p = Some hs -> ParseHash hs = Ok (Some h) -> objects st !! h = Some bs ->
  ParseFile bs = Ok (Some f) -> FindSnapshot p st = (Ok (Some h, Some f), st).
Proof.
  intros Hp Hh Ho Hf.
  cbv [FindSnapshot mbind lift rwrap mwrap ReadSnapshot ReadObject mret].
  rewrite Hp, Hh. cbv beta iota. rewrite Ho. cbv beta iota. rewrite Hf. reflexivity.
Qed.

(** The first [snapshotFileMetadata] of [p] leaves a mapping of [p]
    that reads back its result, which passes the unchanged-file test. *)
Lemma snapshotFileMetadata_first P p info ch t st r st1 :
  prims_ok P -> consistent P st -> hash_wf ch -> has_char nl (fi_mode info) = false ->
  (String.prefix "d" (fi_mode info) = true -> objects st !! ch = Some (Tree_String P t) /\ tree_wf t) ->
  (String.prefix "d" (fi_mode info) = false -> t = ∅) ->
  snapshotFileMetadata P p info (Some ch) st = (Ok r, st1) ->
  fst (FindSnapshot p st1) = Ok r /\ meta_ok r (fi_mode info) (Some ch) = true /\
  consistent P st1 /\ objects st ⊆ objects st1 /\ cache st1 = cache st /\
  (forall x, x <> p -> (~ under p x \/ exists c rest, x = (p ++ c :: rest)%list /\ is_Some (t !! c)) ->
     paths st1 !! x = paths st !! x).
Proof.
  intros HP Hc Hch Hm Hdir Hndir H. unfold snapshotFileMetadata in H.
  apply mbind_Ok in H as (res & s1 & H1 & H).
  unfold mtry in H1. pose proof (FindSnapshot_state p st) as Hs.
  destruct (FindSnapshot p st) as [res0 s0] eqn:EF. cbn [snd] in Hs. subst s0.
  injection H1 as <- <-.
  apply mbind_Ok in H as (pp & s2 & H2 & H).
  assert (Hpp : s2 = st /\ (fst (FindSnapshot p st) = Ok pp \/ pp = (None, None))).
  { rewrite EF. destruct res0 as [x|[|msg]]; cbn in H2;
      [injection H2 as <- <-; auto | injection H2 as <- <-; auto | discriminate H2]. }
  destruct Hpp as [-> Hpp].
  destruct (match pp.2 with
            | Some pf => String.eqb (Mode pf) (fi_mode info) && Hash_Equal (Contents pf) (Some ch)
            | None => false end) eqn:Ec.
  - injection H as <- <-. destruct pp as [ph pf]. cbn [fst snd] in *.
    destruct Hpp as [Hpp|[= -> ->]]; [|discriminate].
    split; [exact Hpp|]. split; [exact Ec|]. split; [exact Hc|]. split; [reflexivity|].
    split; [reflexivity|]. auto.
  - apply mbind_Ok in H as (h & s3 & H3 & H). injection H as <- <-.
    apply mwrap_Ok in H3.
    set (f := mkFile (fi_mode info) (Some ch) (match pp.2 with Some _ => [pp.1] | None => [] end)) in H3.
    assert (Hd1 : File_IsDir (Some f) = true ->
              exists ch', Contents f = Some ch' /\ objects st !! ch' = Some (Tree_String P t) /\ tree_wf t).
    { intros Hd. destruct (Hdir Hd) as [Eo Ht]. exists ch. auto. }
    destruct (StoreSnapshot_frame P p f t st h s3 HP Hc Hd1 Hndir H3) as (-> & Eo & Ec3 & Ep & Ex).
    assert (Hf : file_wf f).
    { split; [exact Hm|]. split; [exists ch; split; [reflexivity|exact Hch]|].
      unfold f; cbn [Parents]. destruct pp as [ph [pf|]]; cbn [fst snd].
      - destruct Hpp as [Hpp|Hn]; [|discriminate Hn].
        destruct (FindSnapshot_Ok_hash p st ph (Some pf) Hpp) as (hh & -> & Hhh).
        exists [hh]. split; [reflexivity|]. constructor; [exact Hhh|constructor].
      - exists []. split; [reflexivity|constructor]. }
    destruct (insert_object_consistent P st (File_String f) HP Hc) as [Hc' Hsub].
    cbn [set_objects objects] in Hc', Hsub.
    split.
    { rewrite (FindSnapshot_at p s3 _ (NewHash P (File_String f)) (File_String f) f Ep).
      - reflexivity.
      - apply ParseHash_String, NewHash_wf, HP.
      - rewrite Eo. apply lookup_insert_eq.
      - apply ParseFile_File_String_wf, Hf. }
    split; [unfold meta_ok; cbn [fst snd Mode Contents f]; rewrite String.eqb_refl, Hash_Equal_Some_refl; reflexivity|].
    split; [unfold consistent; rewrite Eo; exact Hc'|].
    split; [rewrite Eo; exact Hsub|].
    split; [exact Ec3|exact Ex].
Qed.

(** Induction on entries, with the hypothesis for every child of a
    directory. *)
Lemma Entry_nested_ind (Q : Entry -> Prop) :
  (forall info data, Q (ERegular info data)) ->
  (forall info target, Q (ESymlink info target)) ->
  (forall info cs, Forall (fun nc : string * Entry => Q nc.2) cs -> Q (EDir info cs)) ->
  forall e, Q e.
Proof.
  intros Hr Hs Hd. fix IH 1. intros [info data|info target|info cs];
    [apply Hr | apply Hs | apply Hd].
  exact ((fix go (cs : list (string * Entry)) : Forall (fun nc : string * Entry => Q nc.2) cs :=
            match cs as l return Forall (fun nc : string * Entry => Q nc.2) l with
            | [] => List.Forall_nil _
            | (n, ce) :: cs' => @List.Forall_cons _ _ (n, ce) cs' (IH ce) (go cs')
            end) cs).
Qed.

Lemma Settled_found P AD st p e r : Settled P AD st p e r -> fst (FindSnapshot p st) = Ok r.
Proof. destruct e; simpl; [tauto | tauto | intros (t & _ & H & _); exact H]. Qed.

Lemma Settled_hash P AD st p e r :
  Settled P AD st p e r -> exists hh, r.1 = Some hh /\ hash_wf hh.
Proof.
  intros H. apply Settled_found in H. destruct r as [h f].
  destruct (FindSnapshot_Ok_hash p st h f H) as (hh & -> & Hh). eauto.
Qed.

(** The settled children all land in the tree, which stays well formed. *)
Lemma kids_settled_keys P AD st p cs : forall t0 t,
  kids_settled (Settled P AD st) AD p cs t0 t ->
  (forall k, is_Some (t0 !! k) -> is_Some (t !! k)) /\
  (forall name ce, (name, ce) ∈ cs -> Exclude AD (Path_Join p name) = false -> is_Some (t !! name)) /\
  (tree_wf t0 -> tree_wf t).
Proof.
  induction cs as [|[name ce] cs IH]; intros t0 t H; simpl in H.
  - subst t. split; [auto|]. split; [|auto].
    intros name ce Hin. apply elem_of_nil in Hin as [].
  - destruct (Exclude AD (Path_Join p name)) eqn:Ex.
    + destruct (IH t0 t H) as (Hk & Hn & Hw). split; [exact Hk|]. split; [|exact Hw].
      intros name' ce' Hin Hx. apply elem_of_cons in Hin as [[= -> ->]|Hin]; [congruence|].
      exact (Hn name' ce' Hin Hx).
    + destruct H as (rc & Hs & H). destruct (Settled_hash _ _ _ _ _ _ Hs) as (hh & Hrc & Hhh).
      unfold tree_add in H. rewrite Hrc in H.
      destruct (IH _ t H) as (Hk & Hn & Hw). unfold Tree in *. split; [|split].
      * intros k Hk0. apply Hk. destruct (decide (k = name)) as [->|Hne];
          [rewrite lookup_insert_eq; eauto | rewrite lookup_insert_ne by congruence; exact Hk0].
      * intros name' ce' Hin Hx. apply elem_of_cons in Hin as [[= -> ->]|Hin].
        -- apply Hk. rewrite lookup_insert_eq. eauto.
        -- exact (Hn name' ce' Hin Hx).
      * intros Hw0. apply Hw. apply map_Forall_insert_2; [eauto | exact Hw0].
Qed.

Lemma kids_settled_mono P AD st st' p cs : forall t0 t,
  Forall (fun nc : string * Entry => forall q r, Settled P AD st q nc.2 r ->
            (forall x, under q x -> agree_at st st' x) -> Settled P AD st' q nc.2 r) cs ->
  (forall name ce x, (name, ce) ∈ cs -> Exclude AD (Path_Join p name) = false ->
     under (Path_Join p name) x -> agree_at st st' x) ->
  kids_settled (Settled P AD st) AD p cs t0 t -> kids_settled (Settled P AD st') AD p cs t0 t.
Proof.
  induction cs as [|[name ce] cs IH]; intros t0 t HF Hag H; simpl in *; [exact H|].
  inversion HF as [|nc cs' Hce HF']; subst. cbn [snd] in Hce.
  destruct (Exclude AD (Path_Join p name)) eqn:Ex.
  - apply IH; [exact HF' | | exact H]. intros n c x Hin. apply (Hag n c x). right. exact Hin.
  - destruct H as (rc & Hs & H). exists rc. split.
    + apply Hce; [exact Hs|]. intros x Hx. apply (Hag name ce); [left | exact Ex | exact Hx].
    + apply IH; [exact HF' | | exact H]. intros n c x Hin. apply (Hag n c x). right. exact Hin.
Qed.

(** Settled stays settled when nothing changes below [p] and objects
    are only added. *)
Lemma Settled_mono P AD e : forall st st' p r,
  objects st ⊆ objects st' -> (forall x, under p x -> agree_at st st' x) ->
  Settled P AD st p e r -> Settled P AD st' p e r.
Proof.
  induction e as [info data|info target|info cs IHcs] using Entry_nested_ind;
    intros st st' p r Hsub Hag H; simpl in *.
  - destruct H as [Hf Hc]. destruct (Hag p (under_refl p)) as [Hp Hcp]. split.
    + exact (FindSnapshot_mono p st st' r Hf Hp Hsub).
    + unfold PathInfoMatchesCache in *. rewrite Hcp. exact Hc.
  - destruct H as [Hf Hm]. destruct (Hag p (under_refl p)) as [Hp _].
    split; [exact (FindSnapshot_mono p st st' r Hf Hp Hsub) | exact Hm].
  - destruct H as (t & Hk & Hf & Hm). destruct (Hag p (under_refl p)) as [Hp _].
    exists t. split; [|split; [exact (FindSnapshot_mono p st st' r Hf Hp Hsub) | exact Hm]].
    apply (kids_settled_mono P AD st st' p cs ∅ t); [| |exact Hk].
    + eapply Forall_impl; [exact IHcs|]. intros nc Hnc q r' Hs Hq. exact (Hnc st st' q r' Hsub Hq Hs).
    + intros name ce x _ _ Hx. apply Hag. exact (under_child_parent _ _ _ Hx).
Qed.

Lemma snapshotFileMetadata_shortcut P p info c st r :
  fst (FindSnapshot p st) = Ok r -> meta_ok r (fi_mode info) c = true ->
  snapshotFileMetadata P p info c st = (Ok r, st).
Proof.
  intros Hf Hm. apply FindSnapshot_run in Hf.
  unfold snapshotFileMetadata, mbind, mtry. rewrite Hf. cbn beta iota.
  destruct r as [h f]. unfold meta_ok in Hm. cbn [fst snd] in *. unfold mret. cbn beta iota. cbn [fst snd]. rewrite Hm. reflexivity.
Qed.

Lemma CachePathInfo_frame p info st r st' :
  CachePathInfo p info st = (r, st') ->
  objects st' = objects st /\ paths st' = paths st /\
  (forall x, x <> p -> cache st' !! x = cache st !! x).
Proof.
  unfold CachePathInfo. destruct (fi_sys info) as [ino|].
  - destruct (cache st !! p); intros [= <- <-]; cbn; (split; [reflexivity|split; [reflexivity|]]);
      intros x Hx; [apply lookup_delete_ne | apply lookup_insert_ne]; congruence.
  - intros [= <- <-]. auto.
Qed.

Lemma current_entry_reg P AD p info data :
  current_entry P AD p (ERegular info data) =
    (let* cached := readCached p info in
     match cached with
     | Some r => mret r
     | None =>
         let* h := mwrap "failure storing an object" (StoreObject P data) in
         let* r := mtry (snapshotFileMetadata P p info h) in
         let* _ := (match r with
                    | Ok (Some _, _) => let* _ := mtry (CachePathInfo p info) in mret tt
                    | _ => mret tt
                    end) in
         lift r
     end).
Proof. reflexivity. Qed.

Lemma current_entry_link P AD p info target :
  current_entry P AD p (ESymlink info target) =
    (let* h := mwrap "failure storing an object" (StoreObject P target) in
     snapshotFileMetadata P p info h).
Proof. reflexivity. Qed.

Lemma mbind_run {A B} (m : M A) (k : A -> M B) st a s1 :
  m st = (Ok a, s1) -> mbind m k st = k a s1.
Proof. unfold mbind. intros ->. reflexivity. Qed.

Lemma StoreObject_step P bs st :
  StoreObject P bs st = (Ok (Some (NewHash P bs)), set_objects (<[NewHash P bs := bs]> (objects st)) st).
Proof. reflexivity. Qed.

Lemma under_disjoint (p : Path) name name' x :
  name <> name' -> under (Path_Join p name') x -> ~ under (Path_Join p name) x.
Proof.
  intros Hne [r' ->] [r Hr]. unfold Path_Join in Hr. rewrite <- !app_assoc in Hr.
  apply app_inv_head in Hr. injection Hr as ->. congruence.
Qed.

Lemma entry_wf_dir info cs :
  entry_wf (EDir info cs) = true ->
  has_char nl (fi_mode info) = false /\ String.prefix "d" (fi_mode info) = true /\
  NoDup (map fst cs) /\ Forall (fun nc : string * Entry => entry_wf nc.2 = true) cs.
Proof.
  simpl. intros H. apply andb_true_iff in H as [H Hl]. apply andb_true_iff in H as [H Hd].
  apply andb_true_iff in H as [Hn Hp]. apply negb_true_iff in Hn.
  split; [exact Hn|]. split; [exact Hp|]. split; [apply bool_decide_eq_true in Hd; exact Hd|].
  clear -Hl. induction cs as [|[n ce] cs IH]; [constructor|].
  apply andb_true_iff in Hl as [H1 H2]. constructor; [exact H1 | exact (IH H2)].
Qed.

(** The second run of the children loop over settled children. *)
Lemma children_loop_second P AD p cs : forall t0 t st,
  prims_ok P -> consistent P st -> NoDup (map fst cs) ->
  Forall (fun nc : string * Entry => forall st q r, consistent P st -> Settled P AD st q nc.2 r ->
    exists st', current_entry P AD q nc.2 st = (Ok r, st') /\ consistent P st' /\
      objects st ⊆ objects st' /\ (forall x, ~ under q x -> agree_at st st' x)) cs ->
  kids_settled (Settled P AD st) AD p cs t0 t ->
  exists st', children_loop (current_entry P AD) AD p cs t0 st = (Ok t, st') /\ consistent P st' /\
    objects st ⊆ objects st' /\
    (forall x, (forall name, name ∈ map fst cs -> ~ under (Path_Join p name) x) -> agree_at st st' x).
Proof.
  induction cs as [|[name ce] cs IH]; intros t0 t st HP Hc Hnd HF H; simpl in H.
  - subst t. exists st. split; [reflexivity|]. split; [exact Hc|]. split; [reflexivity|].
    intros x _. split; reflexivity.
  - inversion HF as [|nc cs' Hce HF']; subst. cbn [snd] in Hce.
    cbn [map] in Hnd. apply NoDup_cons in Hnd as [Hnin Hnd].
    cbn [children_loop]. destruct (Exclude AD (Path_Join p name)) eqn:Ex.
    + destruct (IH t0 t st HP Hc Hnd HF' H) as (st' & Hr & Hc' & Hs' & Ha').
      exists st'. split; [exact Hr|]. split; [exact Hc'|]. split; [exact Hs'|].
      intros x Hx. apply Ha'. intros n Hn. apply Hx. right. exact Hn.
    + destruct H as (rc & Hs & H).
      destruct (Hce st _ rc Hc Hs) as (s1 & Hr1 & Hc1 & Hs1 & Ha1).
      assert (H1 : kids_settled (Settled P AD s1) AD p cs (tree_add t0 name rc) t).
      { apply (kids_settled_mono P AD st s1 p cs); [| |exact H].
        - apply Forall_forall. intros nc _ q r Hq Hag. exact (Settled_mono P AD nc.2 st s1 q r Hs1 Hag Hq).
        - intros n c x Hin _ Hx. apply Ha1. apply (under_disjoint p name n x); [|exact Hx].
          intros <-. apply Hnin. apply list_elem_of_In, in_map_iff. exists (name, c). split; [reflexivity|].
          apply list_elem_of_In, Hin. }
      destruct (IH _ t s1 HP Hc1 Hnd HF' H1) as (st' & Hr & Hc' & Hs' & Ha').
      exists st'. split.
      { rewrite (mbind_run _ _ _ rc s1); [exact Hr|]. unfold mwrap. rewrite Hr1. reflexivity. }
      split; [exact Hc'|]. split; [etrans; [exact Hs1 | exact Hs']|].
      intros x Hx. destruct (Ha1 x (Hx name (list_elem_of_here _ _))) as [E1 F1].
      destruct (Ha' x (fun n Hn => Hx n (list_elem_of_further _ _ _ Hn))) as [E2 F2].
      split; congruence.
Qed.

(** From a settled store, [current p e] gives the same result again and
    changes nothing outside the subtree of [p]. *)
Lemma current_entry_second P AD e : forall st p r,
  prims_ok P -> consistent P st -> entry_wf e = true -> Settled P AD st p e r ->
  exists st', current_entry P AD p e st = (Ok r, st') /\ consistent P st' /\
    objects st ⊆ objects st' /\ (forall x, ~ under p x -> agree_at st st' x).
Proof.
  induction e as [info data|info target|info cs IHcs] using Entry_nested_ind;
    intros st p r HP Hc Hwf H.
  - destruct H as [Hf Hcm]. rewrite current_entry_reg.
    destruct (PathInfoMatchesCache p info st) eqn:Em.
    + exists st. split.
      { rewrite (mbind_run _ _ _ (Some r) st); [reflexivity|].
        unfold readCached. rewrite Em, (FindSnapshot_run _ _ _ Hf). reflexivity. }
      split; [exact Hc|]. split; [reflexivity|]. intros x _. split; reflexivity.
    + destruct Hcm as [Hcm|Hmeta]; [discriminate|].
      destruct (insert_object_consistent P st data HP Hc) as [Hc1 Hs1].
      set (s1 := set_objects (<[NewHash P data := data]> (objects st)) st) in *.
      assert (Hsm : snapshotFileMetadata P p info (Some (NewHash P data)) s1 = (Ok r, s1)).
      { apply snapshotFileMetadata_shortcut; [|exact Hmeta].
        exact (FindSnapshot_mono p st s1 r Hf eq_refl Hs1). }
      destruct (match Ok r with
                | Ok (Some _, _) => let* _ := mtry (CachePathInfo p info) in mret tt
                | _ => mret tt
                end s1) as [u s2] eqn:Ecp.
      assert (Hs2 : objects s2 = objects s1 /\ paths s2 = paths s1 /\
                    (forall x, x <> p -> cache s2 !! x = cache s1 !! x) /\ u = Ok tt).
      { destruct r as [[hh|] f]; cbn in Ecp.
        - unfold mbind, mtry in Ecp. destruct (CachePathInfo p info s1) as [res s'] eqn:EC.
          injection Ecp as <- <-. apply CachePathInfo_frame in EC as (? & ? & ?). auto.
        - injection Ecp as <- <-. auto. }
      destruct Hs2 as (Eo2 & Ep2 & Ec2 & ->).
      exists s2. split.
      { rewrite (mbind_run _ _ _ None st) by (unfold readCached; rewrite Em; reflexivity).
        rewrite (mbind_run _ _ _ (Some (NewHash P data)) s1)
          by (unfold mwrap; rewrite StoreObject_step; reflexivity).
        rewrite (mbind_run _ _ _ (Ok r) s1) by (unfold mtry; rewrite Hsm; reflexivity).
        rewrite (mbind_run _ _ _ tt s2) by exact Ecp. reflexivity. }
      split; [unfold consistent; rewrite Eo2; exact Hc1|].
      split; [rewrite Eo2; exact Hs1|].
      intros x Hx. split; [rewrite Ep2; reflexivity|].
      rewrite Ec2; [reflexivity|]. intros ->. apply Hx, under_refl.
  - destruct H as [Hf Hmeta]. rewrite current_entry_link.
    destruct (insert_object_consistent P st target HP Hc) as [Hc1 Hs1].
    set (s1 := set_objects (<[NewHash P target := target]> (objects st)) st) in *.
    exists s1. split.
    { rewrite (mbind_run _ _ _ (Some (NewHash P target)) s1)
        by (unfold mwrap; rewrite StoreObject_step; reflexivity).
      apply snapshotFileMetadata_shortcut; [|exact Hmeta].
      exact (FindSnapshot_mono p st s1 r Hf eq_refl Hs1). }
    split; [exact Hc1|]. split; [exact Hs1|]. intros x _. split; reflexivity.
  - destruct H as (t & Hk & Hf & Hmeta).
    destruct (entry_wf_dir info cs Hwf) as (_ & _ & Hnd & Hwfs).
    assert (HF : Forall (fun nc : string * Entry => forall st q r, consistent P st ->
              Settled P AD st q nc.2 r ->
              exists st', current_entry P AD q nc.2 st = (Ok r, st') /\ consistent P st' /\
                objects st ⊆ objects st' /\ (forall x, ~ under q x -> agree_at st st' x)) cs).
    { apply Forall_forall. intros nc Hin st0 q r0 Hc0 Hs0.
      rewrite Forall_forall in IHcs, Hwfs.
      exact (IHcs nc Hin st0 q r0 HP Hc0 (Hwfs nc Hin) Hs0). }
    destruct (children_loop_second P AD p cs ∅ t st HP Hc Hnd HF Hk) as (s1 & Hl & Hc1 & Hs1 & Ha1).
    destruct (insert_object_consistent P s1 (Tree_String P t) HP Hc1) as [Hc2 Hs2].
    set (s2 := set_objects (<[NewHash P (Tree_String P t) := Tree_String P t]> (objects s1)) s1) in *.
    assert (Hap : forall x, ~ under p x -> agree_at st s1 x).
    { intros x Hx. apply Ha1. intros n _ Hu. apply Hx. exact (under_child_parent _ _ _ Hu). }
    exists s2. split.
    { rewrite current_entry_dir, (mbind_run _ _ _ t s1 Hl).
      rewrite (mbind_run _ _ _ (Some (NewHash P (Tree_String P t))) s2) by apply StoreObject_step.
      apply snapshotFileMetadata_shortcut; [|exact Hmeta].
      apply (FindSnapshot_mono p st s2 r Hf); [|etrans; [exact Hs1|exact Hs2]].
      cbn [s2 set_objects paths]. apply Ha1. intros n _. apply not_under_child_self. }
    split; [exact Hc2|]. split; [etrans; [exact Hs1|exact Hs2]|].
    intros x Hx. exact (Hap x Hx).
Qed.

Lemma entry_wf_leaf info :
  (forall data, entry_wf (ERegular info data) = true ->
     has_char nl (fi_mode info) = false /\ String.prefix "d" (fi_mode info) = false) /\
  (forall target, entry_wf (ESymlink info target) = true ->
     has_char nl (fi_mode info) = false /\ String.prefix "d" (fi_mode info) = false).
Proof.
  split; intros x; simpl; intros H; apply andb_true_iff in H as [H1 H2];
    apply negb_true_iff in H1, H2; auto.
Qed.

(** The first run of the children loop leaves every child settled. *)
Lemma children_loop_first P AD p cs : forall t0 t st s1,
  prims_ok P -> consistent P st -> NoDup (map fst cs) -> tree_wf t0 ->
  Forall (fun nc : string * Entry => forall st q r st1, consistent P st ->
    current_entry P AD q nc.2 st = (Ok r, st1) ->
    Settled P AD st1 q nc.2 r /\ consistent P st1 /\ objects st ⊆ objects st1 /\
    (forall x, ~ under q x -> agree_at st st1 x)) cs ->
  children_loop (current_entry P AD) AD p cs t0 st = (Ok t, s1) ->
  kids_settled (Settled P AD s1) AD p cs t0 t /\ consistent P s1 /\ objects st ⊆ objects s1 /\
  (forall x, (forall name, name ∈ map fst cs -> ~ under (Path_Join p name) x) -> agree_at st s1 x) /\
  tree_wf t.
Proof.
  induction cs as [|[name ce] cs IH]; intros t0 t st s1 HP Hc Hnd Hw HF H.
  - injection H as <- <-. split; [reflexivity|]. split; [exact Hc|]. split; [reflexivity|].
    split; [intros x _; split; reflexivity | exact Hw].
  - inversion HF as [|nc cs' Hce HF']; subst. cbn [snd] in Hce.
    cbn [map] in Hnd. apply NoDup_cons in Hnd as [Hnin Hnd].
    cbn [children_loop] in H. apply mbind_Ok in H as (rc & s' & H1 & H). apply mwrap_Ok in H1.
    cbn [kids_settled]. destruct (Exclude AD (Path_Join p name)) eqn:Ex.
    + injection H1 as <- <-. cbn [fst] in H.
      destruct (IH t0 t st s1 HP Hc Hnd Hw HF' H) as (Hk & Hc1 & Hs1 & Ha1 & Hw1).
      split; [exact Hk|]. split; [exact Hc1|]. split; [exact Hs1|]. split; [|exact Hw1].
      intros x Hx. apply Ha1. intros n Hn. apply Hx. right. exact Hn.
    + destruct (Hce st _ rc s' Hc H1) as (Hset & Hc' & Hs' & Ha').
      destruct (Settled_hash _ _ _ _ _ _ Hset) as (hh & Hrc & Hhh).
      assert (Hw' : tree_wf (tree_add t0 name rc)).
      { unfold tree_add. rewrite Hrc. apply map_Forall_insert_2; [eauto | exact Hw]. }
      destruct (IH (tree_add t0 name rc) t s' s1 HP Hc' Hnd Hw' HF' H) as (Hk & Hc1 & Hs1 & Ha1 & Hw1).
      split.
      { exists rc. split; [|exact Hk].
        apply (Settled_mono P AD ce s' s1 _ rc Hs1); [|exact Hset].
        intros x Hx. apply Ha1. intros n Hn Hu.
        apply (under_disjoint p n name x); [|exact Hx|exact Hu].
        intros ->. apply Hnin. exact Hn. }
      split; [exact Hc1|]. split; [etrans; [exact Hs'|exact Hs1]|]. split; [|exact Hw1].
      intros x Hx. destruct (Ha' x (Hx name (list_elem_of_here _ _))) as [E1 F1].
      destruct (Ha1 x (fun n Hn => Hx n (list_elem_of_further _ _ _ Hn))) as [E2 F2].
      split; congruence.
Qed.

(** After a successful [current p e], the store is settled on its
    result, and nothing outside the subtree of [p] has changed. *)
Lemma current_entry_first P AD e : forall st p r st1,
  prims_ok P -> consistent P st -> entry_wf e = true ->
  current_entry P AD p e st = (Ok r, st1) ->
  Settled P AD st1 p e r /\ consistent P st1 /\ objects st ⊆ objects st1 /\
  (forall x, ~ under p x -> agree_at st st1 x).
Proof.
  induction e as [info data|info target|info cs IHcs] using Entry_nested_ind;
    intros st p r st1 HP Hc Hwf H.
  - destruct (proj1 (entry_wf_leaf info) data Hwf) as [Hnl Hnd].
    rewrite current_entry_reg in H. apply mbind_Ok in H as (cached & s0 & Hrc & H).
    assert (Hnone : forall s, s = st ->
      (let* h := mwrap "failure storing an object" (StoreObject P data) in
       let* r := mtry (snapshotFileMetadata P p info h) in
       let* _ := (match r with
                  | Ok (Some _, _) => let* _ := mtry (CachePathInfo p info) in mret tt
                  | _ => mret tt
                  end) in
       lift r) s = (Ok r, st1) ->
      Settled P AD st1 p (ERegular info data) r /\ consistent P st1 /\ objects st ⊆ objects st1 /\
      (forall x, ~ under p x -> agree_at st st1 x)).
    { intros s -> Hn.
      apply mbind_Ok in Hn as (h & s1 & Hs1 & Hn). apply mwrap_Ok, StoreObject_run in Hs1 as [[= ->] ->].
      apply mbind_Ok in Hn as (res & s2 & Hs2 & Hn).
      unfold mtry in Hs2.
      destruct (snapshotFileMetadata P p info (Some (NewHash P data))
                  (set_objects (<[NewHash P data:=data]> (objects st)) st)) as [res0 s2'] eqn:Esm.
      injection Hs2 as <- <-.
      apply mbind_Ok in Hn as (u & s3 & Hs3 & Hn). injection Hn as -> <-.
      destruct (insert_object_consistent P st data HP Hc) as [Hc1 Hsub1].
      destruct (snapshotFileMetadata_first P p info (NewHash P data) ∅ _ r s2' HP Hc1
                  (NewHash_wf P data HP) Hnl) as (Hf & Hm & Hc2 & Hsub2 & Hca2 & Hp2);
        [intros Hd; congruence | reflexivity | exact Esm |].
      assert (Hs3' : objects s3 = objects s2' /\ paths s3 = paths s2' /\
                     forall x, x <> p -> cache s3 !! x = cache s2' !! x).
      { destruct r as [[hh|] f]; cbn in Hs3.
        - unfold mbind, mtry in Hs3. destruct (CachePathInfo p info s2') as [res s'] eqn:EC.
          injection Hs3 as _ <-. apply CachePathInfo_frame in EC. exact EC.
        - injection Hs3 as _ <-. auto. }
      destruct Hs3' as (Eo3 & Ep3 & Ec3).
      split; [split; [|right; exact Hm]|].
      { apply (FindSnapshot_mono p s2'); [exact Hf | rewrite Ep3; reflexivity | rewrite Eo3; reflexivity]. }
      split; [unfold consistent; rewrite Eo3; exact Hc2|].
      split; [rewrite Eo3; etrans; [exact Hsub1|exact Hsub2]|].
      intros x Hx. assert (Hxp : x <> p) by (intros ->; apply Hx, under_refl).
      split.
      - rewrite Ep3, (Hp2 x Hxp (or_introl Hx)). reflexivity.
      - rewrite (Ec3 x Hxp), Hca2. reflexivity. }
    unfold readCached in Hrc. destruct (PathInfoMatchesCache p info st) eqn:Em.
    + pose proof (FindSnapshot_state p st) as Hs.
      destruct (FindSnapshot p st) as [[r0|e0] s'] eqn:EF; cbn [snd] in Hs; subst s';
        injection Hrc as <- <-.
      * injection H as <- <-. split; [|split; [exact Hc|split; [reflexivity|intros x _; split; reflexivity]]].
        split; [rewrite EF; reflexivity | left; exact Em].
      * exact (Hnone st eq_refl H).
    + injection Hrc as <- <-. exact (Hnone st eq_refl H).
  - destruct (proj2 (entry_wf_leaf info) target Hwf) as [Hnl Hnd].
    rewrite current_entry_link in H.
    apply mbind_Ok in H as (h & s1 & Hs1 & H). apply mwrap_Ok, StoreObject_run in Hs1 as [[= ->] ->].
    destruct (insert_object_consistent P st target HP Hc) as [Hc1 Hsub1].
    destruct (snapshotFileMetadata_first P p info (NewHash P target) ∅ _ r st1 HP Hc1
                (NewHash_wf P target HP) Hnl) as (Hf & Hm & Hc2 & Hsub2 & Hca2 & Hp2);
      [intros Hd; congruence | reflexivity | exact H |].
    split; [split; [exact Hf | exact Hm]|].
    split; [exact Hc2|]. split; [etrans; [exact Hsub1|exact Hsub2]|].
    intros x Hx. assert (Hxp : x <> p) by (intros ->; apply Hx, under_refl).
    split; [rewrite (Hp2 x Hxp (or_introl Hx)); reflexivity | rewrite Hca2; reflexivity].
  - destruct (entry_wf_dir info cs Hwf) as (Hnl & Hd & Hnd & Hwfs).
    rewrite current_entry_dir in H.
    apply mbind_Ok in H as (t & s1 & Hl & H).
    apply mbind_Ok in H as (ch & s2 & Hs2 & H). apply StoreObject_run in Hs2 as [[= ->] ->].
    assert (HF : Forall (fun nc : string * Entry => forall st q r st1, consistent P st ->
      current_entry P AD q nc.2 st = (Ok r, st1) ->
      Settled P AD st1 q nc.2 r /\ consistent P st1 /\ objects st ⊆ objects st1 /\
      (forall x, ~ under q x -> agree_at st st1 x)) cs).
    { apply Forall_forall. intros nc Hin st0 q r0 st0' Hc0 H0.
      rewrite Forall_forall in IHcs, Hwfs.
      exact (IHcs nc Hin st0 q r0 st0' HP Hc0 (Hwfs nc Hin) H0). }
    destruct (children_loop_first P AD p cs ∅ t st s1 HP Hc Hnd (map_Forall_empty _) HF Hl)
      as (Hk & Hc1 & Hsub1 & Ha1 & Hw).
    destruct (insert_object_consistent P s1 (Tree_String P t) HP Hc1) as [Hc2 Hsub2].
    destruct (snapshotFileMetadata_first P p info (NewHash P (Tree_String P t)) t _ r st1 HP Hc2
                (NewHash_wf P _ HP) Hnl) as (Hf & Hm & Hc3 & Hsub3 & Hca3 & Hp3);
      [intros _; split; [apply lookup_insert_eq | exact Hw] | intros Hd'; congruence | exact H |].
    cbn [set_objects paths cache objects] in Hca3, Hp3.
    split.
    { exists t. split; [|split; [exact Hf | exact Hm]].
      apply (kids_settled_mono P AD s1 st1 p cs); [| |exact Hk].
      - apply Forall_forall. intros nc _ q r0 Hq Hag.
        refine (Settled_mono P AD nc.2 s1 st1 q r0 _ Hag Hq).
        etrans; [exact Hsub2|exact Hsub3].
      - intros name ce x Hin Hex [rest ->]. split.
        + apply Hp3.
          * intros Heq. apply (not_under_child_self p name). exists rest. symmetry. exact Heq.
          * right. exists name, rest. split; [unfold Path_Join; rewrite <- app_assoc; reflexivity|].
            exact (proj1 (proj2 (kids_settled_keys P AD s1 p cs ∅ t Hk)) name ce Hin Hex).
        + rewrite Hca3. reflexivity. }
    split; [exact Hc3|]. split; [etrans; [exact Hsub1|]; etrans; [exact Hsub2|exact Hsub3]|].
    intros x Hx. assert (Hxp : x <> p) by (intros ->; apply Hx, under_refl).
    destruct (Ha1 x) as [E1 F1].
    { intros n _ Hu. apply Hx. exact (under_child_parent _ _ _ Hu). }
    split; [rewrite (Hp3 x Hxp (or_introl Hx)); exact E1 | rewrite Hca3; exact F1].
Qed.

(* ------------------------------------------------------------------ *)
(** ** The executable primitives meet [prims_ok] *)

Lemma hex_byte_check_ok a : hex_byte_check a = true.
Proof. destruct a as [[] [] [] [] [] [] [] []]; vm_compute; reflexivity. Qed.

Lemma hex_byte_facts a : exists x y xv yv,
  hex_byte a = String x (String y EmptyString) /\ hex_val x = Some xv /\ hex_val y = Some yv /\
  ascii_of_nat (16 * xv + yv) = a /\ is_hex_char x = true /\ is_hex_char y = true /\
  Ascii.eqb space x = false /\ Ascii.eqb space y = false /\
  Ascii.eqb nl x = false /\ Ascii.eqb nl y = false.
Proof.
  pose proof (hex_byte_check_ok a) as H. unfold hex_byte_check in H.
  destruct (hex_byte a) as [|x [|y [|]]]; try discriminate.
  destruct (hex_val x) as [xv|] eqn:Ex, (hex_val y) as [yv|] eqn:Ey; try discriminate.
  repeat (apply andb_true_iff in H as [H ?]). apply Ascii.eqb_eq in H.
  repeat match goal with Hn : negb _ = true |- _ => apply negb_true_iff in Hn end.
  exists x, y, xv, yv. auto 12.
Qed.

Lemma hex_encode_cons a s : exists x y,
  hex_encode (String a s) = String x (String y (hex_encode s)) /\
  (forall xv yv, hex_val x = Some xv -> hex_val y = Some yv -> ascii_of_nat (16 * xv + yv) = a) /\
  is_Some (hex_val x) /\ is_Some (hex_val y) /\
  is_hex_char x = true /\ is_hex_char y = true /\
  Ascii.eqb space x = false /\ Ascii.eqb space y = false /\
  Ascii.eqb nl x = false /\ Ascii.eqb nl y = false.
Proof.
  destruct (hex_byte_facts a) as (x & y & xv & yv & Hb & Hx & Hy & Ha & Hr).
  exists x, y. cbn [hex_encode]. rewrite Hb. split; [reflexivity|].
  split; [intros xv' yv' Hx' Hy'; congruence|]. rewrite Hx, Hy.
  split; [eexists; reflexivity|]. split; [eexists; reflexivity|]. auto.
Qed.

Lemma hex_roundtrip s : hex_decode (hex_encode s) = Ok s.
Proof.
  induction s as [|a s IH]; [reflexivity|].
  destruct (hex_encode_cons a s) as (x & y & -> & Ha & Hx & Hy & _).
  destruct Hx as [xv Ex], Hy as [yv Ey].
  cbn [hex_decode]. rewrite Ex, Ey. unfold rbind. rewrite IH, (Ha xv yv Ex Ey). reflexivity.
Qed.

Lemma hex_encode_props s :
  Nat.even (String.length (hex_encode s)) = true /\
  forallb is_hex_char (list_ascii_of_string (hex_encode s)) = true /\
  has_char space (hex_encode s) = false /\ has_char nl (hex_encode s) = false.
Proof.
  induction s as [|a s IH]; [auto|].
  destruct (hex_encode_cons a s) as (x & y & -> & _ & _ & _ & Hx & Hy & Hsx & Hsy & Hnx & Hny).
  destruct IH as (He & Hf & Hs & Hn). unfold has_char in *. cbn [String.length Nat.even list_ascii_of_string forallb existsb].
  rewrite He, Hf, Hs, Hn, Hx, Hy, Hsx, Hsy, Hnx, Hny. auto.
Qed.

Lemma hexPrims_ok : prims_ok hexPrims.
Proof.
  split; [|split; [|split]]; cbn [digest encodePath decodePath hexPrims].
  - intros a b H. apply (f_equal hex_decode) in H. rewrite !hex_roundtrip in H. congruence.
  - intros a. destruct (hex_encode_props a) as (He & Hf & _). unfold hex_DecodeString_ok. rewrite He, Hf. reflexivity.
  - exact hex_roundtrip.
  - intros s. destruct (hex_encode_props s) as (_ & _ & Hs & Hn). auto.
Qed.

(* ------------------------------------------------------------------ *)
(** ** Running [Current] twice *)

(** C3: two successive [Current p] calls with no filesystem change in
    between return the same (hash, file) pair: after the first call
    every regular file is either cached or has its snapshot with the
    same mode and contents hash recorded, so the second call takes the
    cache fast path or the metadata shortcut throughout. This holds
    for an injective digest, a store whose objects lie under their own
    hashes, and entries as [os.Lstat] reports them. *)
Theorem Current_twice P AD p e st r st1 :
  prims_ok P -> consistent P st ->
  match e with Some e => entry_wf e = true | None => True end ->
  Current P AD p e st = (Ok r, st1) ->
  exists st2, Current P AD p e st1 = (Ok r, st2).
Proof.
  intros HP Hc Hwf H. unfold Current in *.
  destruct (Exclude AD p); [injection H as <- _; exists st1; reflexivity|].
  destruct e as [e|]; [|injection H as <- _; exists st1; reflexivity].
  destruct (current_entry_first P AD e st p r st1 HP Hc Hwf H) as (Hs & Hc1 & _).
  destruct (current_entry_second P AD e st1 p r HP Hc1 Hwf Hs) as (st2 & E & _).
  exists st2. exact E.
Qed.

Lemma Current_twice_witness :
  exists r st1,
    Current hexPrims ["tmp"; "archive"] ["tmp"] (Some sample_dir) empty_store = (Ok r, st1) /\
    fst r <> None /\
    exists st2, Current hexPrims ["tmp"; "archive"] ["tmp"] (Some sample_dir) st1 = (Ok r, st2).
Proof.
  assert (Hb : match fst (Current hexPrims ["tmp"; "archive"] ["tmp"] (Some sample_dir) empty_store) with
               | Ok (Some _, _) => true | _ => false end = true) by (vm_compute; reflexivity).
  revert Hb.
  destruct (Current hexPrims ["tmp"; "archive"] ["tmp"] (Some sample_dir) empty_store)
    as [[[[h|] f]|err] st1] eqn:E; cbn [fst]; intros Hb; try discriminate Hb.
  exists (Some h, f), st1. split; [reflexivity|]. split; [discriminate|].
  apply (Current_twice hexPrims ["tmp"; "archive"] ["tmp"] (Some sample_dir) empty_store (Some h, f) st1).
  - exact hexPrims_ok.
  - apply map_Forall_empty.
  - vm_compute. reflexivity.
  - exact E.
Defined.

(* ================================================================== *)
(** * Further properties of the code *)

(* ------------------------------------------------------------------ *)
(** ** File permissions *)

Lemma testbit_lxor_pow2 a n k :
  N.testbit (N.lxor a (N.shiftl 1 n)) k = xorb (N.testbit a k) (N.eqb n k).
Proof. rewrite N.lxor_spec, N.shiftl_1_l, N.pow2_bits_eqb. reflexivity. Qed.

(** Bit [k] of the loop's result is flipped once for a ['-'] at offset
    [8 - k] of the permission string. *)
Lemma perm_loop_testbit s : forall i perm k,
  (i + String.length s <= 9)%nat ->
  N.testbit (perm_loop i s perm) k =
    xorb (N.testbit perm k)
      (if ((N.to_nat k <? 9) && (i <=? 8 - N.to_nat k))%nat
       then match String.get (8 - N.to_nat k - i) s with
            | Some c => Ascii.eqb c "-"%char
            | None => false
            end
       else false).
Proof.
  induction s as [|c s IH]; intros i perm k Hlen; cbn [perm_loop String.length] in *.
  - destruct (_ && _); [destruct (8 - N.to_nat k - i)%nat|]; cbn; rewrite ?xorb_false_r; reflexivity.
  - rewrite (IH (S i)) by lia.
    assert (Hb : N.testbit (if Ascii.eqb c "-"%char then N.lxor perm (N.shiftl 1 (N.of_nat (8 - i))) else perm) k
                 = xorb (N.testbit perm k) (Ascii.eqb c "-"%char && N.eqb (N.of_nat (8 - i)) k)).
    { destruct (Ascii.eqb c "-"%char); [apply testbit_lxor_pow2 | cbn; rewrite xorb_false_r; reflexivity]. }
    rewrite Hb, xorb_assoc. f_equal.
    destruct (N.to_nat k <? 9)%nat eqn:Hk9; cbn [andb].
    + apply Nat.ltb_lt in Hk9.
      destruct (i <=? 8 - N.to_nat k)%nat eqn:Hi.
      * apply Nat.leb_le in Hi.
        destruct (Nat.eq_dec (8 - N.to_nat k) i) as [He|He].
        -- assert (Hs : (S i <=? 8 - N.to_nat k)%nat = false) by (apply Nat.leb_gt; lia).
           rewrite Hs. replace (8 - N.to_nat k - i)%nat with 0%nat by lia. cbn [String.get].
           assert (Hn : N.eqb (N.of_nat (8 - i)) k = true) by (apply N.eqb_eq; lia).
           rewrite Hn. destruct (Ascii.eqb c "-"%char); reflexivity.
        -- assert (Hs : (S i <=? 8 - N.to_nat k)%nat = true) by (apply Nat.leb_le; lia).
           rewrite Hs. replace (8 - N.to_nat k - i)%nat with (S (8 - N.to_nat k - S i)) by lia.
           cbn [String.get].
           assert (Hn : N.eqb (N.of_nat (8 - i)) k = false) by (apply N.eqb_neq; lia).
           rewrite Hn, andb_false_r. reflexivity.
      * apply Nat.leb_gt in Hi.
        assert (Hs : (S i <=? 8 - N.to_nat k)%nat = false) by (apply Nat.leb_gt; lia).
        assert (Hn : N.eqb (N.of_nat (8 - i)) k = false) by (apply N.eqb_neq; lia).
        rewrite Hs, Hn, andb_false_r. reflexivity.
    + apply Nat.ltb_ge in Hk9.
      assert (Hn : N.eqb (N.of_nat (8 - i)) k = false) by (apply N.eqb_neq; lia).
      rewrite Hn, andb_false_r. reflexivity.
Qed.

Lemma get_lt n s : (n < String.length s)%nat -> String.get n s <> None.
Proof.
  revert n. induction s as [|a s IH]; intros n H; cbn [String.length] in H; [lia|].
  destruct n as [|n]; cbn [String.get]; [discriminate | apply IH; lia].
Qed.

Lemma substring_length_le n m s :
  (n + m <= String.length s)%nat -> String.length (substring n m s) = m.
Proof.
  revert n m. induction s as [|a s IH]; intros n m H; cbn [String.length] in H.
  - assert (n = 0 /\ m = 0)%nat as [-> ->] by lia. reflexivity.
  - destruct n as [|n]; cbn [substring].
    + destruct m as [|m]; [reflexivity|]. cbn [String.length]. f_equal.
      apply (IH 0%nat). lia.
    + apply IH. lia.
Qed.

(** [File.Permissions]: a nil file or a mode shorter than 9 bytes gives
    [0700]; otherwise bit [k] of the result is set exactly when [k < 9]
    and the [k]-th byte from the end of the mode is not ['-']. *)
Theorem File_Permissions_bits (f : option File) :
  (match f with None => True | Some f => (String.length (Mode f) < 9)%nat end ->
     File_Permissions f = 448%N) /\
  (forall fl, f = Some fl -> (9 <= String.length (Mode fl))%nat ->
     forall k, N.testbit (File_Permissions f) k =
       ((k <? 9)%N && match String.get (String.length (Mode fl) - 1 - N.to_nat k) (Mode fl) with
                      | Some c => negb (Ascii.eqb c "-"%char)
                      | None => false
                      end)).
Proof.
  split.
  - destruct f as [fl|]; [|reflexivity]. intros H. cbn [File_Permissions].
    apply Nat.ltb_lt in H. rewrite H. reflexivity.
  - intros fl -> Hlen k. cbn [File_Permissions].
    assert (Hl : (String.length (Mode fl) <? 9)%nat = false) by (apply Nat.ltb_ge; exact Hlen).
    rewrite Hl. set (m := Mode fl) in *.
    rewrite perm_loop_testbit by (rewrite substring_length_le by lia; lia).
    change 511%N with (N.ones 9).
    destruct (N.ltb_spec k 9) as [Hk|Hk].
    + rewrite N.ones_spec_low by exact Hk.
      assert (Hk' : (N.to_nat k < 9)%nat) by lia.
      assert (E1 : ((N.to_nat k <? 9) && (0 <=? 8 - N.to_nat k))%nat = true)
        by (apply andb_true_iff; split; [apply Nat.ltb_lt | apply Nat.leb_le]; lia).
      rewrite E1, substring_correct1 by lia.
      replace (8 - N.to_nat k - 0 + (String.length m - 9))%nat
        with (String.length m - 1 - N.to_nat k)%nat by lia.
      destruct (String.get _ m) as [c|] eqn:Eg.
      * destruct (Ascii.eqb c "-"%char); reflexivity.
      * exfalso. refine (get_lt _ m _ Eg). lia.
    + rewrite N.ones_spec_high by exact Hk.
      assert (E1 : (N.to_nat k <? 9)%nat = false) by (apply Nat.ltb_ge; lia).
      rewrite E1. reflexivity.
Qed.

Lemma File_Permissions_bits_witness :
  File_Permissions (Some (mkFile "rwx" None [])) = 448%N /\
  N.testbit (File_Permissions (Some (mkFile "-rwxr-x---" None []))) 3 = true /\
  N.testbit (File_Permissions (Some (mkFile "-rwxr-x---" None []))) 4 = false.
Proof.
  split; [apply (proj1 (File_Permissions_bits (Some (mkFile "rwx" None [])))); cbn; lia|].
  split.
  - rewrite (proj2 (File_Permissions_bits (Some (mkFile "-rwxr-x---" None []))) _ eq_refl)
      by (cbn; lia). reflexivity.
  - rewrite (proj2 (File_Permissions_bits (Some (mkFile "-rwxr-x---" None []))) _ eq_refl)
      by (cbn; lia). reflexivity.
Defined.

(* ------------------------------------------------------------------ *)
(** ** Identities *)

Lemma split_first_dcolon_app a c :
  has_char colon a = false ->
  split_first_dcolon (String.append a (String.append "::" c)) = Some (a, c).
Proof.
  unfold has_char. induction a as [|x a IH]; intros H; [reflexivity|].
  cbn [list_ascii_of_string existsb] in H. apply orb_false_iff in H as [Hx Ha].
  rewrite Ascii.eqb_sym in Hx. specialize (IH Ha).
  cbn [String.append] in IH |- *. cbn [split_first_dcolon]. rewrite IH, Hx.
  destruct a; reflexivity.
Qed.

(** [ParseIdentity] inverts [Identity.String] for identities whose
    algorithm name holds no colon (the contents are arbitrary), and
    maps the empty string to the nil identity. *)
Theorem ParseIdentity_String (i : option Identity) :
  match i with Some i => has_char colon (algorithm i) = false | None => True end ->
  ParseIdentity (Identity_String i) = Ok i.
Proof.
  destruct i as [[alg c]|]; [|reflexivity]. intros H. cbn [algorithm] in H.
  unfold ParseIdentity, Identity_String. cbn [algorithm id_contents].
  assert (Hne : String.eqb (String.append alg (String.append "::" c)) "" = false) by (destruct alg; reflexivity).
  rewrite Hne, split_first_dcolon_app by exact H. reflexivity.
Qed.

Lemma ParseIdentity_String_witness :
  ParseIdentity "ssh-ed25519::AAAA::key" = Ok (Some (mkIdentity "ssh-ed25519" "AAAA::key")).
Proof. apply (ParseIdentity_String (Some (mkIdentity "ssh-ed25519" "AAAA::key"))). reflexivity. Defined.

(* ------------------------------------------------------------------ *)
(** ** Summaries of changes *)

Lemma string_ltb_irrefl s : String.ltb s s = false.
Proof.
  unfold String.ltb. induction s as [|a s IH]; [reflexivity|].
  cbn. rewrite Ascii.compare_antisym.
  destruct (Ascii.compare a a) eqn:E; cbn; [exact IH| |].
  - unfold Ascii.compare in E. rewrite N.compare_refl in E. discriminate.
  - unfold Ascii.compare in E. rewrite N.compare_refl in E. discriminate.
Qed.

Lemma describe_loop_same t c ps : forall changes,
  describe_loop t c c ps ps changes = changes.
Proof.
  induction ps as [|p ps IH]; intros changes; cbn [describe_loop map].
  - rewrite app_nil_r. reflexivity.
  - cbn [drop_before]. rewrite string_ltb_irrefl, String.eqb_refl, Hash_Equal_refl. apply IH.
Qed.

(** [describeChanged] reports nothing when a snapshot is compared with
    an identical one: same paths, same contents. *)
Theorem describeChanged_same (isTerminal : bool) (contents : gmap string (option Hash)) (paths : list string) :
  describeChanged isTerminal contents contents paths paths = [].
Proof. apply describe_loop_same. Qed.

Lemma describe_loop_fresh t c pc ps : forall changes,
  describe_loop t c pc ps [] changes =
    (changes ++ flat_map (fun p => match map_get c p with
                                   | Some h => [insertLine t p (Some h)]
                                   | None => []
                                   end) ps)%list.
Proof.
  induction ps as [|p ps IH]; intros changes; cbn [describe_loop drop_before flat_map map].
  - reflexivity.
  - destruct (map_get c p) as [h|]; cbn [Hash_Equal].
    + rewrite IH, <- app_assoc. reflexivity.
    + rewrite IH. reflexivity.
Qed.

(** [describeChanged] against no previous paths inserts exactly the
    paths with a non-nil hash, in order; with no current paths it
    deletes every previous path, in order. *)
Theorem describeChanged_one_sided (isTerminal : bool) (contents previousContents : gmap string (option Hash))
    (paths previousPaths : list string) :
  describeChanged isTerminal contents previousContents paths [] =
    flat_map (fun p => match map_get contents p with
                       | Some h => [insertLine isTerminal p (Some h)]
                       | None => []
                       end) paths /\
  describeChanged isTerminal contents previousContents [] previousPaths =
    map (fun d => deleteLine isTerminal d (map_get previousContents d)) previousPaths.
Proof.
  split; [apply describe_loop_fresh | reflexivity].
Qed.

(* ------------------------------------------------------------------ *)
(** ** Trees *)

Lemma insert_sorted_perm x l : insert_sorted x l ≡ₚ x :: l.
Proof.
  induction l as [|y l IH]; simpl; [reflexivity|].
  destruct (String.leb x y); [reflexivity|].
  rewrite IH. apply Permutation_swap.
Qed.

Lemma sort_Strings_perm l : sort_Strings l ≡ₚ l.
Proof.
  induction l as [|x l IH]; simpl; [reflexivity|].
  rewrite insert_sorted_perm. f_equiv. exact IH.
Qed.

Lemma tree_lines_omap P (l : list (string * option Hash)) :
  Forall (fun kv => is_Some kv.2) l ->
  omap (fun ph : string * option Hash => match ph.2 with
          | Some _ => Some (String.append (encodePath P ph.1) (String space (Hash_String ph.2)))
          | None => None end) l =
  map (fun ph : string * option Hash =>
         String.append (encodePath P ph.1) (String space (Hash_String ph.2))) l.
Proof.
  induction l as [|[k v] l IH]; intros Hl; [reflexivity|].
  apply Forall_cons in Hl as [[h Hv] Hl]. cbn [snd] in Hv. subst v.
  cbn. rewrite IH by exact Hl. reflexivity.
Qed.

Lemma parse_tree_lines_map P (l : list (string * option Hash)) : forall t0,
  prims_ok P -> NoDup l.*1 ->
  Forall (fun kv => exists h, kv.2 = Some h /\ hash_wf h) l ->
  exists t1, parse_tree_lines P (map (fun ph : string * option Hash =>
         String.append (encodePath P ph.1) (String space (Hash_String ph.2))) l) t0 = Ok t1 /\
    forall k, t1 !! k = match (list_to_map l : Tree) !! k with Some v => Some v | None => t0 !! k end.
Proof.
  induction l as [|[k0 v0] l IH]; intros t0 HP Hnd Hl.
  - exists t0. split; [reflexivity|]. intros k. reflexivity.
  - apply Forall_cons in Hl as [(h0 & Hv & Hh) Hl]. cbn [snd] in Hv. subst v0.
    cbn [fmap list_fmap fst] in Hnd. apply NoDup_cons in Hnd as [Hk0 Hnd].
    destruct (IH (<[k0 := Some h0]> t0) HP Hnd Hl) as (t1 & E1 & L1).
    exists t1. split.
    + cbn [map parse_tree_lines fst snd].
      destruct HP as (_ & _ & Hdec & Henc).
      assert (Hne : String.eqb (String.append (encodePath P k0) (String space (Hash_String (Some h0)))) "" = false)
        by (destruct (encodePath P k0); reflexivity).
      rewrite Hne, split_first_app by apply (proj1 (Henc k0)).
      unfold rbind, rwrap. rewrite Hdec, ParseHash_String by exact Hh. exact E1.
    + intros k. rewrite L1. unfold Tree in *. cbn [list_to_map foldr fst snd].
      destruct (decide (k = k0)) as [->|Hne].
      * rewrite !lookup_insert_eq, (not_elem_of_list_to_map_1 l k0 Hk0). reflexivity.
      * rewrite !lookup_insert_ne by congruence. reflexivity.
Qed.

(** [ParseTree] reads back what [Tree.String] writes: for a tree whose
    children all have a well-formed hash, parsing its encoding gives the
    same tree. *)
Theorem ParseTree_Tree_String P (t : Tree) :
  prims_ok P -> tree_wf t -> ParseTree P (Tree_String P t) = Ok t.
Proof.
  intros HP Ht.
  assert (Hl : Forall (fun kv => exists h, kv.2 = Some h /\ hash_wf h) (map_to_list t)).
  { apply Forall_forall. intros [k v] Hin. apply elem_of_map_to_list in Hin.
    destruct (Ht k v Hin) as (h & -> & Hh). eauto. }
  unfold ParseTree, Tree_String. rewrite tree_lines_omap.
  2: { eapply Forall_impl; [exact Hl|]. intros kv (h & -> & _). eauto. }
  set (line := fun ph : string * option Hash =>
         String.append (encodePath P ph.1) (String space (Hash_String ph.2))).
  destruct (Permutation_map_inv line (map_to_list t) (sort_Strings_perm (map line (map_to_list t))))
    as (l & El & Pl).
  rewrite El.
  assert (Hl' : Forall (fun kv => exists h, kv.2 = Some h /\ hash_wf h) l) by (rewrite <- Pl; exact Hl).
  assert (Hnd : NoDup l.*1) by (rewrite <- Pl; apply NoDup_fst_map_to_list).
  destruct (parse_tree_lines_map P l ∅ HP Hnd Hl') as (t1 & E1 & L1).
  assert (Et1 : t1 = t).
  { apply map_eq. intros k. rewrite L1. unfold Tree in *.
    rewrite <- (list_to_map_proper (map_to_list t) l) by (apply NoDup_fst_map_to_list || exact Pl).
    rewrite list_to_map_to_list. destruct (t !! k); reflexivity. }
  subst t1.
  destruct HP as (_ & _ & _ & Henc).
  assert (Hnl : Forall (fun y => has_char nl y = false) (map line l)).
  { apply Forall_forall. intros y Hy. apply list_elem_of_fmap in Hy as ([k v] & -> & Hin).
    rewrite Forall_forall in Hl'. destruct (Hl' _ Hin) as (h & Hv & Hh). cbn [snd] in Hv. subst v.
    unfold line. cbn [fst snd].
    pose proof (Hash_String_no_nl h Hh) as E.
    rewrite has_char_app, has_char_cons, (proj2 (Henc k)), E. reflexivity. }
  fold line in E1. destruct (map line l) as [|y ys] eqn:Em; rewrite ?Em in E1.
  - cbn in E1 |- *. exact E1.
  - apply Forall_cons in Hnl as [Hy Hys]. rewrite split_on_join by assumption. exact E1.
Qed.

Lemma ParseTree_Tree_String_witness :
  ParseTree hexPrims (Tree_String hexPrims {[ "a" := Some (NewHash hexPrims "x") ]}) =
    Ok {[ "a" := Some (NewHash hexPrims "x") ]}.
Proof.
  apply ParseTree_Tree_String; [apply hexPrims_ok|].
  intros k v Hv. apply lookup_singleton_Some in Hv as [_ <-].
  eexists. split; [reflexivity|]. apply NewHash_wf, hexPrims_ok.
Defined.

(* ------------------------------------------------------------------ *)
(** ** Hash strings *)

Lemma split_first_Some c s l r :
  split_first c s = Some (l, r) -> s = String.append l (String c r).
Proof.
  revert l r. induction s as [|a s IH]; intros l r H; simpl in H; [discriminate|].
  destruct (Ascii.eqb a c) eqn:E.
  - injection H as <- <-. apply Ascii.eqb_eq in E. subst a. reflexivity.
  - destruct (split_first c s) as [[l' r']|]; [|discriminate].
    injection H as <- <-. rewrite (IH l' r' eq_refl). reflexivity.
Qed.

(** [ParseHash] accepts exactly the strings [Hash.String] writes for
    well-formed hashes (and reads back that hash), and it returns nil
    exactly on the empty string. *)
Theorem ParseHash_exact (s : string) (h : Hash) :
  (ParseHash s = Ok (Some h) <-> hash_wf h /\ s = Hash_String (Some h)) /\
  (ParseHash s = Ok None <-> s = "").
Proof.
  split; split.
  - unfold ParseHash. destruct (String.eqb s "") eqn:Es; [discriminate|].
    destruct (split_first colon s) as [[fn hx]|] eqn:Esp; [|discriminate].
    destruct (supportedHashFunction fn) eqn:Ef; [|discriminate].
    destruct (hex_DecodeString_ok hx) eqn:Eh; [|discriminate].
    cbn [negb]. intros H. injection H as <-.
    unfold supportedHashFunction in Ef. apply String.eqb_eq in Ef.
    split; [split; assumption|].
    apply split_first_Some in Esp. exact Esp.
  - intros [Hh ->]. apply ParseHash_String, Hh.
  - unfold ParseHash. destruct (String.eqb s "") eqn:Es.
    + intros _. apply String.eqb_eq, Es.
    + destruct (split_first colon s) as [[fn hx]|]; [|discriminate].
      destruct (negb (supportedHashFunction fn)); [discriminate|].
      destruct (negb (hex_DecodeString_ok hx)); discriminate.
  - intros ->. reflexivity.
Qed.

(* ------------------------------------------------------------------ *)
(** ** Signatures of identities *)

(** Recording a well-formed signature for an identity succeeds; the
    identity's latest signature is then that hash, and the latest
    signature of an identity with a different string form is unchanged. *)
Theorem UpdateSignatureForIdentity_Latest (id id' : option Identity) (h : Hash) (st st1 : Store) (r : result unit) :
  hash_wf h -> UpdateSignatureForIdentity id (Some h) st = (r, st1) ->
  r = Ok tt /\
  fst (LatestSignatureForIdentity id st1) = Ok (Some h) /\
  (Identity_String id' <> Identity_String id ->
   fst (LatestSignatureForIdentity id' st1) = fst (LatestSignatureForIdentity id' st)).
Proof.
  intros Hh H. unfold UpdateSignatureForIdentity, mbind, mret, mmodify in H.
  injection H as <- <-. split; [reflexivity|]. split.
  - unfold LatestSignatureForIdentity. cbn [identities set_identities].
    rewrite lookup_insert_eq. cbn [fst]. change (String.append (function h) (String colon (hexContents h))) with (Hash_String (Some h)). rewrite ParseHash_String by exact Hh. reflexivity.
  - intros Hne. unfold LatestSignatureForIdentity. cbn [identities set_identities].
    rewrite lookup_insert_ne by congruence. destruct (identities st !! Identity_String id'); reflexivity.
Qed.

Lemma UpdateSignatureForIdentity_Latest_witness :
  let run := UpdateSignatureForIdentity (Some (mkIdentity "ssh-ed25519" "AAAA")) (Some (NewHash hexPrims "x")) empty_store in
  fst run = Ok tt /\
  fst (LatestSignatureForIdentity (Some (mkIdentity "ssh-ed25519" "AAAA")) (snd run)) = Ok (Some (NewHash hexPrims "x")) /\
  (Identity_String (Some (mkIdentity "ssh-rsa" "BBBB")) <> Identity_String (Some (mkIdentity "ssh-ed25519" "AAAA")) ->
   fst (LatestSignatureForIdentity (Some (mkIdentity "ssh-rsa" "BBBB")) (snd run)) =
   fst (LatestSignatureForIdentity (Some (mkIdentity "ssh-rsa" "BBBB")) empty_store)).
Proof.
  intros run. apply UpdateSignatureForIdentity_Latest.
  - apply NewHash_wf, hexPrims_ok.
  - apply surjective_pairing.
Defined.

(* ------------------------------------------------------------------ *)
(** ** Storing and finding snapshots *)

(** [FindSnapshot p] after a successful [StoreSnapshot p f] of a
    well-formed file finds the stored snapshot: the hash of [f] that
    [StoreSnapshot] returned, and [f] itself. *)
Theorem StoreSnapshot_FindSnapshot P p f st h st1 :
  prims_ok P -> file_wf f -> StoreSnapshot P p f st = (Ok h, st1) ->
  h = Some (NewHash P (File_String f)) /\ FindSnapshot p st1 = (Ok (h, Some f), st1).
Proof.
  intros HP Hf H. unfold StoreSnapshot in H.
  apply mbind_Ok in H as (u1 & s1 & H1 & H). injection H1 as _ E1.
  apply mbind_Ok in H as (h0 & s2 & H2 & H).
  apply mwrap_Ok, StoreObject_run in H2 as [[= ->] E2].
  apply mbind_Ok in H as (u3 & s3 & H3 & H). injection H3 as _ E3.
  apply mbind_Ok in H as (ct & s4 & H4 & H).
  assert (Hs4 : s4 = s3).
  { destruct (File_IsDir (Some f)).
    - apply mbind_Ok in H4 as (t' & s' & H4a & H4b). injection H4b as <- <-.
      apply mwrap_Ok in H4a. symmetry.
      exact (preserves_run _ _ _ _ _ (ListDirectorySnapshotContents_pure P _ _) H4a).
    - injection H4 as <- <-. reflexivity. }
  subst s4.
  apply mbind_Ok in H as (cs & s5 & H5 & H). injection H5 as _ E5.
  apply mbind_Ok in H as (u6 & s6 & H6 & H). injection H as <- <-.
  pose proof (preserves_run _ _ _ _ _ (remove_unlisted_objects P p ct cs) H6) as O6.
  assert (Kp : keeps_path p s5 s6).
  { refine (preserves_run _ _ _ _ _ (remove_unlisted_keeps P p p ct cs _) H6).
    intros c rest Hr. exfalso. exact (app_cons_neq p c rest Hr). }
  unfold same_objects in O6. split; [reflexivity|].
  apply (FindSnapshot_at p s6 (Hash_String (Some (NewHash P (File_String f)))) _ (File_String f)).
  - rewrite (proj1 Kp). subst s5 s3. cbn [paths set_paths]. apply lookup_insert_eq.
  - apply ParseHash_String, NewHash_wf, HP.
  - rewrite O6. subst s5 s3 s2. cbn [objects set_paths set_objects]. apply lookup_insert_eq.
  - apply ParseFile_File_String_wf, Hf.
Qed.

Lemma StoreSnapshot_FindSnapshot_witness :
  match StoreSnapshot hexPrims ["a"] (mkFile "-rw-r--r--" (Some (NewHash hexPrims "x")) []) empty_store with
  | (Ok h, st1) =>
      h = Some (NewHash hexPrims (File_String (mkFile "-rw-r--r--" (Some (NewHash hexPrims "x")) []))) /\
      FindSnapshot ["a"] st1 = (Ok (h, Some (mkFile "-rw-r--r--" (Some (NewHash hexPrims "x")) [])), st1)
  | _ => False
  end.
Proof.
  assert (Hb : match fst (StoreSnapshot hexPrims ["a"] (mkFile "-rw-r--r--" (Some (NewHash hexPrims "x")) []) empty_store)
               with Ok _ => true | _ => false end = true) by (vm_compute; reflexivity).
  revert Hb.
  destruct (StoreSnapshot hexPrims ["a"] (mkFile "-rw-r--r--" (Some (NewHash hexPrims "x")) []) empty_store)
    as [[h|err] st1] eqn:E; cbn [fst]; intros Hb; [|discriminate Hb].
  apply (StoreSnapshot_FindSnapshot hexPrims ["a"] _ empty_store h st1).
  - exact hexPrims_ok.
  - split; [reflexivity|]. split.
    + eexists. split; [reflexivity|]. apply NewHash_wf, hexPrims_ok.
    + exists []. split; [reflexivity|]. constructor.
  - exact E.
Defined.

(* ------------------------------------------------------------------ *)
(** ** Removing mappings *)

Lemma FindSnapshot_NotExist p st :
  fst (FindSnapshot p st) = Err ENotExist <-> paths st !! p = None.
Proof.
  unfold FindSnapshot. destruct (paths st !! p) as [s|]; [|tauto].
  split; [|discriminate]. unfold mbind, lift, rwrap.
  destruct (ParseHash s) as [h|]; cbn; [|discriminate].
  unfold mwrap. destruct (ReadSnapshot h st) as [[]]; cbn; discriminate.
Qed.

Lemma RemoveMappingForPath_step P fuel p st r st1 :
  RemoveMappingForPath P (S fuel) p st = (r, st1) ->
  let st0 := set_mapped (filter (fun q => is_prefix p q = false) (mapped st)) st in
  (paths st0 !! p = None /\ st1 = st0) \/
  (exists s, paths st0 !! p = Some s /\ shrinks (set_paths (delete p (paths st0)) st0) st1).
Proof.
  intros H st0. cbn [RemoveMappingForPath] in H.
  unfold mbind at 1, mmodify at 1 in H. fold st0 in H.
  unfold mbind at 1, mtry at 1 in H.
  destruct (FindSnapshot p st0) as [r0 s0] eqn:Ef.
  pose proof (FindSnapshot_state p st0) as Es0. rewrite Ef in Es0. cbn [snd] in Es0. subst s0.
  pose proof (FindSnapshot_NotExist p st0) as Hne. rewrite Ef in Hne. cbn [fst] in Hne.
  destruct (paths st0 !! p) as [s|] eqn:Ep.
  - right. exists s. split; [reflexivity|].
    destruct r0 as [hf|[|msg]]; [| discriminate (proj1 Hne eq_refl) |].
    2: { unfold mbind at 1, remove_mapping_file at 1 in H. rewrite Ep in H.
         simpl in H. injection H as _ <-. reflexivity. }
    (unfold mbind at 1, remove_mapping_file at 1 in H; rewrite Ep in H;
     refine (preserves_run _ _ _ _ _ _ H);
     destruct (negb _); [auto with preserves typeclass_instances|];
     apply (preserves_bind shrinks);
       [apply preserves_wrap, preserves_eq, ListDirectorySnapshotContents_pure; typeclasses eauto|];
     intros tree; induction (map fst (map_to_list tree)) as [|c cs IHcs];
       [auto with preserves typeclass_instances|];
     apply (preserves_bind shrinks); [apply preserves_wrap, RemoveMappingForPath_shrinks|];
     intros _; exact IHcs).
  - left. split; [reflexivity|].
    assert (E : r0 = Err ENotExist) by (apply Hne; reflexivity). subst r0.
    injection H as _ <-. reflexivity.
Qed.

(** Whatever its outcome, [RemoveMappingForPath p] (with fuel left)
    leaves no mapping file for [p] and no mapped path under [p]; it only
    removes mappings and mapped paths, and leaves the objects, the cache
    and the identities alone. *)
Theorem RemoveMappingForPath_clears P fuel p st r st1 :
  RemoveMappingForPath P (S fuel) p st = (r, st1) ->
  paths st1 !! p = None /\ (forall q, q ∈ mapped st1 -> is_prefix p q = false) /\
  shrinks st st1.
Proof.
  intros H.
  pose proof (preserves_run _ _ _ _ _ (RemoveMappingForPath_shrinks P (S fuel) p) H) as Hsh.
  destruct (RemoveMappingForPath_step P fuel p st r st1 H) as [[Hn ->]|(s & Hs & (P1 & M1 & _))].
  - split; [exact Hn|]. split; [|exact Hsh].
    intros q Hq. cbn [set_mapped mapped] in Hq. apply elem_of_filter in Hq. apply Hq.
  - split; [|split; [|exact Hsh]].
    + eapply lookup_weaken_None; [|exact P1]. cbn [set_paths paths]. apply lookup_delete_eq.
    + intros q Hq. apply M1 in Hq. cbn [set_paths set_mapped mapped] in Hq.
      apply elem_of_filter in Hq. apply Hq.
Qed.

Lemma RemoveMappingForPath_clears_witness :
  let run := RemoveMappingForPath hexPrims 3 ["a"] (mkStore ∅ {[ ["a"] := "x"; ["b"] := "y" ]} {[ ["a"; "c"]; ["b"] ]} ∅ ∅) in
  paths (snd run) !! ["a"] = None /\
  (forall q, q ∈ mapped (snd run) -> is_prefix ["a"] q = false) /\
  shrinks (mkStore ∅ {[ ["a"] := "x"; ["b"] := "y" ]} {[ ["a"; "c"]; ["b"] ]} ∅ ∅) (snd run).
Proof.
  intros run. apply (RemoveMappingForPath_clears hexPrims 2 ["a"] _ (fst run)). apply surjective_pairing.
Defined.

(* ------------------------------------------------------------------ *)
(** ** What [Current] records and what it leaves alone *)

(** A successful [Current p] on an existing, non-excluded entry records
    its result: afterwards [FindSnapshot p] reads back the returned hash
    and file, and the returned hash is a well-formed one. *)
Theorem Current_records P AD p e st r st1 :
  prims_ok P -> consistent P st -> entry_wf e = true -> Exclude AD p = false ->
  Current P AD p (Some e) st = (Ok r, st1) ->
  fst (FindSnapshot p st1) = Ok r /\ exists hh, r.1 = Some hh /\ hash_wf hh.
Proof.
  intros HP Hc Hwf Hx H. unfold Current in H. rewrite Hx in H.
  destruct (current_entry_first P AD e st p r st1 HP Hc Hwf H) as (Hs & _).
  split; [exact (Settled_found P AD st1 p e r Hs) | exact (Settled_hash P AD st1 p e r Hs)].
Qed.

Lemma Current_records_witness :
  exists r st1,
    Current hexPrims ["tmp"; "archive"] ["tmp"] (Some sample_dir) empty_store = (Ok r, st1) /\
    fst (FindSnapshot ["tmp"] st1) = Ok r /\ exists hh, r.1 = Some hh /\ hash_wf hh.
Proof.
  assert (Hb : match fst (Current hexPrims ["tmp"; "archive"] ["tmp"] (Some sample_dir) empty_store) with
               | Ok _ => true | _ => false end = true) by (vm_compute; reflexivity).
  revert Hb.
  destruct (Current hexPrims ["tmp"; "archive"] ["tmp"] (Some sample_dir) empty_store)
    as [[r|err] st1] eqn:E; cbn [fst]; intros Hb; [|discriminate Hb].
  exists r, st1. split; [reflexivity|].
  apply (Current_records hexPrims ["tmp"; "archive"] ["tmp"] sample_dir empty_store r st1).
  - exact hexPrims_ok.
  - apply map_Forall_empty.
  - vm_compute. reflexivity.
  - reflexivity.
  - exact E.
Defined.

(** A successful [Current p] keeps every object in place under its own
    hash, only adds objects, and leaves the mapping files and cache
    entries of all paths outside the subtree of [p] unchanged. *)
Theorem Current_frame P AD p e st r st1 :
  prims_ok P -> consistent P st ->
  match e with Some e => entry_wf e = true | None => True end ->
  Current P AD p e st = (Ok r, st1) ->
  consistent P st1 /\ objects st ⊆ objects st1 /\ forall x, ~ under p x -> agree_at st st1 x.
Proof.
  intros HP Hc Hwf H. unfold Current in H.
  destruct (Exclude AD p).
  { injection H as _ <-. split; [exact Hc|]. split; [reflexivity|]. intros x _. split; reflexivity. }
  destruct e as [e|].
  - destruct (current_entry_first P AD e st p r st1 HP Hc Hwf H) as (_ & Hc1 & Ho & Ha).
    auto.
  - injection H as _ <-. split; [exact Hc|]. split; [reflexivity|]. intros x _. split; reflexivity.
Qed.

Lemma Current_frame_witness :
  exists r st1,
    Current hexPrims ["tmp"; "archive"] ["tmp"] (Some sample_dir) empty_store = (Ok r, st1) /\
    consistent hexPrims st1 /\ objects empty_store ⊆ objects st1 /\
    forall x, ~ under ["tmp"] x -> agree_at empty_store st1 x.
Proof.
  assert (Hb : match fst (Current hexPrims ["tmp"; "archive"] ["tmp"] (Some sample_dir) empty_store) with
               | Ok _ => true | _ => false end = true) by (vm_compute; reflexivity).
  revert Hb.
  destruct (Current hexPrims ["tmp"; "archive"] ["tmp"] (Some sample_dir) empty_store)
    as [[r|err] st1] eqn:E; cbn [fst]; intros Hb; [|discriminate Hb].
  exists r, st1. split; [reflexivity|].
  apply (Current_frame hexPrims ["tmp"; "archive"] ["tmp"] (Some sample_dir) empty_store r st1).
  - exact hexPrims_ok.
  - apply map_Forall_empty.
  - vm_compute. reflexivity.
  - exact E.
Defined.

(* ------------------------------------------------------------------ *)
(** ** What [Import] changes *)

Lemma import_entries_inv P es : forall inc st r st1,
  prims_ok P -> consistent P st ->
  (forall h, h ∈ inc -> exists hh, h = Some hh /\ is_Some (objects st !! hh)) ->
  import_entries P es inc st = (r, st1) ->
  consistent P st1 /\ objects st ⊆ objects st1 /\
  paths st1 = paths st /\ mapped st1 = mapped st /\ cache st1 = cache st /\
  identities st1 = identities st /\
  (forall included, r = Ok included ->
     forall h, h ∈ included -> exists hh, h = Some hh /\ is_Some (objects st1 !! hh)).
Proof.
  induction es as [|[name bs] es IH]; intros inc st r st1 HP Hc Hinc H; cbn [import_entries] in H.
  - injection H as <- <-. repeat split; try reflexivity; [exact Hc|].
    intros included [= <-]. exact Hinc.
  - destruct (bundlePathHash name) as [h|e]; [|exact (IH inc st r st1 HP Hc Hinc H)].
    unfold mbind at 1, mtry at 1 in H.
    destruct (ReadObject h st) as [r0 s0] eqn:E.
    pose proof (ReadObject_pure h st) as Hp. rewrite E in Hp. cbn [snd] in Hp. subst s0.
    destruct r0 as [bs0|e0]; [exact (IH inc st r st1 HP Hc Hinc H)|].
    unfold mbind at 1, mwrap at 1, StoreObject at 1, mbind at 1, mmodify at 1, mret at 1 in H.
    cbn beta iota in H.
    destruct (insert_object_consistent P st bs HP Hc) as [Hc' Hsub].
    set (st' := set_objects (<[NewHash P bs := bs]> (objects st)) st) in *.
    destruct (IH (inc ++ [Some (NewHash P bs)])%list st' r st1 HP Hc') as (Hc1 & Ho & Hpa & Hm & Hca & Hi & Hr);
      [| exact H |].
    + intros h' Hh'. apply elem_of_app in Hh' as [Hh'|Hh'].
      * destruct (Hinc h' Hh') as (hh & -> & [v Hv]). exists hh. split; [reflexivity|].
        exists v. exact (lookup_weaken _ _ _ _ Hv Hsub).
      * apply list_elem_of_singleton in Hh'. subst h'. exists (NewHash P bs). split; [reflexivity|].
        subst st'. cbn [objects set_objects]. rewrite lookup_insert_eq. eauto.
    + split; [exact Hc1|]. split; [etrans; [exact Hsub | exact Ho]|].
      subst st'. cbn [set_objects paths mapped cache identities] in Hpa, Hm, Hca, Hi. auto.
Qed.

(** [Import] keeps every object under its own hash and only adds
    objects: it never touches the path mappings, the mapped paths, the
    cache or the identities. Every hash it reports as included names an
    object that is then in the store. *)
Theorem Import_adds_objects P entries exclude st r st1 :
  prims_ok P -> consistent P st -> Import P entries exclude st = (r, st1) ->
  consistent P st1 /\ objects st ⊆ objects st1 /\
  paths st1 = paths st /\ mapped st1 = mapped st /\ cache st1 = cache st /\
  identities st1 = identities st /\
  (forall included, r = Ok included ->
     forall h, h ∈ included -> exists hh, h = Some hh /\ is_Some (objects st1 !! hh)).
Proof.
  intros HP Hc H. unfold Import, mbind at 1, lift at 1 in H.
  destruct (validate_entries P entries) as [u|e].
  - apply (import_entries_inv P entries [] st r st1 HP Hc); [|exact H].
    intros h Hh. apply elem_of_nil in Hh as [].
  - injection H as <- <-. repeat split; try reflexivity; [exact Hc|]. discriminate.
Qed.

(** Witness of [Import_adds_objects]: the object "x" in an entry named
    "objectssha256/<hex>" (a name [bundlePathHash] parses), imported
    into the empty store, where it is stored and reported. *)
Lemma Import_adds_objects_witness :
  let ents := [(String.append "objectssha256/" (hexContents (NewHash hexPrims "x")), "x")] in
  let run := Import hexPrims ents [] empty_store in
  fst run = Ok [Some (NewHash hexPrims "x")] /\
  objects (snd run) !! NewHash hexPrims "x" = Some "x" /\
  (consistent hexPrims (snd run) /\ objects empty_store ⊆ objects (snd run) /\
   paths (snd run) = paths empty_store /\ mapped (snd run) = mapped empty_store /\
   cache (snd run) = cache empty_store /\ identities (snd run) = identities empty_store /\
   (forall included, fst run = Ok included ->
      forall h, h ∈ included -> exists hh, h = Some hh /\ is_Some (objects (snd run) !! hh))).
Proof.
  intros ents run. split; [vm_compute; reflexivity|]. split; [vm_compute; reflexivity|].
  apply (Import_adds_objects hexPrims ents [] empty_store (fst run) (snd run)).
  - exact hexPrims_ok.
  - apply map_Forall_empty.
  - apply surjective_pairing.
Defined.

(* ------------------------------------------------------------------ *)
(** ** Bundles written by [Export] *)

Lemma zbind_Ok {A B} (m : ZM A) (k : A -> ZM B) w b w' :
  zbind m k w = (Ok b, w') -> exists a w1, m w = (Ok a, w1) /\ k a w1 = (Ok b, w').
Proof. unfold zbind. destruct (m w) as [[a|e] w1]; [eauto | discriminate]. Qed.

Lemma zwrap_Ok {A} msg (m : ZM A) w a w' : zwrap msg m w = (Ok a, w') -> m w = (Ok a, w').
Proof. unfold zwrap. destruct (m w) as [[]]; congruence. Qed.

Lemma zw_step_refl st pre w : zw_ok st pre w -> zw_step st pre w w.
Proof. intros H. split; [exact H|]. split; [reflexivity|]. split; [reflexivity|]. auto. Qed.

Lemma zw_step_trans st pre w1 w2 w3 :
  zw_step st pre w1 w2 -> zw_step st pre w2 w3 -> zw_step st pre w1 w3.
Proof.
  intros (_ & E1 & R1 & I1) (O2 & E2 & R2 & I2). split; [exact O2|]. split; [congruence|]. split; [congruence|].
  intros h Hh. apply I2, I1, Hh.
Qed.

Lemma ReadObject_Some_Ok hh st bs : fst (ReadObject (Some hh) st) = Ok bs -> objects st !! hh = Some bs.
Proof. cbn. destruct (objects st !! hh); cbn; congruence. Qed.

Lemma AddObject_ok st pre h w a w' :
  AddObject st h w = (Ok a, w') -> zw_ok st pre w ->
  zw_step st pre w w' /\ exists hh, h = Some hh /\ (hh ∈ zw_exclude w \/ Some hh ∈ zw_included w').
Proof.
  intros H Hok. unfold AddObject in H. destruct h as [hh|]; [|discriminate].
  destruct (bool_decide (hh ∈ zw_exclude w)) eqn:Ex.
  { injection H as _ <-. split; [apply zw_step_refl, Hok|]. exists hh. split; [reflexivity|].
    left. apply bool_decide_eq_true in Ex. exact Ex. }
  destruct (bool_decide (hh ∈ zw_visited w)) eqn:Ev.
  { injection H as _ <-. split; [apply zw_step_refl, Hok|]. exists hh. split; [reflexivity|].
    right. apply bool_decide_eq_true in Ev. apply (proj1 (proj2 (proj2 Hok))), Ev. }
  apply bool_decide_eq_false in Ex, Ev.
  destruct (fst (ReadObject (Some hh) st)) as [bs|e] eqn:Er; [|discriminate].
  apply ReadObject_Some_Ok in Er. injection H as _ <-.
  destruct Hok as (Hnd & Hex & Hvis & objs & Hent & Hf).
  split; [|exists hh; split; [reflexivity|]; right; cbn; apply elem_of_app; right; apply list_elem_of_singleton; reflexivity].
  unfold zw_step, zw_ok, zw_write, zw_visit; cbn [zw_included zw_exclude zw_visited zw_entries zw_recurseParents].
  split; [|split; [reflexivity|split; [reflexivity|]]].
  - split; [|split; [|split]].
    + apply NoDup_app. split; [exact Hnd|]. split; [|apply NoDup_singleton].
      intros x Hx Hy. apply list_elem_of_singleton in Hy. subst x. apply Ev, Hvis, Hx.
    + intros h Hh. apply elem_of_app in Hh as [Hh|Hh]; [exact (Hex h Hh)|].
      apply list_elem_of_singleton in Hh. subst h. eauto.
    + intros x. rewrite elem_of_union, elem_of_singleton, elem_of_app, list_elem_of_singleton, Hvis.
      split; intros [E|E]; [right; congruence | left; exact E | right; exact E | left; congruence].
    + exists (objs ++ [(bundleEntryPath hh, bs)])%list. split.
      * rewrite Hent, <- app_assoc. reflexivity.
      * apply Forall2_app; [exact Hf|]. constructor; [|constructor]. exists hh, bs. auto.
  - intros h Hh. apply elem_of_app. left. exact Hh.
Qed.

Lemma AddFile_ok P listing st pre fuel : forall h f w a w',
  AddFile P listing fuel st h f w = (Ok a, w') -> zw_ok st pre w ->
  zw_step st pre w w' /\
  (exists hh, h = Some hh /\ (hh ∈ zw_exclude w \/ Some hh ∈ zw_included w')) /\
  (forall fl c, f = Some fl -> Contents fl = Some c -> c ∈ zw_exclude w \/ Some c ∈ zw_included w').
Proof.
  induction fuel as [|fuel IH]; intros h f w a w' H Hok; [discriminate|].
  cbn [AddFile] in H.
  apply zbind_Ok in H as (u1 & w1 & H1 & H). apply zwrap_Ok in H1.
  destruct (AddObject_ok st pre h w u1 w1 H1 Hok) as (S1 & hh & Eh & Hin1).
  destruct f as [fl|]; [|discriminate].
  destruct (Contents fl) as [c|] eqn:Ec.
  2: { injection H as _ <-. split; [exact S1|]. split; [exists hh; auto|].
       intros fl' c' [= <-] Ec'. congruence. }
  apply zbind_Ok in H as (u2 & w2 & H2 & H). apply zwrap_Ok in H2.
  destruct (AddObject_ok st pre (Some c) w1 u2 w2 H2 (proj1 S1)) as (S2 & c' & [= <-] & Hin2).
  assert (S3 : zw_step st pre w2 w').
  { pose proof (proj1 S2) as Hok2. clear - IH Hok2 H.
    destruct (negb (File_IsDir (Some fl))); [injection H as _ <-; apply zw_step_refl, Hok2|].
    destruct (fst (ListDirectorySnapshotContents P h (Some fl) st)) as [tree|e]; [|discriminate].
    apply zbind_Ok in H as (u3 & w3 & H3 & H).
    assert (S3 : zw_step st pre w2 w3).
    { clear H. revert H3. generalize (listing tree) as l. intros l H3.
      induction l as [|[ch|] cs IHl] in w2, u3, w3, Hok2, H3 |- *; cbv beta iota fix in H3.
      - injection H3 as _ <-. apply zw_step_refl, Hok2.
      -         destruct (bool_decide (ch ∈ zw_exclude w2)); [exact (IHl _ _ _ Hok2 H3)|].
        destruct (bool_decide (ch ∈ zw_visited w2)); [exact (IHl _ _ _ Hok2 H3)|].
        destruct (fst (ReadSnapshot (Some ch) st)) as [child|]; [|discriminate].
        apply zbind_Ok in H3 as (u4 & w4 & H4 & H3). apply zwrap_Ok in H4.
        destruct (IH _ _ _ _ _ H4 Hok2) as (S4 & _ & _).
        eapply zw_step_trans; [exact S4|]. exact (IHl _ _ _ (proj1 S4) H3).
      - discriminate. }
    eapply zw_step_trans; [exact S3|]. pose proof (proj1 S3) as Hok3. clear - IH Hok3 H.
    cbv beta in H. destruct (negb (zw_recurseParents w3)); [injection H as _ <-; apply zw_step_refl, Hok3|].
    revert H. generalize (Parents fl) as ps. intros ps H.
    induction ps as [|ph ps IHp] in w3, a, w', Hok3, H |- *.
    - injection H as _ <-. apply zw_step_refl, Hok3.
    - cbv beta iota fix in H.
      destruct (fst (ReadSnapshot ph st)) as [parent|]; [|exact (IHp _ _ _ Hok3 H)].
      apply zbind_Ok in H as (u4 & w4 & H4 & H). apply zwrap_Ok in H4.
      destruct (IH _ _ _ _ _ H4 Hok3) as (S4 & _ & _).
      eapply zw_step_trans; [exact S4|]. exact (IHp _ _ _ (proj1 S4) H). }
  destruct S1 as (Ok1 & Ex1 & Rc1 & In1). destruct S2 as (Ok2 & Ex2 & Rc2 & In2).
  destruct S3 as (Ok3 & Ex3 & Rc3 & In3).
  split; [split; [exact Ok3|]; split; [congruence|]; split; [congruence|]; intros x Hx; apply In3, In2, In1, Hx|].
  split.
  - exists hh. split; [exact Eh|]. destruct Hin1 as [Hx|Hx]; [left; exact Hx | right; apply In3, In2, Hx].
  - intros fl' c0 [= <-] Ec0. rewrite Ec in Ec0. injection Ec0 as <-.
    destruct Hin2 as [Hx|Hx]; [left; rewrite <- Ex1; exact Hx | right; apply In3, Hx].
Qed.

Lemma exclude_set_spec ex s : exclude_set ex = Ok s -> forall hh, hh ∈ s <-> Some hh ∈ ex.
Proof.
  revert s. induction ex as [|[h|] ex IH]; intros s H hh; cbn [exclude_set] in H.
  - injection H as <-. rewrite elem_of_empty, elem_of_nil. tauto.
  - unfold rbind in H. destruct (exclude_set ex) as [s'|e]; [|discriminate]. injection H as <-.
    rewrite elem_of_union, elem_of_singleton, elem_of_cons, (IH s' eq_refl).
    split; intros [E|E]; [left; congruence | right; exact E | left; congruence | right; exact E].
  - discriminate.
Qed.

Lemma export_loop_ok P listing fuel st pre hs : forall w w',
  export_loop P listing fuel st hs w = Ok w' -> zw_ok st pre w ->
  zw_step st pre w w' /\
  forall h, h ∈ hs -> exists hh, h = Some hh /\ (hh ∈ zw_exclude w \/ Some hh ∈ zw_included w') /\
    forall fl c, fst (ReadSnapshot h st) = Ok (Some fl) -> Contents fl = Some c ->
      c ∈ zw_exclude w \/ Some c ∈ zw_included w'.
Proof.
  induction hs as [|h hs IH]; intros w w' H Hok; cbn [export_loop] in H.
  - injection H as <-. split; [apply zw_step_refl, Hok|]. intros h Hh. apply elem_of_nil in Hh as [].
  - destruct (fst (ReadSnapshot h st)) as [f|e] eqn:Er; [|discriminate].
    destruct (AddFile P listing fuel st h f w) as [[a|e] w1] eqn:Ea; [|discriminate].
    destruct (AddFile_ok P listing st pre fuel h f w a w1 Ea Hok) as (S1 & (hh & Eh & Hin) & Hc).
    destruct (IH w1 w' H (proj1 S1)) as (S2 & Hrest).
    pose proof S1 as (_ & Ex1 & _ & In1). pose proof S2 as (Ok2 & Ex2 & Rc2 & In2).
    split; [eapply zw_step_trans; [exact S1 | exact S2]|].
    intros h' Hh'. apply elem_of_cons in Hh' as [->|Hh'].
    + exists hh. split; [exact Eh|]. split.
      * destruct Hin as [Hx|Hx]; [left; exact Hx | right; apply In2, Hx].
      * intros fl c Ef Ec. rewrite Er in Ef. injection Ef as ->.
        destruct (Hc fl c eq_refl Ec) as [Hx|Hx]; [left; exact Hx | right; apply In2, Hx].
    + destruct (Hrest h' Hh') as (hh' & Eh' & Hin' & Hc'). exists hh'. split; [exact Eh'|].
      rewrite <- Ex1. split; [exact Hin'|]. exact Hc'.
Qed.

Lemma Export_run P listing fuel st snapshots exclude metadata recurseParents included entries :
  Export P listing fuel st snapshots exclude metadata recurseParents = Ok (included, entries) ->
  exists ex w, exclude_set exclude = Ok ex /\
    zw_step st metadata (mkZipWriter ∅ ex recurseParents [] metadata) w /\
    included = zw_included w /\ entries = zw_entries w /\
    export_loop P listing fuel st snapshots (mkZipWriter ∅ ex recurseParents [] metadata) = Ok w.
Proof.
  unfold Export, NewZipWriter, rbind. destruct (exclude_set exclude) as [ex|e] eqn:Ex; [|discriminate].
  destruct (export_loop P listing fuel st snapshots (mkZipWriter ∅ ex recurseParents [] metadata)) as [w|e] eqn:El;
    [|discriminate].
  intros [= <- <-]. exists ex, w. split; [reflexivity|]. split; [|auto].
  refine (proj1 (export_loop_ok P listing fuel st metadata snapshots _ _ El _)).
  split; [constructor|]. split; [intros h Hh; apply elem_of_nil in Hh as []|]. split.
  - intros hh. cbn. rewrite elem_of_empty, elem_of_nil. tauto.
  - exists []. cbn. rewrite app_nil_r. split; [reflexivity | constructor].
Qed.

(** The bundle [Export] writes holds each included hash once, never an
    excluded one, and after the metadata entries exactly one entry per
    included hash, in order: the object's bytes from the store under
    [bundleEntryPath] of its hash. This holds whatever order the tree
    iteration takes. *)
Theorem Export_bundle_entries P listing fuel st snapshots exclude metadata recurseParents included entries :
  Export P listing fuel st snapshots exclude metadata recurseParents = Ok (included, entries) ->
  NoDup included /\
  (forall h, h ∈ included -> exists hh, h = Some hh /\ Some hh ∉ exclude) /\
  exists objs, entries = (metadata ++ objs)%list /\
    Forall2 (fun h e => exists hh bs, h = Some hh /\ objects st !! hh = Some bs /\ e = (bundleEntryPath hh, bs))
      included objs.
Proof.
  intros H. destruct (Export_run P listing fuel st snapshots exclude metadata recurseParents included entries H)
    as (ex & w & Ex & ((Hnd & Hex & _ & objs & Hent & Hf) & Hx & _ & _) & -> & -> & _).
  cbn [zw_exclude] in Hx. split; [exact Hnd|]. split.
  - intros h Hh. destruct (Hex h Hh) as (hh & -> & Hn). exists hh. split; [reflexivity|].
    rewrite <- (exclude_set_spec exclude ex Ex hh). rewrite <- Hx. exact Hn.
  - exists objs. split; [exact Hent | exact Hf].
Qed.

(** A successful [Export] includes every requested snapshot and the
    contents of each of them, unless the hash is excluded. *)
Theorem Export_includes_snapshots P listing fuel st snapshots exclude metadata recurseParents included entries :
  Export P listing fuel st snapshots exclude metadata recurseParents = Ok (included, entries) ->
  forall h, h ∈ snapshots -> exists hh, h = Some hh /\ (Some hh ∈ exclude \/ Some hh ∈ included) /\
    forall fl c, fst (ReadSnapshot h st) = Ok (Some fl) -> Contents fl = Some c ->
      Some c ∈ exclude \/ Some c ∈ included.
Proof.
  intros H. destruct (Export_run P listing fuel st snapshots exclude metadata recurseParents included entries H)
    as (ex & w & Ex & (Hok & _) & -> & -> & El).
  assert (Hok0 : zw_ok st metadata (mkZipWriter ∅ ex recurseParents [] metadata)).
  { split; [constructor|]. split; [intros h Hh; apply elem_of_nil in Hh as []|]. split.
    - intros hh. cbn. rewrite elem_of_empty, elem_of_nil. tauto.
    - exists []. cbn. rewrite app_nil_r. split; [reflexivity | constructor]. }
  destruct (export_loop_ok P listing fuel st metadata snapshots _ _ El Hok0) as (_ & Hs).
  intros h Hh. destruct (Hs h Hh) as (hh & Eh & Hin & Hc). cbn [zw_exclude] in Hin, Hc.
  exists hh. split; [exact Eh|]. split.
  - rewrite <- (exclude_set_spec exclude ex Ex hh). exact Hin.
  - intros fl c Ef Ec. rewrite <- (exclude_set_spec exclude ex Ex c). exact (Hc fl c Ef Ec).
Qed.

Lemma Export_bundle_entries_witness :
  let f := mkFile "-rw-r--r--" (Some (NewHash hexPrims "x")) [] in
  let st := mkStore {[ NewHash hexPrims "x" := "x"; NewHash hexPrims (File_String f) := File_String f ]} ∅ ∅ ∅ ∅ in
  match Export hexPrims (fun t => map snd (map_to_list t)) 3 st [Some (NewHash hexPrims (File_String f))] []
          [("metadata/k", "v")] false with
  | Ok (included, entries) =>
      NoDup included /\
      (forall h, h ∈ included -> exists hh, h = Some hh /\ Some hh ∉ ([] : list (option Hash))) /\
      exists objs, entries = ([("metadata/k", "v")] ++ objs)%list /\
        Forall2 (fun h e => exists hh bs, h = Some hh /\ objects st !! hh = Some bs /\ e = (bundleEntryPath hh, bs))
          included objs
  | Err _ => False
  end.
Proof.
  intros f st.
  assert (Hb : match Export hexPrims (fun t => map snd (map_to_list t)) 3 st [Some (NewHash hexPrims (File_String f))] []
                       [("metadata/k", "v")] false with Ok (_ :: _ :: _, _) => true | _ => false end = true)
    by (vm_compute; reflexivity).
  revert Hb.
  destruct (Export hexPrims (fun t => map snd (map_to_list t)) 3 st [Some (NewHash hexPrims (File_String f))] []
              [("metadata/k", "v")] false) as [[included entries]|e] eqn:E; intros Hb; [|discriminate Hb].
  exact (Export_bundle_entries hexPrims _ 3 st _ [] _ false included entries E).
Defined.

Lemma Export_includes_snapshots_witness :
  let f := mkFile "-rw-r--r--" (Some (NewHash hexPrims "x")) [] in
  let st := mkStore {[ NewHash hexPrims "x" := "x"; NewHash hexPrims (File_String f) := File_String f ]} ∅ ∅ ∅ ∅ in
  match Export hexPrims (fun t => map snd (map_to_list t)) 3 st [Some (NewHash hexPrims (File_String f))] []
          [] false with
  | Ok (included, entries) =>
      forall h, h ∈ [Some (NewHash hexPrims (File_String f))] ->
        exists hh, h = Some hh /\ (Some hh ∈ ([] : list (option Hash)) \/ Some hh ∈ included) /\
        forall fl c, fst (ReadSnapshot h st) = Ok (Some fl) -> Contents fl = Some c ->
          Some c ∈ ([] : list (option Hash)) \/ Some c ∈ included
  | Err _ => False
  end.
Proof.
  intros f st.
  assert (Hb : match Export hexPrims (fun t => map snd (map_to_list t)) 3 st [Some (NewHash hexPrims (File_String f))] []
                       [] false with Ok (_ :: _ :: _, _) => true | _ => false end = true)
    by (vm_compute; reflexivity).
  revert Hb.
  destruct (Export hexPrims (fun t => map snd (map_to_list t)) 3 st [Some (NewHash hexPrims (File_String f))] []
              [] false) as [[included entries]|e] eqn:E; intros Hb; [|discriminate Hb].
  exact (Export_includes_snapshots hexPrims _ 3 st _ [] _ false included entries E).
Defined.

(* ------------------------------------------------------------------ *)
(** ** Bundles [Import] rejects *)

Lemma validate_entries_mismatch P es name bs h :
  (name, bs) ∈ es -> bundlePathHash name = Ok h -> h <> Some (NewHash P bs) ->
  exists e, validate_entries P es = Err e.
Proof.
  intros Hin Hb Hne. induction es as [|[n b] es IH]; [apply elem_of_nil in Hin as []|].
  cbn [validate_entries]. unfold rbind, rwrap.
  apply elem_of_cons in Hin as [[= <- <-]|Hin].
  - unfold validateZipEntry. cbn [fst snd]. rewrite Hb.
    destruct (Hash_Equal (Some (NewHash P bs)) h) eqn:Eq; [|eauto].
    exfalso. apply Hne. destruct h as [h|]; [|discriminate]. f_equal. symmetry. exact (Hash_Equal_true _ _ Eq).
  - destruct (validateZipEntry P (n, b)); [exact (IH Hin) | eauto].
Qed.

(** [Import] rejects a bundle with an object entry whose bytes do not
    hash to the hash its name gives, and then stores nothing. *)
Theorem Import_rejects_mismatch P entries exclude st r st1 name bs h :
  Import P entries exclude st = (r, st1) ->
  (name, bs) ∈ entries -> bundlePathHash name = Ok h -> h <> Some (NewHash P bs) ->
  (exists e, r = Err e) /\ st1 = st.
Proof.
  intros H Hin Hb Hne. destruct (validate_entries_mismatch P entries name bs h Hin Hb Hne) as (e & Ee).
  unfold Import, mbind, lift in H. rewrite Ee in H. injection H as <- <-. eauto.
Qed.

Lemma Import_rejects_mismatch_witness :
  let run := Import hexPrims [("objectssha256/ab", "x")] [] empty_store in
  (exists e, fst run = Err e) /\ snd run = empty_store.
Proof.
  intros run.
  apply (Import_rejects_mismatch hexPrims [("objectssha256/ab", "x")] [] empty_store (fst run) (snd run)
           "objectssha256/ab" "x" (Some (mkHash "sha256" "ab"))).
  - apply surjective_pairing.
  - apply list_elem_of_singleton. reflexivity.
  - vm_compute. reflexivity.
  - vm_compute. congruence.
Defined.
